(** * e3.collection.dag: directed acyclic graphs and their topological iterator

    A shallow embedding of [src/e3/collection/dag.py] and the proofs of the
    properties stated about it.

    Modelling conventions.
    - Python objects that are mutated ([DAG], [DAGIterator]) are records that
      are threaded through a state-and-exception monad [M]: a method is a
      function from the object's state to an outcome (a raised exception or
      a returned value) together with the state the object is left in.  The
      state survives a raised exception, as it does in Python.
    - [dict] is [gmap], [set]/[frozenset] is [gset]; Python [None] payloads
      are [option].
    - The order in which Python enumerates a [set] or a [dict] is not
      specified.  It is a parameter of the development (class [IterOrder]):
      every theorem holds for every enumeration order, and the instance
      [canonical_order] makes the definitions executable. *)

From Stdlib Require Import ZArith Lia.
From stdpp Require Import base option list relations sets fin_sets gmap fin_maps strings.

Set Default Proof Using "Type*".
#[local] Set Warnings "-clear-no-such-hyp".

(** ** Exceptions *)

(** The messages of the [DAGError]s raised by the module. *)
Inductive dag_error_msg : Type :=
  | msg_cycle_detected          (* 'cycle detected'                       (DAGIterator.next_element) *)
  | msg_vertex_already_exist    (* 'vertex %s already exist'              (DAG.add_vertex) *)
  | msg_non_existing_vertices   (* 'predecessor on non existing vertices' (DAG.update_vertex) *)
  | msg_cannot_update_vertex    (* 'cannot update vertex (%s create a cycle)' (DAG.update_vertex) *)
  | msg_contains_cycle          (* 'this DAG contains at least one cycle' (DAG.check) *)
  | msg_invalid_nodes.          (* 'invalid nodes in predecessors of %s'  (DAG.check) *)

(** The exceptions a method of the module can terminate with.  [OutOfFuel]
    is not a Python exception: it marks the exhaustion of the bound the
    model puts on a [while True] or [for] loop, i.e. a loop that would still
    be running. *)
Inductive exn : Type :=
  | DAGError (m : dag_error_msg)
  | KeyError
  | AssertionError
  | StopIteration
  | OutOfFuel.

#[global] Instance dag_error_msg_eq_dec : EqDecision dag_error_msg.
Proof. solve_decision. Defined.
#[global] Instance exn_eq_dec : EqDecision exn.
Proof. solve_decision. Defined.

(** The error taxonomy of the specification, read off the message of the
    [DAGError] (all of them are one Python class). *)
Definition DuplicateVertex (e : exn) : Prop := e = DAGError msg_vertex_already_exist.
Definition InvalidPredecessor (e : exn) : Prop :=
  e = DAGError msg_non_existing_vertices ∨ e = DAGError msg_invalid_nodes.
Definition CycleDetected (e : exn) : Prop :=
  e = DAGError msg_cycle_detected ∨ e = DAGError msg_cannot_update_vertex
  ∨ e = DAGError msg_contains_cycle.
Definition ProtocolFault (e : exn) : Prop := e = AssertionError.

(** ** The state and exception monad *)

Definition M (S A : Type) : Type := S → (exn + A) * S.

Definition ret {S A} (a : A) : M S A := λ s, (inr a, s).
Definition raise {S A} (e : exn) : M S A := λ s, (inl e, s).
Definition bind {S A B} (m : M S A) (k : A → M S B) : M S B :=
  λ s, match m s with
       | (inl e, s') => (inl e, s')
       | (inr a, s') => k a s'
       end.
Definition get_state {S} : M S S := λ s, (inr s, s).
Definition modify {S} (f : S → S) : M S unit := λ s, (inr tt, f s).

(** [try: m except DAGError: h] *)
Definition try_except_DAGError {S A} (m : M S A) (h : M S A) : M S A :=
  λ s, match m s with
       | (inl (DAGError _), s') => h s'
       | r => r
       end.

Declare Scope dag_monad_scope.
Delimit Scope dag_monad_scope with dagM.
Notation "'let!' x := m 'in' k" := (bind m (λ x, k))
  (at level 10, x name, m at level 100, k at level 200,
   format "'[v' 'let!'  x  :=  m  'in' '/' k ']'") : dag_monad_scope.
Notation "m ;;; k" := (bind m (λ _, k))
  (at level 100, k at level 200, right associativity,
   format "'[v' m  ;;; '/' k ']'") : dag_monad_scope.
Open Scope dag_monad_scope.

Lemma bind_eq {S A B} (m : M S A) (k : A → M S B) s :
  bind m k s = match m s with
               | (inl e, s') => (inl e, s')
               | (inr a, s') => k a s'
               end.
Proof. done. Qed.

(** [for x in l: body x] *)
Fixpoint for_each {S A} (l : list A) (body : A → M S unit) : M S unit :=
  match l with
  | [] => ret tt
  | x :: l' => body x ;;; for_each l' body
  end.

(** ** Enumeration order of sets and dictionaries *)

Class IterOrder (K : Type) `{Countable K} := {
  set_order : gset K → list K;
  set_order_perm : ∀ X, set_order X ≡ₚ elements X;
  dict_order : ∀ {V : Type}, gmap K V → list (K * V);
  dict_order_perm : ∀ V (m : gmap K V), dict_order m ≡ₚ map_to_list m
}.

#[global] Instance canonical_order (K : Type) `{Countable K} : IterOrder K := {|
  set_order := elements;
  set_order_perm := λ X, reflexivity (elements X);
  dict_order := λ V, map_to_list;
  dict_order_perm := λ V m, reflexivity (map_to_list m)
|}.

(** ** The graph store *)

Section dag.
Context {K : Type} `{Countable K} {D T : Type}.

(** [vertex_data] maps every vertex to its payload ([None] is Python's
    [None]); [vertex_predecessors], [vertex_successors] and [has_cycle] are
    the private attributes [__vertex_predecessors], [__vertex_successors]
    and [__has_cycle]. *)
Record DAG : Type := mkDAG {
  vertex_data : gmap K (option D);
  tags : gmap K (option T);
  vertex_predecessors : gmap K (gset K);
  vertex_successors : gmap K (gset K);
  has_cycle : option bool
}.

Definition DAG_init : DAG :=
  {| vertex_data := ∅; tags := ∅; vertex_predecessors := ∅;
     vertex_successors := ∅; has_cycle := None |}.

Definition set_vertex_data (f : gmap K (option D) → gmap K (option D)) (g : DAG) : DAG :=
  {| vertex_data := f (vertex_data g); tags := tags g;
     vertex_predecessors := vertex_predecessors g;
     vertex_successors := vertex_successors g; has_cycle := has_cycle g |}.
Definition set_tags (f : gmap K (option T) → gmap K (option T)) (g : DAG) : DAG :=
  {| vertex_data := vertex_data g; tags := f (tags g);
     vertex_predecessors := vertex_predecessors g;
     vertex_successors := vertex_successors g; has_cycle := has_cycle g |}.
Definition set_vertex_successors (s : gmap K (gset K)) (g : DAG) : DAG :=
  {| vertex_data := vertex_data g; tags := tags g;
     vertex_predecessors := vertex_predecessors g;
     vertex_successors := s; has_cycle := has_cycle g |}.
Definition set_has_cycle (c : option bool) (g : DAG) : DAG :=
  {| vertex_data := vertex_data g; tags := tags g;
     vertex_predecessors := vertex_predecessors g;
     vertex_successors := vertex_successors g; has_cycle := c |}.

(** The predecessors stored for [v], the empty set when there are none. *)
Definition preds_of (g : DAG) (v : K) : gset K :=
  default ∅ (vertex_predecessors g !! v).

Definition get_predecessors (vertex_id : K) : M DAG (gset K) :=
  λ self, (inr (default ∅ (vertex_predecessors self !! vertex_id)), self).

Definition set_predecessors (vertex_id : K) (predecessors : gset K) : M DAG unit :=
  λ self, (inr tt,
           {| vertex_data := vertex_data self; tags := tags self;
              vertex_predecessors := <[vertex_id := predecessors]> (vertex_predecessors self);
              vertex_successors := ∅;
              has_cycle := None |}).

Context `{!IterOrder K}.

(** [self.__vertex_successors[el].add(k)] *)
Definition add_successor (k el : K) : M (gmap K (gset K)) unit :=
  λ succ, match succ !! el with
          | None => (inl KeyError, succ)
          | Some s => (inr tt, <[el := s ∪ {[k]}]> succ)
          end.

(** The two nested loops that fill the successor dictionary. *)
Definition fill_successors (items : list (K * gset K)) : M (gmap K (gset K)) unit :=
  for_each items (λ kv, for_each (set_order kv.2) (add_successor kv.1)).

(** [get_successors]: an empty cache is rebuilt from the predecessor
    dictionary.  A predecessor that is not a key of that dictionary makes
    [add] raise [KeyError] inside the loops, and the partly filled dictionary
    stays in [self]. *)
Definition get_successors (vertex_id : K) : M DAG (gset K) :=
  λ self,
    if decide (vertex_successors self = ∅) then
      let init : gmap K (gset K) := (λ _, ∅) <$> vertex_predecessors self in
      match fill_successors (dict_order (vertex_predecessors self)) init with
      | (inl e, succ) => (inl e, set_vertex_successors succ self)
      | (inr _, succ) =>
          (inr (default ∅ (succ !! vertex_id)), set_vertex_successors succ self)
      end
    else (inr (default ∅ (vertex_successors self !! vertex_id)), self).

Definition add_tag (vertex_id : K) (data : option T) : M DAG unit :=
  modify (set_tags (λ t, <[vertex_id := data]> t)).

Definition get_tag (vertex_id : K) : M DAG (option T) :=
  λ self, (inr (mjoin (tags self !! vertex_id)), self).

(** ** The topological iterator *)

Inductive vertex_state : Type := NOT_VISITED | BUSY | VISITED.

#[global] Instance vertex_state_eq_dec : EqDecision vertex_state.
Proof. solve_decision. Defined.

(** The attributes of a [DAGIterator] other than the reference [self.dag]:
    the graph the iterator walks is the second component of the state
    [DAGIterator * DAG] its methods run on. *)
Record DAGIterator : Type := mkDAGIterator {
  non_visited : gset K;
  states : gmap K vertex_state;
  enable_busy_state : bool;
  pred_number : gmap K Z
}.

Definition DAGIterator_init (dag : DAG) (enable_busy_state : bool) : DAGIterator :=
  {| non_visited := dom (vertex_data dag);
     states := (λ _, NOT_VISITED) <$> vertex_data dag;
     enable_busy_state := enable_busy_state;
     pred_number := (λ v : gset K, Z.of_nat (size v)) <$> vertex_predecessors dag |}.

Definition set_non_visited (f : gset K → gset K) (it : DAGIterator) : DAGIterator :=
  {| non_visited := f (non_visited it); states := states it;
     enable_busy_state := enable_busy_state it; pred_number := pred_number it |}.
Definition set_states (f : gmap K vertex_state → gmap K vertex_state)
    (it : DAGIterator) : DAGIterator :=
  {| non_visited := non_visited it; states := f (states it);
     enable_busy_state := enable_busy_state it; pred_number := pred_number it |}.
Definition set_pred_number (f : gmap K Z → gmap K Z) (it : DAGIterator) : DAGIterator :=
  {| non_visited := non_visited it; states := states it;
     enable_busy_state := enable_busy_state it; pred_number := f (pred_number it) |}.

(** Run a method of [self.dag] from inside the iterator. *)
Definition on_dag {A} (m : M DAG A) : M (DAGIterator * DAG) A :=
  λ w, match m w.2 with (r, g') => (r, (w.1, g')) end.
(** Assign attributes of the iterator. *)
Definition on_iter (f : DAGIterator → DAGIterator) : M (DAGIterator * DAG) unit :=
  λ w, (inr tt, (f w.1, w.2)).

(** [next((k for k in self.non_visited if self.pred_number[k] == 0), None)],
    the set being enumerated as [l]. *)
Fixpoint find_ready (l : list K) (pn : gmap K Z) : exn + option K :=
  match l with
  | [] => inr None
  | k :: l' =>
      match pn !! k with
      | None => inl KeyError
      | Some n => if decide (n = 0%Z) then inr (Some k) else find_ready l' pn
      end
  end.

(** [self.pred_number[k] -= 1] *)
Definition decr_pred_number (k : K) : M (DAGIterator * DAG) unit :=
  λ w, match pred_number w.1 !! k with
       | None => (inl KeyError, w)
       | Some n => (inr tt, (set_pred_number (λ pn, <[k := (n - 1)%Z]> pn) w.1, w.2))
       end.

(** [for k in self.dag.get_successors(v): self.pred_number[k] -= 1] *)
Definition update_pred_numbers (v : K) : M (DAGIterator * DAG) unit :=
  let! succ := on_dag (get_successors v) in
  for_each (set_order succ) decr_pred_number.

(** The result [(None, None, None)] is [None]. *)
Definition next_element : M (DAGIterator * DAG) (option (K * option D * gset K)) :=
  let! w := get_state in
  if decide (non_visited w.1 = ∅) then raise StopIteration else
  match find_ready (set_order (non_visited w.1)) (pred_number w.1) with
  | inl e => raise e
  | inr None =>
      if enable_busy_state w.1 then ret None
      else raise (DAGError msg_cycle_detected)
  | inr (Some result) =>
      (if enable_busy_state w.1 then
         on_iter (set_states (λ st, <[result := BUSY]> st))
       else
         on_iter (set_states (λ st, <[result := VISITED]> st)) ;;;
         update_pred_numbers result) ;;;
      on_iter (set_non_visited (λ nv, nv ∖ {[result]})) ;;;
      let! w' := get_state in
      match vertex_data w'.2 !! result with
      | None => raise KeyError
      | Some data =>
          let! preds := on_dag (get_predecessors result) in
          ret (Some (result, data, preds))
      end
  end.

(** [self.next_element()[0:2]] *)
Definition next : M (DAGIterator * DAG) (option (K * option D)) :=
  let! r := next_element in
  ret (match r with Some (k, d, _) => Some (k, d) | None => None end).

Definition leave (vertex_id : K) : M (DAGIterator * DAG) unit :=
  let! w := get_state in
  match states w.1 !! vertex_id with
  | None => raise KeyError
  | Some st =>
      if decide (st = BUSY) then
        on_iter (set_states (λ st, <[vertex_id := VISITED]> st)) ;;;
        update_pred_numbers vertex_id
      else raise AssertionError
  end.

(** [for x in iterator: pass], returning the items the loop went through.
    The loop ends when [next] raises [StopIteration]. *)
Fixpoint iterate (fuel : nat) : M (DAGIterator * DAG) (list (option (K * option D))) :=
  match fuel with
  | 0 => raise OutOfFuel
  | S fuel' =>
      λ w, match next w with
           | (inl StopIteration, w') => (inr [], w')
           | (inl e, w') => (inl e, w')
           | (inr x, w') =>
               match iterate fuel' w' with
               | (inr xs, w'') => (inr (x :: xs), w'')
               | r => r
               end
           end
  end.

(** ** Validity check and closure *)

(** [[k for k in preds if k not in self.vertex_data]] *)
Definition invalid_nodes (self : DAG) (preds : gset K) : list K :=
  filter (λ k, k ∉ dom (vertex_data self)) (set_order preds).

Definition check : M DAG unit :=
  λ self,
    match has_cycle self with
    | Some false => (inr tt, self)
    | Some true => (inl (DAGError msg_contains_cycle), self)
    | None =>
        if existsb (λ np : K * gset K, bool_decide (0 < length (invalid_nodes self np.2)))
             (dict_order (vertex_predecessors self))
        then (inl (DAGError msg_invalid_nodes), set_has_cycle (Some true) self)
        else
          let it := DAGIterator_init self false in
          match iterate (S (size (non_visited it))) (it, self) with
          | (inl (DAGError m), w) => (inl (DAGError m), set_has_cycle (Some true) w.2)
          | (inl e, w) => (inl e, w.2)
          | (inr _, w) => (inr tt, set_has_cycle (Some false) w.2)
          end
    end.

(** Every identifier that occurs in the predecessor dictionary. *)
Definition all_ids (self : DAG) : gset K :=
  dom (vertex_predecessors self)
  ∪ map_fold (λ _ v acc, v ∪ acc) ∅ (vertex_predecessors self).

(** One run of [for n in closure - visited: ...] of [get_closure]. *)
Fixpoint closure_pass (l : list K) (visited closure : gset K)
    : M DAG (gset K * gset K) :=
  match l with
  | [] => ret (visited, closure)
  | n :: l' =>
      let! ps := get_predecessors n in
      closure_pass l' (visited ∪ {[n]}) (closure ∪ ps)
  end.

(** The [while True] loop of [get_closure]. *)
Fixpoint closure_loop (fuel : nat) (visited closure : gset K) (closure_len : nat)
    : M DAG (gset K) :=
  match fuel with
  | 0 => raise OutOfFuel
  | S fuel' =>
      let! vc := closure_pass (set_order (closure ∖ visited)) visited closure in
      if decide (size vc.2 = closure_len) then ret vc.2
      else closure_loop fuel' vc.1 vc.2 (size vc.2)
  end.

Definition get_closure (vertex_id : K) : M DAG (gset K) :=
  check ;;;
  let! closure := get_predecessors vertex_id in
  let! self := get_state in
  closure_loop (S (size (all_ids self))) ∅ closure (size closure).

(** ** Insertion and update *)

Definition update_vertex (vertex_id : K) (data : option D)
    (predecessors : option (list K)) (enable_checks : bool) : M DAG unit :=
  let predecessors : gset K :=
    match predecessors with None => ∅ | Some l => list_to_set l end in
  let! self := get_state in
  (if enable_checks then
     let non_existing_predecessors :=
       filter (λ k, k ∉ dom (vertex_data self)) (set_order predecessors) in
     match non_existing_predecessors with
     | [] => ret tt
     | _ :: _ => raise (DAGError msg_non_existing_vertices)
     end
   else ret tt) ;;;
  (if decide (vertex_id ∈ dom (vertex_data self)) then
     let! previous_predecessors := get_predecessors vertex_id in
     set_predecessors vertex_id (previous_predecessors ∪ predecessors) ;;;
     (if enable_checks then
        try_except_DAGError (get_closure vertex_id ;;; ret tt)
          (set_predecessors vertex_id previous_predecessors ;;;
           raise (DAGError msg_cannot_update_vertex))
      else ret tt) ;;;
     match data with
     | Some _ => modify (set_vertex_data (λ vd, <[vertex_id := data]> vd))
     | None => ret tt
     end
   else
     set_predecessors vertex_id predecessors ;;;
     modify (set_vertex_data (λ vd, <[vertex_id := data]> vd))) ;;;
  if enable_checks then ret tt else modify (set_has_cycle None).

Definition add_vertex (vertex_id : K) (data : option D)
    (predecessors : option (list K)) : M DAG unit :=
  let! self := get_state in
  if decide (vertex_id ∈ dom (vertex_data self)) then
    raise (DAGError msg_vertex_already_exist)
  else update_vertex vertex_id data predecessors true.

(** ** Tag context *)

Section get_context.
Context (get_next : K → M DAG (gset K)) (max_element : option Z) (distance : Z).

(** One run of [for n in closure - visited: ...] of [get_context]: either
    the function returns from inside the loop ([inl tags]) or the loop ends
    with the new values of [visited], [tags] and [closure]. *)
Fixpoint context_pass (l : list K) (visited : gset K) (tags : list (Z * K * T))
    (closure : gset K)
    : M DAG (list (Z * K * T) + gset K * list (Z * K * T) * gset K) :=
  match l with
  | [] => ret (inr (visited, tags, closure))
  | n :: l' =>
      let! n_tag := get_tag n in
      match n_tag with
      | Some t =>
          let tags' := tags ++ [(distance, n, t)] in
          if decide (max_element = Some (Z.of_nat (length tags'))) then ret (inl tags')
          else context_pass l' (visited ∪ {[n]}) tags' closure
      | None =>
          let! next := get_next n in
          context_pass l' (visited ∪ {[n]}) tags (closure ∪ next)
      end
  end.
End get_context.

(** The [while True] loop of [get_context]. *)
Fixpoint context_loop (fuel : nat) (get_next : K → M DAG (gset K))
    (max_distance max_element : option Z) (distance : Z) (visited : gset K)
    (tags : list (Z * K * T)) (closure : gset K) (closure_len : nat)
    : M DAG (list (Z * K * T)) :=
  match fuel with
  | 0 => raise OutOfFuel
  | S fuel' =>
      let distance := (distance + 1)%Z in
      if match max_distance with
         | Some md => bool_decide (md < distance)%Z
         | None => false
         end
      then ret tags
      else
        let! r := context_pass get_next max_element distance
                    (set_order (closure ∖ visited)) visited tags closure in
        match r with
        | inl tags' => ret tags'
        | inr (visited', tags', closure') =>
            if decide (size closure' = closure_len) then ret tags'
            else context_loop fuel' get_next max_distance max_element distance
                   visited' tags' closure' (size closure')
        end
  end.

Definition get_context (vertex_id : K) (max_distance max_element : option Z)
    (reverse_order : bool) : M DAG (list (Z * K * T)) :=
  check ;;;
  let get_next vid :=
    if reverse_order then get_successors vid else get_predecessors vid in
  let! node_tag := get_tag vertex_id in
  match node_tag with
  | Some t => ret [(0%Z, vertex_id, t)]
  | None =>
      let! closure := get_next vertex_id in
      let! self := get_state in
      context_loop (S (size (all_ids self))) get_next max_distance max_element
        0 ∅ [] closure (size closure)
  end.

(** ** Graph algebra *)

(** The loop of [reverse_graph], run on [result]; [self] is only read. *)
Definition reverse_fill (self : DAG) : M DAG unit :=
  for_each (dict_order (vertex_predecessors self)) (λ np,
    match vertex_data self !! np.1 with
    | None => raise KeyError
    | Some data =>
        update_vertex np.1 data None false ;;;
        for_each (set_order np.2) (λ p, update_vertex p None (Some [np.1]) false)
    end).

(** [reverse_graph] runs on [self] (whose validity flag it sets) and
    returns the new graph.  [result.tags = self.tags] shares one dictionary
    between the two graphs; the model copies its value. *)
Definition reverse_graph : M DAG DAG :=
  λ self,
    let result := set_tags (λ _, tags self) DAG_init in
    match reverse_fill self result with
    | (inl e, _) => (inl e, self)
    | (inr _, result) =>
        match check result with
        | (inl (DAGError m), _) => (inl (DAGError m), set_has_cycle (Some true) self)
        | (inl e, _) => (inl e, self)
        | (inr _, result) => (inr result, set_has_cycle (Some false) self)
        end
    end.

(** The body of [__or__], run on [result]; [self] and [other] are only
    read. *)
Definition merge_fill (self other : DAG) : M DAG unit :=
  for_each (dict_order (vertex_data self)).*1 (λ nid, add_vertex nid None None) ;;;
  for_each (dict_order (vertex_data other)).*1 (λ nid, update_vertex nid None None true) ;;;
  for_each (dict_order (vertex_data self)) (λ nd,
    update_vertex nd.1 nd.2 (Some (set_order (preds_of self nd.1))) true) ;;;
  for_each (dict_order (vertex_data other)) (λ nd,
    update_vertex nd.1 nd.2 (Some (set_order (preds_of other nd.1))) true) ;;;
  check.

(** [self | other] *)
Definition __or__ (self other : DAG) : exn + DAG :=
  match merge_fill self other DAG_init with
  | (inl e, _) => inl e
  | (inr _, result) => inr result
  end.

(** ** Container protocol *)

(** [DAG.__iter__]: a fresh iterator in strict mode.  ([DAGIterator.__iter__]
    returns the iterator itself.) *)
Definition __iter__ (self : DAG) : DAGIterator := DAGIterator_init self false.

Definition __contains__ (vertex_id : K) : M DAG bool :=
  λ self, (inr (bool_decide (vertex_id ∈ dom (vertex_data self))), self).

Definition __getitem__ (vertex_id : K) : M DAG (option D) :=
  λ self, match vertex_data self !! vertex_id with
          | None => (inl KeyError, self)
          | Some data => (inr data, self)
          end.

Definition __len__ : M DAG nat :=
  λ self, (inr (size (vertex_data self)), self).

End dag.

Arguments DAG K {_ _} D T.
Arguments DAGIterator K {_ _}.

(** ** Rendering

    [as_dot] and [__str__] format vertex identifiers with ['%s'] and join
    them as strings: the identifiers are strings here. *)

Section rendering.
Context {D T : Type} `{!IterOrder string}.

Definition dquote : string := String (Ascii.ascii_of_nat 34) EmptyString.
Definition newline : string := String (Ascii.ascii_of_nat 10) EmptyString.

(** [sep.join(l)] *)
Fixpoint join (sep : string) (l : list string) : string :=
  match l with
  | [] => EmptyString
  | [x] => x
  | x :: l' => x +:+ sep +:+ join sep l'
  end.

(** The list [result] of [as_dot] before it is joined. *)
Definition as_dot_lines (self : DAG string D T) : list string :=
  ["digraph G {"; "rankdir=" +:+ dquote +:+ "LR" +:+ dquote +:+ ";"]
  ++ ((λ vertex, dquote +:+ vertex +:+ dquote) <$> (dict_order (vertex_data self)).*1)
  ++ (np ← dict_order (vertex_predecessors self);
      (λ predecessor, dquote +:+ np.1 +:+ dquote +:+ " -> "
                      +:+ dquote +:+ predecessor +:+ dquote) <$> set_order np.2)
  ++ ["}"].

Definition as_dot : M (DAG string D T) string :=
  check ;;;
  let! self := get_state in
  ret (join newline (as_dot_lines self)).

(** The list [result] of [__str__] before it is joined. *)
Definition __str__lines (self : DAG string D T) : list string :=
  (λ np : string * gset string,
     if decide (np.2 = ∅) then np.1 +:+ " -> (none)"
     else np.1 +:+ " -> " +:+ join ", " (set_order np.2))
  <$> dict_order (vertex_predecessors self).

Definition __str__ : M (DAG string D T) string :=
  check ;;;
  let! self := get_state in
  ret (join newline (__str__lines self)).

End rendering.

(** * Properties *)

(** ** Enumeration orders *)

Section order.
Context {K : Type} `{Countable K} `{!IterOrder K}.

Lemma elem_of_set_order (X : gset K) x : x ∈ set_order X ↔ x ∈ X.
Proof. by rewrite (set_order_perm X), elem_of_elements. Qed.

Lemma NoDup_set_order (X : gset K) : NoDup (set_order X).
Proof. rewrite (set_order_perm X). apply NoDup_elements. Qed.

Lemma set_order_empty : set_order (∅ : gset K) = [].
Proof.
  apply Permutation_nil_r. rewrite (set_order_perm ∅). by rewrite elements_empty.
Qed.

Lemma set_order_singleton (x : K) : set_order ({[x]} : gset K) = [x].
Proof.
  apply Permutation_singleton_r. rewrite (set_order_perm {[x]}).
  by rewrite elements_singleton.
Qed.

(** There is one way to enumerate a set of at most one element. *)
Lemma set_order_small (X : gset K) : size X ≤ 1 → set_order X = elements X.
Proof.
  intros Hsize. pose proof (set_order_perm X) as Hperm.
  unfold size, set_size in Hsize. simpl in Hsize.
  destruct (elements X) as [|x [|y l]]; simpl in Hsize; [| |lia].
  - by apply Permutation_nil_r.
  - by apply Permutation_singleton_r.
Qed.

Lemma list_to_set_set_order (X : gset K) : list_to_set (set_order X) = X.
Proof. apply set_eq. intros x. by rewrite elem_of_list_to_set, elem_of_set_order. Qed.

Lemma length_set_order (X : gset K) : length (set_order X) = size X.
Proof. by rewrite (set_order_perm X). Qed.

Lemma gset_size_zero (X : gset K) : size X = 0 ↔ X = ∅.
Proof. rewrite size_empty_iff. by unfold_leibniz. Qed.

Lemma elem_of_dict_order {V} (m : gmap K V) k v :
  (k, v) ∈ dict_order m ↔ m !! k = Some v.
Proof. by rewrite (dict_order_perm V m), elem_of_map_to_list. Qed.

Lemma NoDup_dict_order_keys {V} (m : gmap K V) : NoDup (dict_order m).*1.
Proof. rewrite (dict_order_perm V m). apply NoDup_fst_map_to_list. Qed.

Lemma elem_of_dict_order_keys {V} (m : gmap K V) k :
  k ∈ (dict_order m).*1 ↔ k ∈ dom m.
Proof.
  rewrite list_elem_of_fmap, elem_of_dom. split.
  - intros [[k' v] [-> Hin]]. apply elem_of_dict_order in Hin. by exists v.
  - intros [v Hv]. exists (k, v). split; [done|]. by apply elem_of_dict_order.
Qed.

Lemma dict_order_empty {V} : dict_order (∅ : gmap K V) = [].
Proof.
  apply Permutation_nil_r. rewrite (dict_order_perm V ∅). by rewrite map_to_list_empty.
Qed.

End order.

(** ** Loops *)

Section loops.
Context {S A : Type}.

Lemma for_each_app (l1 l2 : list A) (body : A → M S unit) s :
  for_each (l1 ++ l2) body s =
  match for_each l1 body s with
  | (inl e, s') => (inl e, s')
  | (inr _, s') => for_each l2 body s'
  end.
Proof.
  revert s. induction l1 as [|x l1 IH]; intros s; simpl; [done|].
  unfold bind. destruct (body x s) as [[e|[]] s']; [done|]. apply IH.
Qed.

(** A loop whose body cannot fail while the invariant [I] holds runs to
    its end and keeps the invariant; [I] is indexed by the elements
    already processed. *)
Lemma for_each_invariant (I : list A → S → Prop) (l : list A) (body : A → M S unit) s :
  I [] s →
  (∀ done x todo s, l = done ++ x :: todo → I done s →
     ∃ s', body x s = (inr tt, s') ∧ I (done ++ [x]) s') →
  ∃ s', for_each l body s = (inr tt, s') ∧ I l s'.
Proof.
  intros H0 Hstep.
  cut (∀ todo done s, l = done ++ todo → I done s →
         ∃ s', for_each todo body s = (inr tt, s') ∧ I l s').
  { intros Hcut. by apply (Hcut l []). }
  clear s H0. intros todo. induction todo as [|x todo IH]; intros done s Hl HI.
  - rewrite app_nil_r in Hl. subst. by exists s.
  - destruct (Hstep done x todo s Hl HI) as (s' & Hb & HI').
    simpl. unfold bind. rewrite Hb.
    apply (IH (done ++ [x])); [|done]. by rewrite <-app_assoc.
Qed.


(** An exception that ends a loop comes from its body. *)
Lemma for_each_error (P : exn → Prop) (l : list A) (body : A → M S unit) s e s' :
  (∀ x s e s', body x s = (inl e, s') → P e) →
  for_each l body s = (inl e, s') → P e.
Proof.
  intros Hbody. revert s. induction l as [|x l IH]; intros s; simpl; [done|].
  unfold bind. destruct (body x s) as [[e0|[]] s0] eqn:Hx.
  - intros [= <- <-]. by eapply Hbody.
  - apply IH.
Qed.

End loops.

(** ** Graphs *)

Section graph.
Context {K : Type} `{Countable K} {D T : Type}.
Implicit Types (g : DAG K D T) (X done : gset K).

(** [edge g v p]: [p] is a stored predecessor of [v]. *)
Definition edge g (v p : K) : Prop := p ∈ preds_of g v.

#[global] Instance edge_dec g v p : Decision (edge g v p).
Proof. unfold edge. apply _. Defined.

Definition acyclic g : Prop := ∀ v, ¬ tc (edge g) v v.
Definition cyclic g : Prop := ∃ v, tc (edge g) v v.

(** The two dictionaries indexed by vertex have the same keys. *)
Definition keys_ok g : Prop := dom (vertex_predecessors g) = dom (vertex_data g).

(** Every referenced predecessor is a vertex of the graph. *)
Definition closed g : Prop := ∀ v p, edge g v p → p ∈ dom (vertex_data g).

(** [succ] is the inverse of the predecessor dictionary [preds]: it has the
    keys of [preds], every predecessor that [preds] mentions is one of
    them, and [succ[el]] is the set of the [k] with [el] in [preds[k]]. *)
Definition inverse_of (preds succ : gmap K (gset K)) : Prop :=
  dom succ = dom preds ∧
  (∀ k el, el ∈ default ∅ (preds !! k) → el ∈ dom preds) ∧
  ∀ el s, succ !! el = Some s → ∀ k, k ∈ s ↔ el ∈ default ∅ (preds !! k).

(** The successor dictionary is either cleared or the inverse of the
    predecessor dictionary. *)
Definition cache_ok g : Prop :=
  vertex_successors g = ∅ ∨ inverse_of (vertex_predecessors g) (vertex_successors g).

(** The validity flag, when set, tells the truth: a graph cached as valid
    has no cycle, and a graph cached as invalid has a dangling predecessor
    or a cycle. *)
Definition flag_ok g : Prop :=
  match has_cycle g with
  | Some false => acyclic g
  | Some true => closed g → cyclic g
  | None => True
  end.

(** [g] and [g'] differ at most in the successor cache. *)
Definition same_graph g g' : Prop :=
  vertex_data g' = vertex_data g ∧ tags g' = tags g ∧
  vertex_predecessors g' = vertex_predecessors g ∧ has_cycle g' = has_cycle g.

(** [g] and [g'] store the same vertices, predecessors and tags. *)
Definition same_store g g' : Prop :=
  vertex_data g' = vertex_data g ∧ tags g' = tags g ∧
  vertex_predecessors g' = vertex_predecessors g.

(** A valid graph: consistent dictionaries and caches, no dangling
    predecessor, no cycle. *)
Record valid g : Prop := {
  valid_keys : keys_ok g;
  valid_cache : cache_ok g;
  valid_flag : flag_ok g;
  valid_closed : closed g;
  valid_acyclic : acyclic g
}.

Lemma acyclic_not_cyclic g : acyclic g → ¬ cyclic g.
Proof. intros Ha [v Hv]. by apply (Ha v). Qed.

Lemma edge_in_keys g v p : edge g v p → v ∈ dom (vertex_predecessors g).
Proof.
  unfold edge, preds_of. rewrite elem_of_dom.
  destruct (vertex_predecessors g !! v); [eauto | set_solver].
Qed.

Lemma edge_lookup g v p :
  edge g v p ↔ ∃ ps, vertex_predecessors g !! v = Some ps ∧ p ∈ ps.
Proof.
  unfold edge, preds_of. destruct (vertex_predecessors g !! v) as [ps|]; simpl.
  - split; [eauto | by intros (? & [= <-] & ?)].
  - split; [set_solver | by intros (? & [=] & ?)].
Qed.

#[global] Instance closed_dec g : Decision (closed g).
Proof.
  refine (cast_if (decide (map_Forall (λ _ ps, ps ⊆ dom (vertex_data g))
                             (vertex_predecessors g)))).
  - intros v p (ps & Hps & Hp)%edge_lookup. by apply (m v ps Hps).
  - intros Hcl. apply n. intros v ps Hps p Hp. apply (Hcl v), edge_lookup. eauto.
Defined.

#[global] Instance keys_ok_dec g : Decision (keys_ok g).
Proof. unfold keys_ok. apply _. Defined.

Lemma same_graph_refl g : same_graph g g.
Proof. by repeat split. Qed.

Lemma same_graph_trans g1 g2 g3 : same_graph g1 g2 → same_graph g2 g3 → same_graph g1 g3.
Proof. intros (?&?&?&?) (?&?&?&?). repeat split; congruence. Qed.

Lemma same_graph_preds_of g g' v : same_graph g g' → preds_of g' v = preds_of g v.
Proof. intros (_&_&Hp&_). unfold preds_of. by rewrite Hp. Qed.

Lemma same_graph_edge g g' v p : same_graph g g' → edge g' v p ↔ edge g v p.
Proof. intros Hs. unfold edge. by rewrite (same_graph_preds_of g g'). Qed.

Lemma same_graph_keys_ok g g' : same_graph g g' → keys_ok g → keys_ok g'.
Proof. intros (Hvd & _ & Hpr & _). unfold keys_ok. by rewrite Hvd, Hpr. Qed.

Lemma same_graph_closed g g' : same_graph g g' → closed g → closed g'.
Proof.
  intros Hs Hcl v p He. pose proof Hs as (Hvd & _). rewrite Hvd.
  apply (Hcl v). by apply (same_graph_edge g g' v p Hs).
Qed.

Lemma same_graph_tc g g' v w : same_graph g g' → tc (edge g') v w → tc (edge g) v w.
Proof.
  intros Hs Htc. induction Htc as [x y He|x y z He _ IH].
  - apply tc_once. by apply (same_graph_edge g g' x y Hs).
  - eapply tc_l; [|exact IH]. by apply (same_graph_edge g g' x y Hs).
Qed.

Lemma same_graph_cyclic g g' : same_graph g g' → cyclic g' → cyclic g.
Proof. intros Hs [v Hv]. exists v. by eapply same_graph_tc. Qed.

Lemma same_graph_sym g g' : same_graph g g' → same_graph g' g.
Proof. intros (?&?&?&?). by repeat split. Qed.

Lemma same_graph_acyclic g g' : same_graph g g' → acyclic g → acyclic g'.
Proof. intros Hs Ha v Hv. apply (Ha v). by eapply same_graph_tc. Qed.

Lemma same_graph_store g g' : same_graph g g' → same_store g g'.
Proof. intros (?&?&?&?). by repeat split. Qed.

Lemma same_store_refl g : same_store g g.
Proof. by repeat split. Qed.

Lemma same_store_sym g g' : same_store g g' → same_store g' g.
Proof. intros (?&?&?). by repeat split. Qed.

Lemma same_store_trans g1 g2 g3 : same_store g1 g2 → same_store g2 g3 → same_store g1 g3.
Proof. intros (?&?&?) (?&?&?). repeat split; congruence. Qed.

Lemma same_store_set_has_cycle g g' c : same_store g g' → same_store g (set_has_cycle c g').
Proof. intros (?&?&?). by repeat split. Qed.

Lemma same_store_preds_of g g' v : same_store g g' → preds_of g' v = preds_of g v.
Proof. intros (_&_&Hp). unfold preds_of. by rewrite Hp. Qed.

Lemma same_store_edge g g' v p : same_store g g' → edge g' v p ↔ edge g v p.
Proof. intros Hs. unfold edge. by rewrite (same_store_preds_of g g'). Qed.

Lemma same_store_tc g g' v w : same_store g g' → tc (edge g') v w ↔ tc (edge g) v w.
Proof.
  intros Hs. split; intros Htc; induction Htc as [x y He|x y z He _ IH].
  - apply tc_once. by apply (same_store_edge g g' x y Hs).
  - eapply tc_l; [|exact IH]. by apply (same_store_edge g g' x y Hs).
  - apply tc_once. by apply (same_store_edge g g' x y Hs).
  - eapply tc_l; [|exact IH]. by apply (same_store_edge g g' x y Hs).
Qed.

Lemma same_store_cyclic g g' : same_store g g' → cyclic g' ↔ cyclic g.
Proof. intros Hs. unfold cyclic. by setoid_rewrite (same_store_tc g g' _ _ Hs). Qed.

Lemma same_store_acyclic g g' : same_store g g' → acyclic g' ↔ acyclic g.
Proof. intros Hs. unfold acyclic. by setoid_rewrite (same_store_tc g g' _ _ Hs). Qed.

Lemma same_store_closed g g' : same_store g g' → closed g' ↔ closed g.
Proof.
  intros Hs. unfold closed. pose proof Hs as (-> & _).
  by setoid_rewrite (same_store_edge g g' _ _ Hs).
Qed.

Lemma same_store_keys_ok g g' : same_store g g' → keys_ok g' ↔ keys_ok g.
Proof. intros (Hvd & _ & Hpr). unfold keys_ok. by rewrite Hvd, Hpr. Qed.

Lemma tc_subrel {A} (R R' : relation A) x y :
  (∀ a b, R a b → R' a b) → tc R x y → tc R' x y.
Proof.
  intros Hsub Htc. induction Htc as [a b HR|a b c HR _ IH].
  - apply tc_once. by apply Hsub.
  - eapply tc_l; [by apply Hsub|done].
Qed.

Lemma tc_reverse {A} (R R' : relation A) x y :
  (∀ a b, R a b → R' b a) → tc R x y → tc R' y x.
Proof.
  intros Hrev Htc. induction Htc as [a b HR|a b c HR _ IH].
  - apply tc_once. by apply Hrev.
  - eapply tc_r; [done|by apply Hrev].
Qed.

(** *** Walks and the pigeonhole argument *)

(** [is_walk g X x l]: [l] lists the vertices met when following
    predecessor edges from [x], all of them inside [X]. *)
Fixpoint is_walk g (X : gset K) (x : K) (l : list K) : Prop :=
  match l with
  | [] => True
  | y :: l' => edge g x y ∧ y ∈ X ∧ is_walk g X y l'
  end.

Lemma is_walk_tc g X x l y : is_walk g X x l → y ∈ l → tc (edge g) x y.
Proof.
  revert x. induction l as [|z l IH]; intros x Hw Hy; [by apply elem_of_nil in Hy|].
  destruct Hw as (He & _ & Hw). apply elem_of_cons in Hy as [->|Hy].
  - by apply tc_once.
  - eapply tc_l; [done|]. by apply IH.
Qed.

Lemma is_walk_exists g X n x :
  (∀ k, k ∈ X → ∃ p, edge g k p ∧ p ∈ X) → x ∈ X →
  ∃ l, length l = n ∧ is_walk g X x l.
Proof.
  intros Hstuck. revert x. induction n as [|n IH]; intros x Hx.
  - by exists [].
  - destruct (Hstuck x Hx) as (p & He & Hp).
    destruct (IH p Hp) as (l & Hlen & Hw).
    exists (p :: l). simpl. by rewrite Hlen.
Qed.

Lemma is_walk_elem g X x l y : is_walk g X x l → y ∈ l → y ∈ X.
Proof.
  revert x. induction l as [|z l IH]; intros x Hw Hy; [by apply elem_of_nil in Hy|].
  destruct Hw as (_ & Hz & Hw). apply elem_of_cons in Hy as [->|Hy]; eauto.
Qed.

Lemma is_walk_repeat g X x l : is_walk g X x l → ¬ NoDup (x :: l) → cyclic g.
Proof.
  revert x. induction l as [|y l IH]; intros x Hw Hnd.
  - destruct Hnd. apply NoDup_singleton.
  - destruct (decide (x ∈ y :: l)) as [Hin|Hnin].
    + exists x. by eapply is_walk_tc.
    + destruct Hw as (_ & _ & Hw). apply (IH y Hw).
      intros Hnd'. apply Hnd. by apply NoDup_cons.
Qed.

(** A non-empty set of vertices each of which has a predecessor in the set
    contains a cycle. *)
Lemma stuck_cyclic g (X : gset K) :
  X ≠ ∅ → (∀ k, k ∈ X → ∃ p, edge g k p ∧ p ∈ X) → cyclic g.
Proof.
  intros Hne Hstuck.
  destruct (set_choose_L X Hne) as [x Hx].
  destruct (is_walk_exists g X (size X) x Hstuck Hx) as (l & Hlen & Hw).
  apply (is_walk_repeat g X x l Hw). intros Hnd.
  assert (x :: l ⊆+ elements X) as Hsub.
  { apply NoDup_submseteq; [done|]. intros y Hy. apply elem_of_elements.
    apply elem_of_cons in Hy as [->|Hy]; [done|]. by eapply is_walk_elem. }
  apply submseteq_length in Hsub. simpl in Hsub.
  rewrite Hlen in Hsub. unfold size, set_size in Hsub. simpl in Hsub. lia.
Qed.

(** *** Topological orders *)

(** [topo_from g done l]: every vertex of [l] has all its predecessors in
    [done] or earlier in [l]. *)
Fixpoint topo_from g (done : gset K) (l : list K) : Prop :=
  match l with
  | [] => True
  | v :: l' => preds_of g v ⊆ done ∧ topo_from g (done ∪ {[v]}) l'
  end.

Lemma topo_from_split g done l l1 v l2 :
  topo_from g done l → l = l1 ++ v :: l2 →
  preds_of g v ⊆ done ∪ list_to_set l1.
Proof.
  revert done l1. induction l as [|x l IH]; intros done l1 Ht Hl.
  - by destruct l1.
  - destruct Ht as [Hx Ht]. destruct l1 as [|y l1]; simplify_eq/=.
    + set_solver.
    + specialize (IH _ _ Ht eq_refl). set_solver.
Qed.

(** A set of vertices closed under predecessors and free of cycles. *)
Definition downward_acyclic g (X : gset K) : Prop :=
  (∀ v p, v ∈ X → edge g v p → p ∈ X) ∧ (∀ v, v ∈ X → ¬ tc (edge g) v v).

Lemma downward_tc g X v w :
  (∀ v p, v ∈ X → edge g v p → p ∈ X) → v ∈ X → tc (edge g) v w → w ∈ X.
Proof. intros Hcl Hv Htc. induction Htc; eauto. Qed.

Lemma downward_acyclic_extend g X v :
  downward_acyclic g X → preds_of g v ⊆ X → downward_acyclic g (X ∪ {[v]}).
Proof.
  intros [Hcl Hac] Hv.
  assert (tc (edge g) v v → v ∈ X) as Hin.
  { intros Htc. inversion Htc as [? ? He|? p ? He Hp]; subst.
    - by apply Hv.
    - apply (downward_tc g X p v Hcl); [by apply Hv | done]. }
  split.
  - intros u p Hu He. apply elem_of_union in Hu as [Hu|Hu].
    + apply elem_of_union_l. eauto.
    + apply elem_of_singleton in Hu as ->. apply elem_of_union_l. by apply Hv.
  - intros u Hu Htc. apply elem_of_union in Hu as [Hu|Hu].
    + by apply (Hac u).
    + apply elem_of_singleton in Hu as ->. apply (Hac v); auto.
Qed.

Lemma topo_from_downward_acyclic g done l :
  downward_acyclic g done → topo_from g done l →
  downward_acyclic g (done ∪ list_to_set l).
Proof.
  revert done. induction l as [|v l IH]; intros done Hd Ht; simpl.
  - by rewrite (right_id_L ∅ (∪)).
  - destruct Ht as [Hv Ht].
    replace (done ∪ ({[v]} ∪ list_to_set l)) with ((done ∪ {[v]}) ∪ list_to_set l)
      by set_solver.
    apply IH; [|done]. by apply downward_acyclic_extend.
Qed.

(** A graph all of whose keys can be listed in a topological order has no
    cycle. *)
Lemma topo_order_acyclic g l :
  topo_from g ∅ l → dom (vertex_predecessors g) ⊆ list_to_set l → acyclic g.
Proof.
  intros Ht Hdom v Htc.
  assert (downward_acyclic g (∅ ∪ list_to_set l)) as [_ Hac].
  { apply topo_from_downward_acyclic; [|done]. split; set_solver. }
  apply (Hac v); [|done]. apply elem_of_union_r, Hdom.
  inversion Htc; subst; by eapply edge_in_keys.
Qed.

End graph.

(** ** The successor cache *)

Section successors.
Context {K : Type} `{Countable K} {D T : Type} `{!IterOrder K}.
Implicit Types (g : DAG K D T) (X : gset K).

Lemma fill_inner (k : K) (l : list K) (succ0 : gmap K (gset K)) :
  (∀ el, el ∈ l → el ∈ dom succ0) →
  ∃ succ, for_each l (add_successor k) succ0 = (inr tt, succ) ∧
    dom succ = dom succ0 ∧
    ∀ el s0, succ0 !! el = Some s0 →
      ∃ s, succ !! el = Some s ∧ ∀ k', k' ∈ s ↔ k' ∈ s0 ∨ (k' = k ∧ el ∈ l).
Proof.
  revert succ0. induction l as [|el0 l IH]; intros succ0 Hdom.
  - exists succ0. split; [done|]. split; [done|]. intros el s0 Hel.
    exists s0. split; [done|]. intros k'. rewrite elem_of_nil. naive_solver.
  - assert (el0 ∈ dom succ0) as [s1 Hs1]%elem_of_dom by (apply Hdom; left).
    destruct (IH (<[el0 := s1 ∪ {[k]}]> succ0)) as (succ & Hrun & Hd & Hspec).
    { intros el Hel. rewrite dom_insert_L. apply elem_of_union_r, Hdom. by right. }
    exists succ. split; [|split].
    + simpl. unfold bind, add_successor at 1. by rewrite Hs1.
    + rewrite Hd, dom_insert_L. apply elem_of_dom_2 in Hs1. set_solver.
    + intros el s0 Hel. destruct (decide (el = el0)) as [->|Hne].
      * destruct (Hspec el0 (s1 ∪ {[k]})) as (s & Hs & Hiff); [by rewrite lookup_insert_eq|].
        exists s. split; [done|]. intros k'. rewrite Hiff.
        assert (s0 = s1) as -> by congruence.
        rewrite elem_of_union, elem_of_singleton, elem_of_cons. naive_solver.
      * destruct (Hspec el s0) as (s & Hs & Hiff); [by rewrite lookup_insert_ne|].
        exists s. split; [done|]. intros k'. rewrite Hiff, elem_of_cons. naive_solver.
Qed.

Lemma fill_successors_ok (items : list (K * gset K)) (succ0 : gmap K (gset K)) :
  (∀ k ps el, (k, ps) ∈ items → el ∈ ps → el ∈ dom succ0) →
  ∃ succ, fill_successors items succ0 = (inr tt, succ) ∧
    dom succ = dom succ0 ∧
    ∀ el s0, succ0 !! el = Some s0 →
      ∃ s, succ !! el = Some s ∧
        ∀ k, k ∈ s ↔ k ∈ s0 ∨ ∃ ps, (k, ps) ∈ items ∧ el ∈ ps.
Proof.
  unfold fill_successors.
  revert succ0. induction items as [|[k ps] items IH]; intros succ0 Hdom.
  - exists succ0. split; [done|]. split; [done|]. intros el s0 Hel.
    exists s0. split; [done|]. intros k. setoid_rewrite elem_of_nil. naive_solver.
  - destruct (fill_inner k (set_order ps) succ0) as (succ1 & Hrun1 & Hd1 & Hspec1).
    { intros el Hel. apply (Hdom k ps); [left|]. by apply elem_of_set_order. }
    destruct (IH succ1) as (succ & Hrun & Hd & Hspec).
    { intros k' ps' el Hin Hel. rewrite Hd1. apply (Hdom k' ps'); [by right|done]. }
    exists succ. split; [|split].
    + simpl. unfold bind at 1. simpl. by rewrite Hrun1.
    + congruence.
    + intros el s0 Hel.
      destruct (Hspec1 el s0 Hel) as (s1 & Hs1 & Hiff1).
      destruct (Hspec el s1 Hs1) as (s & Hs & Hiff).
      exists s. split; [done|]. intros k'. rewrite Hiff, Hiff1.
      setoid_rewrite elem_of_cons. setoid_rewrite elem_of_set_order.
      split.
      * intros [[?|[-> ?]]|(ps' & ? & ?)]; eauto 8.
      * intros [?|(ps' & [[= -> ->]|?] & ?)]; eauto 8.
Qed.

(** The loops stop on [KeyError] as soon as a predecessor is not a key. *)
Lemma fill_inner_fail (k : K) (l : list K) (succ0 : gmap K (gset K)) :
  (∃ el, el ∈ l ∧ el ∉ dom succ0) →
  ∃ succ, for_each l (add_successor k) succ0 = (inl KeyError, succ).
Proof.
  revert succ0. induction l as [|el0 l IH]; intros succ0 (el & Hel & Hn).
  - by apply elem_of_nil in Hel.
  - simpl. unfold bind, add_successor at 1.
    destruct (succ0 !! el0) as [s|] eqn:Hs; [|by eexists].
    apply elem_of_cons in Hel as [->|Hel]; [by apply elem_of_dom_2 in Hs|].
    apply IH. exists el. split; [done|]. rewrite dom_insert_L.
    apply elem_of_dom_2 in Hs. set_solver.
Qed.

Lemma fill_successors_fail (items : list (K * gset K)) (succ0 : gmap K (gset K)) :
  (∃ k ps el, (k, ps) ∈ items ∧ el ∈ ps ∧ el ∉ dom succ0) →
  ∃ succ, fill_successors items succ0 = (inl KeyError, succ).
Proof.
  unfold fill_successors.
  revert succ0. induction items as [|[k ps] items IH]; intros succ0 (k' & ps' & el & Hin & Hel & Hn).
  - by apply elem_of_nil in Hin.
  - simpl. unfold bind at 1. simpl.
    destruct (decide (Forall (λ el, el ∈ dom succ0) (set_order ps))) as [Hall|Hnall].
    + destruct (fill_inner k (set_order ps) succ0) as (succ1 & Hrun1 & Hd1 & _).
      { by apply Forall_forall. }
      rewrite Hrun1. apply IH.
      apply elem_of_cons in Hin as [[= -> ->]|Hin].
      * rewrite Forall_forall in Hall. destruct Hn. apply Hall. by apply elem_of_set_order.
      * exists k', ps', el. by rewrite Hd1.
    + apply not_Forall_Exists in Hnall; [|apply _].
      apply Exists_exists in Hnall.
      destruct (fill_inner_fail k (set_order ps) succ0 Hnall) as (succ & ->). by eexists.
Qed.

(** Every referenced predecessor is a key of the predecessor dictionary. *)
Definition keys_closed g : Prop :=
  ∀ v p, edge g v p → p ∈ dom (vertex_predecessors g).

Lemma closed_keys_closed g : keys_ok g → closed g → keys_closed g.
Proof. intros Hk Hc v p He. rewrite Hk. by eapply Hc. Qed.

#[global] Instance keys_closed_dec g : Decision (keys_closed g).
Proof.
  refine (cast_if (decide (map_Forall (λ _ ps, ps ⊆ dom (vertex_predecessors g))
                             (vertex_predecessors g)))).
  - intros v p (ps & Hps & Hp)%edge_lookup. by apply (m v ps Hps).
  - intros Hcl. apply n. intros v ps Hps p Hp. apply (Hcl v), edge_lookup. eauto.
Defined.

Lemma cache_ok_keys_closed g : cache_ok g → vertex_successors g ≠ ∅ → keys_closed g.
Proof. intros [?|(_ & Hcl & _)] Hne; [done|]. intros v p He. by apply (Hcl v). Qed.

Lemma inverse_of_lookup g succ v :
  inverse_of (vertex_predecessors g) succ →
  ∀ k, k ∈ default ∅ (succ !! v) ↔ edge g k v.
Proof.
  intros (Hdom & Hcl & Hinv) k. destruct (succ !! v) as [s|] eqn:Hs; simpl.
  - by rewrite (Hinv v s Hs k).
  - split; [set_solver|]. intros He. apply Hcl in He.
    rewrite <-Hdom in He. apply elem_of_dom in He as [? ?]. congruence.
Qed.

(** The first call of [get_successors] after a write fills the cache:
    with the inverse of the predecessor dictionary when no predecessor is
    dangling, and it fails with [KeyError] otherwise. *)
Lemma get_successors_fill g v :
  vertex_successors g = ∅ →
  (keys_closed g ∧
   ∃ succ, get_successors v g = (inr (default ∅ (succ !! v)), set_vertex_successors succ g) ∧
           inverse_of (vertex_predecessors g) succ)
  ∨ (¬ keys_closed g ∧
     ∃ succ, get_successors v g = (inl KeyError, set_vertex_successors succ g)).
Proof.
  intros Hempty. unfold get_successors. rewrite decide_True by done.
  destruct (decide (keys_closed g)) as [Hcl|Hncl].
  - left. split; [done|].
    destruct (fill_successors_ok (dict_order (vertex_predecessors g))
                ((λ _, ∅) <$> vertex_predecessors g)) as (succ & Hrun & Hd & Hspec).
    { intros k ps el Hin Hel. rewrite dom_fmap_L. apply (Hcl k).
      apply edge_lookup. exists ps. split; [|done]. by apply elem_of_dict_order. }
    rewrite Hrun. exists succ. split; [done|].
    split; [by rewrite Hd, dom_fmap_L|]. split; [done|]. intros el s Hs k.
    assert (el ∈ dom ((λ _ : gset K, (∅ : gset K)) <$> vertex_predecessors g)) as Hel.
    { rewrite <-Hd. by apply elem_of_dom_2 in Hs. }
    apply elem_of_dom in Hel as [s0 Hs0].
    destruct (Hspec el s0 Hs0) as (s' & Hs' & Hiff).
    assert (s' = s) as -> by congruence. rewrite Hiff.
    rewrite lookup_fmap in Hs0. destruct (vertex_predecessors g !! el); simplify_eq/=.
    fold (preds_of g k). fold (edge g k el). rewrite edge_lookup.
    setoid_rewrite elem_of_dict_order. set_solver.
  - right. split; [done|].
    destruct (fill_successors_fail (dict_order (vertex_predecessors g))
                ((λ _, ∅) <$> vertex_predecessors g)) as (succ & ->); [|by eexists].
    assert (∃ v p, edge g v p ∧ p ∉ dom (vertex_predecessors g)) as (u & p & He & Hp).
    { destruct (decide (map_Forall (λ _ ps, ps ⊆ dom (vertex_predecessors g))
                          (vertex_predecessors g))) as [Hall|Hnall].
      - destruct Hncl. intros u p (ps & Hps & Hp)%edge_lookup. by apply (Hall u ps Hps).
      - apply map_not_Forall in Hnall as (u & ps & Hps & Hnsub); [|apply _].
        assert (∃ p, p ∈ ps ∧ p ∉ dom (vertex_predecessors g)) as (p & Hp & Hn).
        { destruct (decide (ps ∖ dom (vertex_predecessors g) = ∅)) as [Hd|Hd].
          - destruct Hnsub. set_solver.
          - apply set_choose_L in Hd as [p Hp]. exists p. set_solver. }
        exists u, p. split; [|done]. apply edge_lookup. eauto. }
    apply edge_lookup in He as (ps & Hps & Hpin).
    exists u, ps, p. split; [by apply elem_of_dict_order|]. by rewrite dom_fmap_L.
Qed.

(** The only exception of [get_successors] is [KeyError]. *)
Lemma get_successors_error g v e g' :
  get_successors v g = (inl e, g') → e = KeyError.
Proof.
  unfold get_successors. case_decide; [|done].
  destruct (fill_successors _ _) as [[e0|[]] succ] eqn:Hfill; [|done].
  intros [= <- <-]. revert Hfill. unfold fill_successors.
  apply (for_each_error (λ e, e = KeyError)). intros [k ps] s e1 s1.
  apply (for_each_error (λ e, e = KeyError)). intros el s2 e2 s3. unfold add_successor. by destruct (s2 !! el); intros [= <- <-].
Qed.

(** [get_successors] writes to nothing but the successor cache, whether it
    returns or raises. *)
Lemma get_successors_same_graph g v : same_graph g (get_successors v g).2.
Proof.
  unfold get_successors. case_decide; [|apply same_graph_refl].
  destruct (fill_successors _ _) as [[e|[]] succ]; by repeat split.
Qed.

(** On a graph without dangling predecessor, [get_successors] returns the
    inverse image of its argument, and leaves the cache filled. *)
Lemma get_successors_ok g v :
  keys_closed g → cache_ok g →
  ∃ S g', get_successors v g = (inr S, g') ∧ (∀ k, k ∈ S ↔ edge g k v) ∧
    same_graph g g' ∧ inverse_of (vertex_predecessors g) (vertex_successors g').
Proof.
  intros Hcl Hcache.
  destruct (decide (vertex_successors g = ∅)) as [Hempty|Hne].
  - destruct (get_successors_fill g v Hempty) as [(_ & succ & Hrun & Hinv)|(? & _)]; [|done].
    exists (default ∅ (succ !! v)), (set_vertex_successors succ g).
    split; [done|]. split; [by apply inverse_of_lookup|]. split; [by repeat split|done].
  - destruct Hcache as [?|Hinv]; [done|].
    exists (default ∅ (vertex_successors g !! v)), g.
    unfold get_successors. rewrite decide_False by done.
    split; [done|]. split; [by apply inverse_of_lookup|].
    split; [apply same_graph_refl|done].
Qed.

(** Whenever [get_successors] returns, from a cache that is cleared or
    filled, what it returns is the inverse image of its argument. *)
Lemma get_successors_returns g v S g' :
  cache_ok g → get_successors v g = (inr S, g') →
  (∀ k, k ∈ S ↔ edge g k v) ∧ same_graph g g' ∧
  inverse_of (vertex_predecessors g) (vertex_successors g').
Proof.
  intros Hcache Hrun.
  assert (keys_closed g) as Hcl.
  { destruct (decide (vertex_successors g = ∅)) as [Hempty|Hne].
    - destruct (get_successors_fill g v Hempty) as [(? & _)|(_ & succ & Hfail)]; [done|].
      congruence.
    - by apply cache_ok_keys_closed. }
  destruct (get_successors_ok g v Hcl Hcache) as (S' & g'' & Hrun' & Hres).
  rewrite Hrun in Hrun'. by injection Hrun' as <- <-.
Qed.

End successors.

(** ** Strict iteration *)

Section iteration.
Context {K : Type} `{Countable K} {D T : Type} `{!IterOrder K}.
Implicit Types (g : DAG K D T) (it : DAGIterator K) (X : gset K).

Lemma find_ready_Some (l : list K) (pn : gmap K Z) k :
  find_ready l pn = inr (Some k) → k ∈ l ∧ pn !! k = Some 0%Z.
Proof.
  induction l as [|x l IH]; simpl; [done|].
  destruct (pn !! x) as [n|] eqn:Hx; [|done].
  destruct (decide (n = 0%Z)) as [->|Hn].
  - intros [= ->]. split; [left|done].
  - intros [Hin Hk]%IH. split; [by right|done].
Qed.

Lemma find_ready_None (l : list K) (pn : gmap K Z) k :
  find_ready l pn = inr None → k ∈ l → ∃ n, pn !! k = Some n ∧ n ≠ 0%Z.
Proof.
  induction l as [|x l IH]; simpl; intros Hf Hk; [by apply elem_of_nil in Hk|].
  destruct (pn !! x) as [n|] eqn:Hx; [|done].
  destruct (decide (n = 0%Z)) as [->|Hn]; [done|].
  apply elem_of_cons in Hk as [->|Hk]; eauto.
Qed.

Lemma find_ready_no_error (l : list K) (pn : gmap K Z) e :
  (∀ k, k ∈ l → k ∈ dom pn) → find_ready l pn ≠ inl e.
Proof.
  induction l as [|x l IH]; simpl; intros Hdom; [done|].
  assert (x ∈ dom pn) as [n Hn]%elem_of_dom by (apply Hdom; left).
  rewrite Hn. destruct (decide (n = 0%Z)); [done|].
  apply IH. intros k Hk. apply Hdom. by right.
Qed.

(** The loop that decrements the counters of the vertices of [l]. *)
Lemma decr_loop (l : list K) it g :
  NoDup l → (∀ k, k ∈ l → k ∈ dom (pred_number it)) →
  ∃ pn, for_each l decr_pred_number (it, g)
        = (inr tt, (set_pred_number (λ _, pn) it, g)) ∧
    dom pn = dom (pred_number it) ∧
    ∀ k n, pred_number it !! k = Some n →
      pn !! k = Some (if decide (k ∈ l) then n - 1 else n)%Z.
Proof.
  revert it. induction l as [|x l IH]; intros it Hnd Hdom.
  - exists (pred_number it). split; [by destruct it|]. split; [done|].
    intros k n Hk. rewrite decide_False; [done|apply not_elem_of_nil].
  - apply NoDup_cons in Hnd as [Hx Hnd].
    assert (x ∈ dom (pred_number it)) as [nx Hnx]%elem_of_dom by (apply Hdom; left).
    destruct (IH (set_pred_number (λ pn, <[x := (nx - 1)%Z]> pn) it) Hnd)
      as (pn & Hrun & Hd & Hspec).
    { intros k Hk. simpl. rewrite dom_insert_L. apply elem_of_union_r, Hdom. by right. }
    exists pn. split; [|split].
    + simpl. unfold bind, decr_pred_number at 1. simpl. rewrite Hnx. by rewrite Hrun.
    + rewrite Hd. simpl. rewrite dom_insert_L. apply elem_of_dom_2 in Hnx. set_solver.
    + intros k n Hk. destruct (decide (k = x)) as [->|Hne].
      * rewrite (Hspec x (nx - 1)%Z); [|by simpl; rewrite lookup_insert_eq].
        rewrite decide_False by done. rewrite decide_True by left.
        congruence.
      * rewrite (Hspec k n); [|by simpl; rewrite lookup_insert_ne].
        f_equal. repeat case_decide; try done.
        -- exfalso. match goal with Hn : k ∉ x :: l |- _ => apply Hn end. by right.
        -- exfalso. match goal with Hn : k ∈ x :: l |- _ =>
             apply elem_of_cons in Hn as [?|?] end; done.
Qed.

(** The invariant of an iteration in strict mode: the counter of a vertex
    is the number of its predecessors that have not been visited. *)
Record strict_inv g it : Prop := {
  si_strict : enable_busy_state it = false;
  si_non_visited : non_visited it ⊆ dom (vertex_data g);
  si_dom : dom (pred_number it) = dom (vertex_predecessors g);
  si_count : ∀ k, k ∈ dom (vertex_predecessors g) →
    pred_number it !! k = Some (Z.of_nat (size (preds_of g k ∩ non_visited it)))
}.

Lemma strict_inv_init g : closed g → strict_inv g (DAGIterator_init g false).
Proof.
  intros Hcl. split; simpl; [done|done|by rewrite dom_fmap_L|].
  intros k [ps Hps]%elem_of_dom. rewrite lookup_fmap, Hps. simpl.
  do 3 f_equal. unfold preds_of. rewrite Hps. simpl.
  apply set_eq. intros p. rewrite elem_of_intersection. split; [|tauto].
  intros Hp. split; [done|]. apply (Hcl k). unfold edge, preds_of. by rewrite Hps.
Qed.

Lemma size_remove_visited (P nv : gset K) r :
  r ∈ nv →
  Z.of_nat (size (P ∩ (nv ∖ {[r]}))) =
  (if decide (r ∈ P) then Z.of_nat (size (P ∩ nv)) - 1 else Z.of_nat (size (P ∩ nv)))%Z.
Proof.
  intros Hr. case_decide as HP.
  - assert (P ∩ nv = {[r]} ∪ P ∩ (nv ∖ {[r]})) as ->.
    { apply set_eq. intros x. destruct (decide (x = r)); set_solver. }
    rewrite (size_union {[r]} (P ∩ (nv ∖ {[r]}))) by set_solver.
    rewrite size_singleton. lia.
  - do 2 f_equal. set_solver.
Qed.

(** One call of [next_element] in strict mode: either a ready vertex is
    returned and the invariant is kept, or no vertex is ready. *)
Lemma next_element_strict g it :
  keys_ok g → closed g → cache_ok g → strict_inv g it → non_visited it ≠ ∅ →
  (∃ r data it' g',
     next_element (it, g) = (inr (Some (r, data, preds_of g r)), (it', g')) ∧
     r ∈ non_visited it ∧ preds_of g r ⊆ dom (vertex_data g) ∖ non_visited it ∧
     vertex_data g !! r = Some data ∧
     non_visited it' = non_visited it ∖ {[r]} ∧
     states it' = <[r := VISITED]> (states it) ∧
     strict_inv g' it' ∧ same_graph g g' ∧ cache_ok g')
  ∨ (next_element (it, g) = (inl (DAGError msg_cycle_detected), (it, g)) ∧
     ∀ k, k ∈ non_visited it → ∃ p, edge g k p ∧ p ∈ non_visited it).
Proof.
  intros Hkeys Hcl Hcache [Hstrict Hnv Hdom Hcount] Hne.
  unfold next_element, bind, get_state. simpl.
  rewrite decide_False by done.
  assert (∀ k, k ∈ non_visited it → k ∈ dom (vertex_predecessors g)) as Hnvk.
  { intros k Hk. rewrite Hkeys. by apply Hnv. }
  destruct (find_ready (set_order (non_visited it)) (pred_number it))
    as [e|[r|]] eqn:Hfind.
  - exfalso. revert Hfind. apply find_ready_no_error.
    intros k Hk%elem_of_set_order. rewrite Hdom. by apply Hnvk.
  - left. apply find_ready_Some in Hfind as [Hr%elem_of_set_order Hpn].
    rewrite (Hcount r (Hnvk r Hr)) in Hpn.
    assert (preds_of g r ∩ non_visited it = ∅) as Hready.
    { apply gset_size_zero. injection Hpn. lia. }
    rewrite Hstrict. unfold on_iter, update_pred_numbers, on_dag, bind. simpl.
    destruct (get_successors_ok g r (closed_keys_closed g Hkeys Hcl) Hcache)
      as (S & g' & Hsucc & HS & Hsame & Hinv).
    rewrite Hsucc.
    destruct (decr_loop (set_order S) (set_states (λ st, <[r := VISITED]> st) it) g')
      as (pn & Hloop & Hdpn & Hpn').
    { apply NoDup_set_order. }
    { intros k Hk%elem_of_set_order. simpl. rewrite Hdom.
      apply HS in Hk. by eapply edge_in_keys. }
    rewrite Hloop. simpl.
    assert (r ∈ dom (vertex_data g)) as [data Hdata]%elem_of_dom by (by apply Hnv).
    destruct Hsame as (Hvd & Htg & Hpr & Hhc).
    rewrite Hvd, Hdata. unfold get_predecessors. simpl.
    exists r, data. eexists _, g'. split.
    { repeat f_equal. unfold preds_of. by rewrite Hpr. }
    simpl. split; [done|]. split.
    { intros p Hp. apply elem_of_difference. split; [by apply (Hcl r)|].
      intros Hp'. set_solver. }
    split; [done|]. split; [done|]. split; [done|]. split; [|split].
    + split; simpl.
      * done.
      * rewrite Hvd. set_solver.
      * by rewrite Hdpn, Hpr.
      * rewrite Hpr. intros k Hk.
        rewrite (Hpn' k _ (Hcount k Hk)).
        assert (preds_of g' k = preds_of g k) as -> by (unfold preds_of; by rewrite Hpr).
        rewrite (size_remove_visited _ _ r Hr). f_equal.
        destruct (decide (k ∈ set_order S)) as [Hk'|Hk'];
          rewrite elem_of_set_order, HS in Hk'; unfold edge in Hk';
          [by rewrite decide_True|by rewrite decide_False].
    + by repeat split.
    + by right; rewrite Hpr.
  - right. rewrite Hstrict. split; [done|].
    intros k Hk.
    destruct (find_ready_None _ _ k Hfind) as (n & Hn & Hn0);
      [by apply elem_of_set_order|].
    rewrite (Hcount k (Hnvk k Hk)) in Hn.
    assert (preds_of g k ∩ non_visited it ≠ ∅) as Hnonempty.
    { intros Hempty. rewrite Hempty, size_empty in Hn. simplify_eq/=. }
    apply set_choose_L in Hnonempty as [p Hp]. exists p. unfold edge. set_solver.
Qed.

Lemma topo_from_same_graph g g' X l :
  same_graph g g' → topo_from g' X l ↔ topo_from g X l.
Proof.
  intros Hs. revert X. induction l as [|v l IH]; intros X; simpl; [done|].
  by rewrite (same_graph_preds_of g g'), IH.
Qed.

(** The item [next] returns for vertex [v]. *)
Definition item g (v : K) : option (K * option D) :=
  Some (v, default None (vertex_data g !! v)).

(** A whole iteration in strict mode: it ends, after having gone through
    the non-visited vertices in a topological order, or it stops on
    ['cycle detected'], and then the graph has a cycle. *)
Lemma iterate_strict fuel g it :
  keys_ok g → closed g → cache_ok g → strict_inv g it →
  size (non_visited it) < fuel →
  (∃ l it' g',
     iterate fuel (it, g) = (inr (item g <$> l), (it', g')) ∧
     NoDup l ∧ list_to_set l = non_visited it ∧
     topo_from g (dom (vertex_data g) ∖ non_visited it) l ∧
     same_graph g g' ∧ cache_ok g')
  ∨ (∃ it' g',
     iterate fuel (it, g) = (inl (DAGError msg_cycle_detected), (it', g')) ∧
     cyclic g ∧ same_graph g g' ∧ cache_ok g').
Proof.
  revert g it. induction fuel as [|fuel IH]; intros g it Hkeys Hcl Hcache Hinv Hfuel;
    [lia|].
  simpl. unfold next, bind.
  destruct (decide (non_visited it = ∅)) as [Hempty|Hne].
  - left. exists [], it, g.
    unfold next_element, bind, get_state. simpl. rewrite decide_True by done.
    simpl. split; [done|]. split; [constructor|]. split; [by rewrite Hempty|].
    split; [done|]. split; [apply same_graph_refl|done].
  - destruct (next_element_strict g it Hkeys Hcl Hcache Hinv Hne)
      as [(r & data & it' & g' & Hnext & Hr & Hready & Hdata & Hnv' & _ & Hinv' & Hsame & Hcache')
         |[Hnext Hstuck]]; rewrite Hnext; simpl.
    + assert (keys_ok g') as Hkeys' by (by eapply same_graph_keys_ok).
      assert (closed g') as Hcl' by (by eapply same_graph_closed).
      assert (size (non_visited it') < fuel) as Hfuel'.
      { rewrite Hnv'. rewrite size_difference by set_solver.
        rewrite size_singleton.
        assert (size (non_visited it) ≠ 0); [|lia].
        by rewrite gset_size_zero. }
      destruct (IH g' it' Hkeys' Hcl' Hcache' Hinv' Hfuel')
        as [(l & it'' & g'' & Hrun & Hnd & Hl & Htopo & Hsame' & Hcache'')
           |(it'' & g'' & Hrun & Hcyc & Hsame' & Hcache'')]; rewrite Hrun.
      * left. exists (r :: l), it'', g''.
        assert (vertex_data g' = vertex_data g) as Hvd by (by destruct Hsame).
        split.
        { assert (item g' <$> l = item g <$> l) as ->.
          { apply list_fmap_ext. intros _ v _. unfold item. by rewrite Hvd. }
          simpl. unfold item at 2. by rewrite Hdata. }
        split.
        { apply NoDup_cons. split; [|done].
          rewrite <-(elem_of_list_to_set (C := gset K)), Hl, Hnv'. set_solver. }
        split.
        { simpl. rewrite Hl, Hnv'. apply set_eq. intros x.
          destruct (decide (x = r)); set_solver. }
        split.
        { simpl. split; [done|].
          apply (topo_from_same_graph g g') in Htopo; [|done].
          rewrite Hvd, Hnv' in Htopo.
          replace (dom (vertex_data g) ∖ non_visited it ∪ {[r]})
            with (dom (vertex_data g) ∖ (non_visited it ∖ {[r]})); [done|].
          apply set_eq. intros x. destruct Hinv as [_ Hsub _ _].
          destruct (decide (x = r)); set_solver. }
        split; [by eapply same_graph_trans|done].
      * right. exists it'', g''. split; [done|].
        split; [by eapply same_graph_cyclic|].
        split; [by eapply same_graph_trans|done].
    + right. exists it, g. split; [done|]. split; [by eapply (stuck_cyclic g)|].
      split; [apply same_graph_refl|done].
Qed.

(** *** The bookkeeping of an iterator

    The dictionaries of an iterator keep the keys they are given by
    [__init__], whatever the mode and whether the methods return or
    raise. *)

Definition iter_wf it g : Prop :=
  dom (pred_number it) = dom (vertex_predecessors g) ∧
  dom (states it) = dom (vertex_data g) ∧
  non_visited it ⊆ dom (vertex_data g).

Lemma iter_wf_init g busy : iter_wf (DAGIterator_init g busy) g.
Proof. split; [|split]; simpl; by rewrite ?dom_fmap_L. Qed.

Lemma iter_wf_same_graph it g g' : same_graph g g' → iter_wf it g → iter_wf it g'.
Proof. intros (Hvd & _ & Hpr & _) (? & ? & ?). unfold iter_wf. by rewrite Hvd, Hpr. Qed.

Lemma decr_loop_frame (l : list K) it g :
  ∃ pn, (for_each l decr_pred_number (it, g)).2 = (set_pred_number (λ _, pn) it, g) ∧
        dom pn = dom (pred_number it).
Proof.
  revert it. induction l as [|x l IH]; intros it; simpl.
  - exists (pred_number it). split; [by destruct it|done].
  - unfold bind, decr_pred_number at 1. simpl.
    destruct (pred_number it !! x) as [n|] eqn:Hx; simpl.
    + destruct (IH (set_pred_number (λ pn, <[x := (n - 1)%Z]> pn) it)) as (pn & Hrun & Hd).
      exists pn. split; [by rewrite Hrun|].
      rewrite Hd. simpl. rewrite dom_insert_L. apply elem_of_dom_2 in Hx. set_solver.
    + exists (pred_number it). split; [by destruct it|done].
Qed.

Lemma update_pred_numbers_wf it g v :
  iter_wf it g →
  iter_wf (update_pred_numbers v (it, g)).2.1 (update_pred_numbers v (it, g)).2.2
  ∧ same_graph g (update_pred_numbers v (it, g)).2.2
  ∧ states (update_pred_numbers v (it, g)).2.1 = states it
  ∧ non_visited (update_pred_numbers v (it, g)).2.1 = non_visited it.
Proof.
  intros Hwf. unfold update_pred_numbers, bind, on_dag. simpl.
  pose proof (get_successors_same_graph g v) as Hsame.
  destruct (get_successors v g) as [[e|S] g']; simpl in *.
  - split; [by eapply iter_wf_same_graph|done].
  - destruct (decr_loop_frame (set_order S) it g') as (pn & Hrun & Hd).
    rewrite Hrun. simpl. split; [|done].
    eapply iter_wf_same_graph; [done|].
    destruct Hwf as (Hpn & Hst & Hnv). by split; simpl; [rewrite Hd|].
Qed.

Lemma leave_wf it g id :
  iter_wf it g → iter_wf (leave id (it, g)).2.1 (leave id (it, g)).2.2.
Proof.
  intros Hwf. unfold leave, bind, get_state. simpl.
  destruct (states it !! id) as [st|] eqn:Hst; [|done].
  case_decide; [|done]. simpl.
  apply update_pred_numbers_wf.
  destruct Hwf as (Hpn & Hdom & Hnv). split; [done|]. split; [|done]. simpl.
  rewrite dom_insert_L, Hdom. apply elem_of_dom_2 in Hst. rewrite Hdom in Hst. set_solver.
Qed.

Lemma next_element_wf it g :
  iter_wf it g → iter_wf (next_element (it, g)).2.1 (next_element (it, g)).2.2.
Proof.
  intros Hwf. pose proof Hwf as (Hpn & Hdom & Hnv).
  unfold next_element, bind, get_state. simpl.
  case_decide; [done|].
  destruct (find_ready _ _) as [e|[r|]] eqn:Hfind; [done| |by destruct (enable_busy_state it)].
  apply find_ready_Some in Hfind as [Hr%elem_of_set_order _].
  assert (iter_wf (set_states (λ st, <[r := VISITED]> st) it) g
          ∧ iter_wf (set_states (λ st, <[r := BUSY]> st) it) g) as [Hwf1 Hwf2].
  { split; (split; [done|split; [|done]]); simpl; rewrite dom_insert_L, Hdom;
      apply Hnv in Hr; set_solver. }
  assert (∀ it1 g1, iter_wf it1 g1 →
            iter_wf (set_non_visited (λ nv, nv ∖ {[r]}) it1) g1) as Hdiscard.
  { intros it1 g1 (? & ? & ?). split; [done|]. split; [done|]. simpl. set_solver. }
  destruct (enable_busy_state it); simpl.
  - destruct (vertex_data g !! r); simpl; by apply Hdiscard.
  - pose proof (update_pred_numbers_wf _ g r Hwf1) as (Hwf' & _).
    destruct (update_pred_numbers r _) as [[e|[]] [it1 g1]]; simpl in *; [done|].
    destruct (vertex_data g1 !! r); simpl; by apply Hdiscard.
Qed.

(** *** The loop bound of [check]

    In strict mode every call of [next] that returns takes a vertex out of
    [non_visited], so that the loop of [check] ends within the bound the
    model gives it, in whatever state the graph and the iterator are. *)

Lemma update_pred_numbers_error it g v e w :
  update_pred_numbers v (it, g) = (inl e, w) → e = KeyError.
Proof.
  unfold update_pred_numbers, bind, on_dag. simpl.
  destruct (get_successors v g) as [[e0|S] g'] eqn:Hsucc.
  - intros [= <- <-]. by eapply get_successors_error.
  - apply (for_each_error (λ e, e = KeyError)). intros k w0 e1 w1.
    unfold decr_pred_number.
    by destruct (pred_number w0.1 !! k); intros [= <- <-].
Qed.

Lemma update_pred_numbers_frame it g v :
  enable_busy_state (update_pred_numbers v (it, g)).2.1 = enable_busy_state it ∧
  non_visited (update_pred_numbers v (it, g)).2.1 = non_visited it.
Proof.
  unfold update_pred_numbers, bind, on_dag. simpl.
  destruct (get_successors v g) as [[e|S] g']; simpl; [done|].
  destruct (decr_loop_frame (set_order S) it g') as (pn & -> & _). done.
Qed.

Lemma next_strict_progress it g :
  enable_busy_state it = false →
  match next (it, g) with
  | (inr _, w) =>
      enable_busy_state w.1 = false ∧ size (non_visited w.1) < size (non_visited it)
  | (inl e, _) => e ≠ OutOfFuel
  end.
Proof.
  intros Hstrict. unfold next, bind at 1.
  unfold next_element, bind at 1, get_state. simpl.
  case_decide as Hnv; [done|].
  destruct (find_ready _ _) as [e|[r|]] eqn:Hfind; simpl.
  - revert Hfind. clear. induction (set_order (non_visited it)) as [|k l IH]; simpl; [done|].
    destruct (pred_number it !! k); [|by intros [= <-]]. case_decide; [done|apply IH].
  - apply find_ready_Some in Hfind as [Hr%elem_of_set_order _].
    rewrite Hstrict. unfold bind at 1. unfold bind at 1. unfold on_iter at 1. simpl.
    pose proof (update_pred_numbers_frame (set_states (λ st, <[r := VISITED]> st) it) g r)
      as [Hbusy Hsame].
    destruct (update_pred_numbers r _) as [[e|[]] [it1 g1]] eqn:Hupd; simpl in *.
    + apply update_pred_numbers_error in Hupd as ->. done.
    + unfold bind, on_iter, get_state. simpl.
      destruct (vertex_data g1 !! r); simpl; [|done].
      split; [by rewrite Hbusy|]. rewrite Hsame.
      apply subset_size. set_solver.
  - by rewrite Hstrict.
Qed.

Lemma iterate_strict_in_bound fuel it g :
  enable_busy_state it = false → size (non_visited it) < fuel →
  (iterate fuel (it, g)).1 ≠ inl OutOfFuel.
Proof.
  revert it g. induction fuel as [|fuel IH]; intros it g Hstrict Hfuel; [lia|].
  simpl. pose proof (next_strict_progress it g Hstrict) as Hnext.
  destruct (next (it, g)) as [[e|x] [it' g']]; simpl in *.
  - by destruct e.
  - destruct Hnext as [Hstrict' Hsize].
    specialize (IH it' g' Hstrict' ltac:(lia)).
    by destruct (iterate fuel (it', g')) as [[e|xs] w].
Qed.

End iteration.

(** ** The validity check *)

Section check.
Context {K : Type} `{Countable K} {D T : Type} `{!IterOrder K}.
Implicit Types (g : DAG K D T) (it : DAGIterator K) (X : gset K).

Lemma filter_nil_iff {A} (P : A → Prop) `{∀ x, Decision (P x)} (l : list A) :
  filter P l = [] ↔ ∀ x, x ∈ l → ¬ P x.
Proof.
  split.
  - intros Hnil x Hx HP. by apply (filter_nil_not_elem_of P l x).
  - intros Hall. destruct (filter P l) as [|x l'] eqn:Hf; [done|].
    assert (x ∈ filter P l) as [HP Hx]%list_elem_of_filter by (rewrite Hf; left).
    by destruct (Hall x Hx).
Qed.

Lemma invalid_nodes_nil g (ps : gset K) :
  invalid_nodes g ps = [] ↔ ps ⊆ dom (vertex_data g).
Proof.
  unfold invalid_nodes. rewrite filter_nil_iff.
  setoid_rewrite elem_of_set_order. split.
  - intros Hall p Hp. destruct (decide (p ∈ dom (vertex_data g))); [done|].
    by destruct (Hall p Hp).
  - intros Hsub p Hp Hn. apply Hn. by apply Hsub.
Qed.

(** The first loop of [check] finds nothing exactly when every referenced
    predecessor is a vertex. *)
Lemma check_nodes_closed g :
  existsb (λ np : K * gset K, bool_decide (0 < length (invalid_nodes g np.2)))
    (dict_order (vertex_predecessors g)) = false ↔ closed g.
Proof.
  rewrite <-not_true_iff_false, existsb_exists. split.
  - intros Hno v p [ps [Hps Hp]]%edge_lookup.
    destruct (decide (p ∈ dom (vertex_data g))) as [|Hn]; [done|].
    destruct Hno. exists (v, ps). split.
    + apply list_elem_of_In. by apply elem_of_dict_order.
    + apply bool_decide_eq_true. simpl.
      destruct (invalid_nodes g ps) eqn:Hinv; simpl; [|lia].
      apply invalid_nodes_nil in Hinv. by destruct Hn; apply Hinv.
  - intros Hcl ([v ps] & Hin & Hbad).
    apply list_elem_of_In, elem_of_dict_order in Hin.
    apply bool_decide_eq_true in Hbad. simpl in Hbad.
    assert (invalid_nodes g ps = []) as Hnil; [|rewrite Hnil in Hbad; simpl in Hbad; lia].
    apply invalid_nodes_nil. intros p Hp. apply (Hcl v), edge_lookup. eauto.
Qed.

(** [check] on a graph whose validity is not cached and which has a
    dangling predecessor. *)
Lemma check_dangling g :
  has_cycle g = None → ¬ closed g →
  check g = (inl (DAGError msg_invalid_nodes), set_has_cycle (Some true) g).
Proof.
  intros Hflag Hncl. unfold check. rewrite Hflag.
  destruct (existsb _ _) eqn:Hex; [done|]. by apply check_nodes_closed in Hex.
Qed.

(** [check] on a graph whose validity is not cached and whose referenced
    predecessors all exist: it succeeds when the graph has no cycle and
    raises ['cycle detected'] when it has one; the outcome is cached. *)
Lemma check_uncached g :
  keys_ok g → closed g → cache_ok g → has_cycle g = None →
  (acyclic g ∧
   ∃ g', check g = (inr tt, set_has_cycle (Some false) g') ∧
         same_graph g g' ∧ cache_ok g')
  ∨ (cyclic g ∧
     ∃ g', check g = (inl (DAGError msg_cycle_detected), set_has_cycle (Some true) g') ∧
           same_graph g g' ∧ cache_ok g').
Proof.
  intros Hkeys Hcl Hcache Hflag. unfold check. rewrite Hflag.
  rewrite (proj2 (check_nodes_closed g) Hcl).
  destruct (iterate_strict (S (size (non_visited (DAGIterator_init g false)))) g
              (DAGIterator_init g false) Hkeys Hcl Hcache (strict_inv_init g Hcl))
    as [(l & it' & g' & Hrun & Hnd & Hl & Htopo & Hsame & Hcache')
       |(it' & g' & Hrun & Hcyc & Hsame & Hcache')]; [lia| |]; rewrite Hrun; simpl.
  - left. split; [|by exists g'].
    apply (topo_order_acyclic g l).
    + simpl in Htopo. by rewrite difference_diag_L in Htopo.
    + rewrite Hl. simpl. by rewrite Hkeys.
  - right. split; [done|by exists g'].
Qed.

End check.

(** ** Transitive closure *)

Section closure.
Context {K : Type} `{Countable K} {D T : Type} `{!IterOrder K}.
Implicit Types (g : DAG K D T) (X : gset K).

Lemma preds_of_all_ids g n : preds_of g n ⊆ all_ids g.
Proof.
  unfold all_ids, preds_of.
  destruct (vertex_predecessors g !! n) as [ps|] eqn:Hn; simpl; [|set_solver].
  revert ps n Hn.
  apply (map_fold_weak_ind
    (λ r (m : gmap K (gset K)), ∀ ps n, m !! n = Some ps → ps ⊆ dom m ∪ r)).
  - intros ps n. by rewrite lookup_empty.
  - intros i x m r Hi IH ps n. rewrite dom_insert_L.
    destruct (decide (i = n)) as [->|Hne].
    + rewrite lookup_insert_eq. intros [= ->]. set_solver.
    + rewrite lookup_insert_ne by done. intros Hn.
      specialize (IH ps n Hn). set_solver.
Qed.

Lemma closure_pass_spec (l : list K) (visited closure : gset K) g :
  ∃ closure', closure_pass l visited closure g
                = (inr (visited ∪ list_to_set l, closure'), g) ∧
    ∀ x, x ∈ closure' ↔ x ∈ closure ∨ ∃ n, n ∈ l ∧ edge g n x.
Proof.
  revert visited closure. induction l as [|n l IH]; intros visited closure; simpl.
  - exists closure. split; [by rewrite (right_id_L ∅ (∪))|].
    intros x. setoid_rewrite elem_of_nil. naive_solver.
  - unfold bind, get_predecessors at 1. simpl.
    destruct (IH (visited ∪ {[n]}) (closure ∪ default ∅ (vertex_predecessors g !! n)))
      as (closure' & Hrun & Hspec).
    exists closure'. split.
    + rewrite Hrun. do 3 f_equal. set_solver.
    + intros x. rewrite Hspec, elem_of_union. fold (preds_of g n). fold (edge g n x).
      setoid_rewrite elem_of_cons. naive_solver.
Qed.

(** The invariant of the [while] loop of [get_closure v]. *)
Record closure_inv g (v : K) (visited closure : gset K) : Prop := {
  ci_start : preds_of g v ⊆ closure;
  ci_reach : ∀ x, x ∈ closure → tc (edge g) v x;
  ci_visited : visited ⊆ closure;
  ci_expanded : ∀ n p, n ∈ visited → edge g n p → p ∈ closure;
  ci_ids : closure ⊆ all_ids g
}.

Lemma closure_loop_spec fuel g v (visited closure : gset K) :
  closure_inv g v visited closure →
  size (all_ids g ∖ closure) < fuel →
  ∃ C, closure_loop fuel visited closure (size closure) g = (inr C, g) ∧
       ∀ u, u ∈ C ↔ tc (edge g) v u.
Proof.
  revert visited closure. induction fuel as [|fuel IH];
    intros visited closure [Hstart Hreach Hvis Hexp Hids] Hfuel; [lia|].
  simpl. unfold bind.
  destruct (closure_pass_spec (set_order (closure ∖ visited)) visited closure g)
    as (closure' & Hrun & Hspec).
  rewrite Hrun. simpl.
  assert (closure ⊆ closure') as Hmono by (intros x Hx; apply Hspec; by left).
  assert (∀ n p, n ∈ closure → edge g n p → p ∈ closure') as Hexp'.
  { intros n p Hn He. destruct (decide (n ∈ visited)).
    - apply Hmono. by eapply Hexp.
    - apply Hspec. right. exists n. split; [|done].
      apply elem_of_set_order. set_solver. }
  destruct (decide (size closure' = size closure)) as [Hsize|Hsize].
  - exists closure'. split; [done|].
    assert (closure = closure') as <- by (apply set_subseteq_size_eq; [done|lia]).
    intros u. split; [by apply Hreach|].
    intros Htc.
    assert (∀ x, x = v ∨ x ∈ closure → tc (edge g) x u → u ∈ closure) as Hclosed.
    { clear Htc. intros x Hx Htc. induction Htc as [x y He|x y z He _ IHtc].
      - destruct Hx as [->|Hx]; [by apply Hstart|by eapply Hexp'].
      - apply IHtc. right. destruct Hx as [->|Hx]; [by apply Hstart|by eapply Hexp']. }
    apply (Hclosed v); [by left|done].
  - assert (closure' ⊆ all_ids g) as Hids'.
    { intros x [Hx|(n & _ & He)]%Hspec; [by apply Hids|].
      by apply (preds_of_all_ids g n). }
    assert (visited ∪ list_to_set (set_order (closure ∖ visited)) = closure) as ->.
    { rewrite list_to_set_set_order. apply set_eq. intros x.
      destruct (decide (x ∈ visited)); set_solver. }
    apply IH.
    + split; [set_solver| |done|done|done].
      intros x [Hx|(n & [Hn _]%elem_of_set_order%elem_of_difference & He)]%Hspec;
        [by apply Hreach|].
      eapply tc_r; [by apply Hreach|done].
    + assert (size (all_ids g ∖ closure') < size (all_ids g ∖ closure)); [|lia].
      apply subset_size. split; [set_solver|].
      intros Hsub. apply Hsize. symmetry. f_equal.
      apply set_eq. intros x. split; [apply Hmono|]. intros Hx.
      destruct (decide (x ∈ closure)) as [|Hn]; [done|].
      assert (x ∈ all_ids g ∖ closure) as Hx' by set_solver.
      apply Hsub in Hx'. set_solver.
Qed.

End closure.

(** ** Outcomes of [check] and [get_closure] *)

Section validity.
Context {K : Type} `{Countable K} {D T : Type} `{!IterOrder K}.
Implicit Types (g : DAG K D T) (X : gset K).

(** [check] never fails on a valid graph, and leaves it cached as valid. *)
Lemma check_valid g :
  keys_ok g → cache_ok g → flag_ok g → closed g → acyclic g →
  ∃ g', check g = (inr tt, g') ∧ same_store g g' ∧
        has_cycle g' = Some false ∧ cache_ok g'.
Proof.
  intros Hkeys Hcache Hflag Hcl Hac.
  destruct (has_cycle g) as [[]|] eqn:Hc.
  - unfold flag_ok in Hflag. rewrite Hc in Hflag.
    destruct (acyclic_not_cyclic g Hac (Hflag Hcl)).
  - exists g. unfold check. rewrite Hc.
    split; [done|]. split; [apply same_store_refl|done].
  - destruct (check_uncached g Hkeys Hcl Hcache Hc)
      as [(_ & g' & Hrun & Hsame & Hcache')|(Hcyc & _)];
      [|destruct (acyclic_not_cyclic g Hac Hcyc)].
    exists (set_has_cycle (Some false) g'). split; [done|].
    split; [by apply same_store_set_has_cycle, same_graph_store|done].
Qed.

(** [check] on a graph whose validity is not cached: the outcome tells
    whether the graph is valid, and nothing but the two caches changes. *)
Lemma check_decides g :
  keys_ok g → cache_ok g → has_cycle g = None →
  (closed g ∧ acyclic g ∧
   ∃ g', check g = (inr tt, g') ∧ same_store g g' ∧
         has_cycle g' = Some false ∧ cache_ok g')
  ∨ ((¬ closed g ∨ cyclic g) ∧
     ∃ m g', check g = (inl (DAGError m), g') ∧ same_store g g' ∧
             has_cycle g' = Some true ∧ cache_ok g').
Proof.
  intros Hkeys Hcache Hc.
  destruct (existsb (λ np : K * gset K, bool_decide (0 < length (invalid_nodes g np.2)))
              (dict_order (vertex_predecessors g))) eqn:Hex.
  - right. assert (¬ closed g) as Hncl.
    { intros Hcl%check_nodes_closed. congruence. }
    split; [by left|]. exists msg_invalid_nodes, (set_has_cycle (Some true) g).
    split; [by apply check_dangling|]. split; [by repeat split|done].
  - apply check_nodes_closed in Hex.
    destruct (check_uncached g Hkeys Hex Hcache Hc)
      as [(Hac & g' & Hrun & Hsame & Hcache')|(Hcyc & g' & Hrun & Hsame & Hcache')].
    + left. split; [done|]. split; [done|].
      exists (set_has_cycle (Some false) g'). split; [done|].
      split; [by apply same_store_set_has_cycle, same_graph_store|done].
    + right. split; [by right|].
      exists msg_cycle_detected, (set_has_cycle (Some true) g'). split; [done|].
      split; [by apply same_store_set_has_cycle, same_graph_store|done].
Qed.

Lemma all_ids_same_store g g' : same_store g g' → all_ids g' = all_ids g.
Proof. intros (_ & _ & Hp). unfold all_ids. by rewrite Hp. Qed.

(** The loop of [get_closure] computes the vertices reachable from [v],
    whatever the graph. *)
Lemma closure_from_preds g v :
  ∃ C, closure_loop (S (size (all_ids g))) ∅ (preds_of g v) (size (preds_of g v)) g
       = (inr C, g) ∧ ∀ u, u ∈ C ↔ tc (edge g) v u.
Proof.
  apply closure_loop_spec.
  - split; [done| |done|set_solver|apply preds_of_all_ids].
    intros x Hx. by apply tc_once.
  - assert (size (all_ids g ∖ preds_of g v) ≤ size (all_ids g)); [|lia].
    apply subseteq_size. set_solver.
Qed.

(** The loops of [check] and of [get_closure] end within the bounds the
    model gives them, with the result or the exception of the source, on
    every graph. *)
Lemma check_in_bound g : (check g).1 ≠ inl OutOfFuel.
Proof.
  unfold check. destruct (has_cycle g) as [[]|]; [by simpl..|].
  destruct (existsb _ _); [by simpl|]. cbv zeta.
  pose proof (iterate_strict_in_bound
    (S (size (non_visited (DAGIterator_init g false)))) (DAGIterator_init g false) g
    eq_refl ltac:(lia)) as Hfuel.
  destruct (iterate _ _) as [[e|xs] w]; [|by simpl].
  by destruct e.
Qed.

(** [get_closure] is [check] followed by the closure loop. *)
Lemma get_closure_unfold g v :
  get_closure v g =
  match check g with
  | (inl e, g') => (inl e, g')
  | (inr _, g') =>
      closure_loop (S (size (all_ids g'))) ∅ (preds_of g' v) (size (preds_of g' v)) g'
  end.
Proof.
  unfold get_closure, bind. destruct (check g) as [[e|[]] g']; [done|].
  by unfold get_predecessors, get_state.
Qed.

Lemma get_closure_in_bound g v : (get_closure v g).1 ≠ inl OutOfFuel.
Proof.
  rewrite get_closure_unfold. pose proof (check_in_bound g) as Hcheck.
  destruct (check g) as [[e|[]] g'].
  - simpl in *. intros [= ->]. by apply Hcheck.
  - destruct (closure_from_preds g' v) as (C & -> & _). done.
Qed.

(** [get_closure] on a valid graph returns the vertices reachable from
    its argument along predecessor edges. *)
Lemma get_closure_valid g v :
  keys_ok g → cache_ok g → flag_ok g → closed g → acyclic g →
  ∃ C g', get_closure v g = (inr C, g') ∧ (∀ u, u ∈ C ↔ tc (edge g) v u) ∧
    same_store g g' ∧ has_cycle g' = Some false ∧ cache_ok g'.
Proof.
  intros Hkeys Hcache Hflag Hcl Hac.
  destruct (check_valid g Hkeys Hcache Hflag Hcl Hac) as (g' & Hcheck & Hsame & Hc & Hcache').
  destruct (closure_from_preds g' v) as (C & Hloop & HC).
  exists C, g'. rewrite get_closure_unfold, Hcheck.
  split; [done|]. split; [|done].
  intros u. rewrite HC. by apply same_store_tc.
Qed.

End validity.

(** ** Insertion and update *)

Section upsert.
Context {K : Type} `{Countable K} {D T : Type} `{!IterOrder K}.
Implicit Types (g : DAG K D T) (X : gset K) (data : option D).

(** The set [frozenset(predecessors)] built at the head of [update_vertex]. *)
Definition pred_arg (predecessors : option (list K)) : gset K :=
  match predecessors with None => ∅ | Some l => list_to_set l end.

(** The graph after [set_predecessors v ps]. *)
Definition with_preds g (v : K) (ps : gset K) : DAG K D T :=
  {| vertex_data := vertex_data g; tags := tags g;
     vertex_predecessors := <[v := ps]> (vertex_predecessors g);
     vertex_successors := ∅; has_cycle := None |}.

(** The payload dictionary after an update of an existing vertex. *)
Definition with_data (vd : gmap K (option D)) (v : K) data : gmap K (option D) :=
  match data with Some _ => <[v := data]> vd | None => vd end.

(** [update_vertex] looks at its argument [predecessors] through the set
    it builds from it. *)
Lemma update_vertex_pred_arg v data po po' checks :
  pred_arg po = pred_arg po' →
  update_vertex (D := D) (T := T) v data po checks = update_vertex v data po' checks.
Proof.
  intros Heq. unfold update_vertex. fold (pred_arg po). fold (pred_arg po').
  by rewrite Heq.
Qed.

Lemma non_existing_nil g (P : gset K) :
  filter (λ k, k ∉ dom (vertex_data g)) (set_order P) = [] ↔ P ⊆ dom (vertex_data g).
Proof. apply invalid_nodes_nil. Qed.

Lemma update_vertex_non_existing g v data po :
  ¬ pred_arg po ⊆ dom (vertex_data g) →
  update_vertex v data po true g = (inl (DAGError msg_non_existing_vertices), g).
Proof.
  intros Hn. unfold update_vertex, bind, get_state. simpl. fold (pred_arg po).
  destruct (filter _ _) eqn:Hf; [|done].
  by apply non_existing_nil in Hf.
Qed.

Lemma update_vertex_new g v data po checks :
  v ∉ dom (vertex_data g) →
  (checks = true → pred_arg po ⊆ dom (vertex_data g)) →
  update_vertex v data po checks g =
  (inr tt, {| vertex_data := <[v := data]> (vertex_data g); tags := tags g;
              vertex_predecessors := <[v := pred_arg po]> (vertex_predecessors g);
              vertex_successors := ∅; has_cycle := None |}).
Proof.
  intros Hv HP. unfold update_vertex, bind, get_state. simpl. fold (pred_arg po).
  destruct checks.
  - rewrite (proj2 (non_existing_nil g (pred_arg po)) (HP eq_refl)). simpl.
    by rewrite decide_False.
  - simpl. by rewrite decide_False.
Qed.

Lemma add_vertex_new g v data po :
  v ∉ dom (vertex_data g) → pred_arg po ⊆ dom (vertex_data g) →
  add_vertex v data po g =
  (inr tt, {| vertex_data := <[v := data]> (vertex_data g); tags := tags g;
              vertex_predecessors := <[v := pred_arg po]> (vertex_predecessors g);
              vertex_successors := ∅; has_cycle := None |}).
Proof.
  intros Hv HP. unfold add_vertex, bind, get_state. simpl.
  rewrite decide_False by done. by apply update_vertex_new.
Qed.

(** Inserting an identifier that is already a vertex fails and changes
    nothing. *)
Lemma add_vertex_duplicate g v data po :
  v ∈ dom (vertex_data g) →
  add_vertex v data po g = (inl (DAGError msg_vertex_already_exist), g).
Proof.
  intros Hv. unfold add_vertex, bind, get_state. simpl. by rewrite decide_True.
Qed.

Lemma update_vertex_unchecked_existing g v data po :
  v ∈ dom (vertex_data g) →
  update_vertex v data po false g =
  (inr tt, {| vertex_data := with_data (vertex_data g) v data; tags := tags g;
              vertex_predecessors :=
                <[v := preds_of g v ∪ pred_arg po]> (vertex_predecessors g);
              vertex_successors := ∅; has_cycle := None |}).
Proof.
  intros Hv. unfold update_vertex, bind, get_state. simpl. fold (pred_arg po).
  rewrite decide_True by done. simpl. by destruct data.
Qed.

Lemma update_vertex_checked_existing_unfold g v data po :
  v ∈ dom (vertex_data g) → pred_arg po ⊆ dom (vertex_data g) →
  update_vertex v data po true g =
  match get_closure v (with_preds g v (preds_of g v ∪ pred_arg po)) with
  | (inl (DAGError _), g') =>
      (inl (DAGError msg_cannot_update_vertex), with_preds g' v (preds_of g v))
  | (inl e, g') => (inl e, g')
  | (inr _, g') =>
      (inr tt, match data with
               | Some _ => set_vertex_data (λ vd, <[v := data]> vd) g'
               | None => g'
               end)
  end.
Proof.
  intros Hv HP. unfold update_vertex, bind, get_state. simpl. fold (pred_arg po).
  rewrite (proj2 (non_existing_nil g (pred_arg po)) HP). simpl.
  rewrite decide_True by done. simpl.
  unfold try_except_DAGError, bind. fold (preds_of g v).
  fold (with_preds g v (preds_of g v ∪ pred_arg po)).
  destruct (get_closure v _) as [[[]|C] g']; simpl; try done.
  by destruct data.
Qed.

Lemma with_preds_keys_ok g v ps :
  keys_ok g → v ∈ dom (vertex_data g) → keys_ok (with_preds g v ps).
Proof.
  unfold keys_ok. simpl. intros Hk Hv. rewrite dom_insert_L, Hk. set_solver.
Qed.

Lemma with_preds_restore g g' v ps :
  same_store (with_preds g v ps) g' → v ∈ dom (vertex_predecessors g) →
  with_preds g' v (preds_of g v) = with_preds g v (preds_of g v)
  ∧ vertex_predecessors (with_preds g v (preds_of g v)) = vertex_predecessors g.
Proof.
  intros (Hvd & Htg & Hpr) [ps0 Hv]%elem_of_dom. simpl in *. split.
  - unfold with_preds. rewrite Hvd, Htg, Hpr. f_equal. apply insert_insert_eq.
  - unfold preds_of. rewrite Hv. simpl. by apply insert_id.
Qed.

(** A checked update of an existing vertex, all of whose new predecessors
    exist: it goes through when the extended graph is valid, and otherwise
    fails and puts the predecessors back. *)
Lemma update_vertex_checked_existing g v data po :
  keys_ok g → v ∈ dom (vertex_data g) → pred_arg po ⊆ dom (vertex_data g) →
  let g2 := with_preds g v (preds_of g v ∪ pred_arg po) in
  (closed g2 ∧ acyclic g2 ∧
   ∃ g3, update_vertex v data po true g = (inr tt, g3) ∧
     vertex_predecessors g3 = vertex_predecessors g2 ∧
     vertex_data g3 = with_data (vertex_data g) v data ∧ tags g3 = tags g ∧
     has_cycle g3 = Some false ∧ cache_ok g3)
  ∨ ((¬ closed g2 ∨ cyclic g2) ∧
     update_vertex v data po true g =
       (inl (DAGError msg_cannot_update_vertex), with_preds g v (preds_of g v))).
Proof.
  intros Hkeys Hv HP g2.
  rewrite (update_vertex_checked_existing_unfold g v data po Hv HP). fold g2.
  rewrite get_closure_unfold.
  assert (keys_ok g2) as Hkeys2 by (by apply with_preds_keys_ok).
  assert (cache_ok g2) as Hcache2 by (by left).
  destruct (check_decides g2 Hkeys2 Hcache2 eq_refl)
    as [(Hcl & Hac & g' & Hcheck & Hsame & Hc & Hcache')
       |(Hbad & m & g' & Hcheck & Hsame & Hc & Hcache')]; rewrite Hcheck.
  - left. split; [done|]. split; [done|].
    destruct (closure_from_preds g' v) as (C & -> & _).
    destruct Hsame as (Hvd & Htg & Hpr).
    eexists. split; [done|].
    destruct data; simpl; (split; [done|]); (split; [by rewrite Hvd|]);
      (split; [done|]); (split; [done|]); exact Hcache'.
  - right. split; [done|]. f_equal.
    apply (with_preds_restore g g' v _ Hsame). by rewrite Hkeys.
Qed.

End upsert.

(** ** Reversal *)

Section reverse.
Context {K : Type} `{Countable K} {D T : Type} `{!IterOrder K}.
Implicit Types (g r self : DAG K D T) (X : gset K) (data : option D).

(** The payload an unchecked update leaves for a vertex. *)
Definition merged_data (old : option (option D)) data : option D :=
  match old with
  | None => data
  | Some o => match data with Some _ => data | None => o end
  end.

(** An unchecked update never fails. *)
Lemma update_vertex_unchecked g v data po :
  keys_ok g →
  update_vertex v data po false g =
  (inr tt, {| vertex_data := <[v := merged_data (vertex_data g !! v) data]> (vertex_data g);
              tags := tags g;
              vertex_predecessors :=
                <[v := preds_of g v ∪ pred_arg po]> (vertex_predecessors g);
              vertex_successors := ∅; has_cycle := None |}).
Proof.
  intros Hkeys. destruct (decide (v ∈ dom (vertex_data g))) as [Hv|Hv].
  - rewrite update_vertex_unchecked_existing by done.
    apply elem_of_dom in Hv as [o Ho]. rewrite Ho. do 2 f_equal.
    destruct data; simpl; [done|]. by rewrite insert_id.
  - rewrite (update_vertex_new g v data po false Hv) by done.
    assert (preds_of g v = ∅) as ->.
    { unfold preds_of. rewrite <-Hkeys in Hv. apply not_elem_of_dom in Hv.
      by rewrite Hv. }
    apply not_elem_of_dom in Hv. rewrite Hv. simpl.
    by rewrite (left_id_L ∅ (∪)).
Qed.

(** The state of [result] once the vertices [N] and the edges [E] of
    [self] have been transferred. *)
Record reversed_upto self (N : gset K) (E : K → K → Prop) r : Prop := {
  ru_keys : keys_ok r;
  ru_dom : ∀ k, k ∈ dom (vertex_data r) ↔ k ∈ N ∨ ∃ n, E n k;
  ru_preds : ∀ k n, n ∈ preds_of r k ↔ E n k;
  ru_data : ∀ k, k ∈ N → vertex_data r !! k = vertex_data self !! k;
  ru_fresh : ∀ k, k ∉ N → k ∈ dom (vertex_data r) → vertex_data r !! k = Some None;
  ru_tags : tags r = tags self;
  ru_cache : vertex_successors r = ∅;
  ru_flag : has_cycle r = None
}.

Lemma reversed_upto_ext self N E E' r :
  (∀ n k, E n k ↔ E' n k) →
  reversed_upto self N E r → reversed_upto self N E' r.
Proof.
  intros HE [Hk Hd Hp Hda Hf Ht Hc Hfl]. split; try done.
  - intros k. rewrite Hd. by setoid_rewrite HE.
  - intros k n. by rewrite Hp, HE.
Qed.

Lemma preds_of_insert g v ps u (vd : gmap K (option D)) (tg : gmap K (option T)) sc hc :
  preds_of {| vertex_data := vd; tags := tg;
              vertex_predecessors := <[v := ps]> (vertex_predecessors g);
              vertex_successors := sc; has_cycle := hc |} u
  = if decide (v = u) then ps else preds_of g u.
Proof.
  unfold preds_of. simpl. case_decide as Hd.
  - subst. by rewrite lookup_insert_eq.
  - by rewrite lookup_insert_ne.
Qed.

(** [result.update_vertex(node, data=self.vertex_data[node],
    enable_checks=False)] *)
Lemma reverse_node_step self N E r node data :
  reversed_upto self N E r → vertex_data self !! node = Some data →
  ∃ r', update_vertex node data None false r = (inr tt, r') ∧
        reversed_upto self (N ∪ {[node]}) E r'.
Proof.
  intros [Hk Hd Hp Hda Hf Ht Hc Hfl] Hdata.
  rewrite (update_vertex_unchecked r node data None Hk). eexists. split; [done|].
  assert (merged_data (vertex_data r !! node) data = data) as ->.
  { destruct (vertex_data r !! node) as [o|] eqn:Ho; simpl; [|done].
    destruct data; [done|].
    destruct (decide (node ∈ N)) as [HN|HN].
    - rewrite (Hda node HN), Hdata in Ho. congruence.
    - rewrite (Hf node HN) in Ho; [congruence|]. by apply elem_of_dom_2 in Ho. }
  simpl. rewrite (right_id_L ∅ (∪)).
  split; simpl; try done.
  - unfold keys_ok. simpl. rewrite !dom_insert_L. by rewrite Hk.
  - intros k. rewrite dom_insert_L, elem_of_union, elem_of_singleton, Hd.
    rewrite elem_of_union, elem_of_singleton. naive_solver.
  - intros k n. rewrite preds_of_insert. case_decide; [subst|]; apply Hp.
  - intros k [Hk'|Hk']%elem_of_union.
    + destruct (decide (k = node)) as [->|Hne].
      * by rewrite lookup_insert_eq.
      * rewrite lookup_insert_ne by done. by apply Hda.
    + apply elem_of_singleton in Hk' as ->. by rewrite lookup_insert_eq.
  - intros k Hk' Hin. apply not_elem_of_union in Hk' as [HkN Hkn].
    rewrite not_elem_of_singleton in Hkn.
    rewrite lookup_insert_ne by done. apply Hf; [done|].
    rewrite dom_insert_L in Hin. set_solver.
Qed.

(** [result.update_vertex(p, predecessors=[node], enable_checks=False)] *)
Lemma reverse_edge_step self N E r node p :
  reversed_upto self N E r →
  ∃ r', update_vertex p None (Some [node]) false r = (inr tt, r') ∧
        reversed_upto self N (λ n k, E n k ∨ (n = node ∧ k = p)) r'.
Proof.
  intros [Hk Hd Hp Hda Hf Ht Hc Hfl].
  rewrite (update_vertex_unchecked r p None (Some [node]) Hk). eexists. split; [done|].
  assert (pred_arg (Some [node]) = {[node]}) as -> by (simpl; set_solver).
  split; simpl; try done.
  - unfold keys_ok. simpl. rewrite !dom_insert_L. by rewrite Hk.
  - intros k. rewrite dom_insert_L, elem_of_union, elem_of_singleton, Hd.
    naive_solver.
  - intros k n. rewrite preds_of_insert. case_decide as Hd'.
    + subst. rewrite elem_of_union, elem_of_singleton, Hp. naive_solver.
    + rewrite Hp. naive_solver.
  - intros k HkN. destruct (decide (k = p)) as [->|Hne].
    + rewrite lookup_insert_eq. rewrite <-(Hda p HkN).
      destruct (vertex_data r !! p) as [o|] eqn:Ho; simpl; [done|].
      assert (p ∈ dom (vertex_data r)) as Hin by (apply Hd; by left).
      apply elem_of_dom in Hin as [? ?]. congruence.
    + rewrite lookup_insert_ne by done. by apply Hda.
  - intros k HkN Hin. destruct (decide (k = p)) as [->|Hne].
    + rewrite lookup_insert_eq.
      destruct (vertex_data r !! p) as [o|] eqn:Ho; simpl; [|done].
      rewrite <-Ho. apply Hf; [done|]. by apply elem_of_dom_2 in Ho.
    + rewrite lookup_insert_ne by done. apply Hf; [done|].
      rewrite dom_insert_L in Hin. set_solver.
Qed.

(** The whole loop of [reverse_graph]. *)
Lemma reverse_fill_spec self :
  keys_ok self →
  ∃ r, reverse_fill self (set_tags (λ _, tags self) DAG_init) = (inr tt, r) ∧
    reversed_upto self (dom (vertex_predecessors self)) (λ n k, edge self n k) r.
Proof.
  intros Hkeys. unfold reverse_fill.
  destruct (for_each_invariant
    (λ done r, reversed_upto self (list_to_set done.*1)
                 (λ n k, ∃ ps, (n, ps) ∈ done ∧ k ∈ ps) r)
    (dict_order (vertex_predecessors self))
    (λ np, match vertex_data self !! np.1 with
           | None => raise KeyError
           | Some data =>
               update_vertex np.1 data None false ;;;
               for_each (set_order np.2)
                 (λ p, update_vertex p None (Some [np.1]) false)
           end)
    (set_tags (λ _, tags self) DAG_init)) as (r & Hrun & Hinv).
  - split; simpl; try done.
    + intros k. rewrite dom_empty_L. setoid_rewrite elem_of_nil. set_solver.
    + intros k n. unfold preds_of. simpl. rewrite lookup_empty. simpl.
      setoid_rewrite elem_of_nil. set_solver.
  - intros done [node ps] todo r0 Hsplit Hinv. simpl.
    assert (vertex_predecessors self !! node = Some ps) as Hnode.
    { apply elem_of_dict_order. rewrite Hsplit. apply elem_of_app. right. left. }
    assert (node ∈ dom (vertex_data self)) as [data Hdata]%elem_of_dom.
    { rewrite <-Hkeys. by apply elem_of_dom_2 in Hnode. }
    rewrite Hdata. unfold bind.
    destruct (reverse_node_step self _ _ r0 node data Hinv Hdata) as (r1 & -> & Hinv1).
    destruct (for_each_invariant
      (λ done' r, reversed_upto self (list_to_set done.*1 ∪ {[node]})
                    (λ n k, (∃ ps', (n, ps') ∈ done ∧ k ∈ ps') ∨ (n = node ∧ k ∈ done')) r)
      (set_order ps) (λ p, update_vertex p None (Some [node]) false) r1)
      as (r2 & Hrun2 & Hinv2).
    + eapply reversed_upto_ext; [|exact Hinv1]. intros n k. simpl.
      rewrite elem_of_nil. naive_solver.
    + intros done' p todo' r' _ Hinv'.
      destruct (reverse_edge_step self _ _ r' node p Hinv') as (r'' & -> & Hinv'').
      exists r''. split; [done|].
      eapply reversed_upto_ext; [|exact Hinv'']. intros n k. simpl.
      rewrite elem_of_app, list_elem_of_singleton. naive_solver.
    + exists r2. split; [done|].
      rewrite fmap_app, list_to_set_app_L. simpl. rewrite (right_id_L ∅ (∪)).
      eapply reversed_upto_ext; [|exact Hinv2]. intros n k. simpl.
      setoid_rewrite elem_of_app. setoid_rewrite list_elem_of_singleton.
      setoid_rewrite elem_of_set_order. split.
      * intros [(ps' & Hin & Hk)|[-> Hk]]; [by eauto|]. exists ps. eauto.
      * intros (ps' & [Hin|[= -> ->]] & Hk); eauto.
  - exists r. split; [done|].
    assert (list_to_set (dict_order (vertex_predecessors self)).*1
            = dom (vertex_predecessors self)) as Hdom.
    { apply set_eq. intros k. by rewrite elem_of_list_to_set, elem_of_dict_order_keys. }
    rewrite Hdom in Hinv.
    eapply reversed_upto_ext; [|exact Hinv]. intros n k. simpl.
    setoid_rewrite elem_of_dict_order. symmetry. apply edge_lookup.
Qed.

(** [reverse_graph] on a valid graph: the new graph has the vertices,
    payloads and tags of the old one and the inverse edges, and is valid. *)
Lemma reverse_graph_valid g :
  keys_ok g → closed g → acyclic g →
  ∃ r, reverse_graph g = (inr r, set_has_cycle (Some false) g) ∧
    vertex_data r = vertex_data g ∧ tags r = tags g ∧
    (∀ k n, edge r k n ↔ edge g n k) ∧
    keys_ok r ∧ cache_ok r ∧ flag_ok r ∧ closed r ∧ acyclic r.
Proof.
  intros Hkeys Hcl Hac.
  destruct (reverse_fill_spec g Hkeys) as (r0 & Hfill & [Hk Hd Hp Hda Hf Ht Hc Hfl]).
  assert (vertex_data r0 = vertex_data g) as Hvd.
  { apply map_eq. intros k.
    destruct (decide (k ∈ dom (vertex_predecessors g))) as [Hin|Hnin]; [by apply Hda|].
    assert (k ∉ dom (vertex_data r0)) as Hn0.
    { rewrite Hd. intros [?|[n He]]; [done|]. apply Hnin. rewrite Hkeys. by eapply Hcl. }
    rewrite Hkeys in Hnin.
    apply not_elem_of_dom in Hn0, Hnin. by rewrite Hn0, Hnin. }
  assert (closed r0) as Hcl0.
  { intros k n He. apply Hp in He. rewrite Hvd, <-Hkeys. by eapply edge_in_keys. }
  assert (acyclic r0) as Hac0.
  { intros v Hv. apply (Hac v). eapply tc_reverse; [|exact Hv].
    intros a b He. by apply Hp in He. }
  destruct (check_decides r0 Hk (or_introl Hc) Hfl)
    as [(_ & _ & r & Hcheck & Hsame & Hflag & Hcache)
       |([Hbad|Hbad] & _)];
    [|done|destruct (acyclic_not_cyclic r0 Hac0 Hbad)].
  exists r. split.
  { unfold reverse_graph. by rewrite Hfill, Hcheck. }
  pose proof Hsame as (Hvd' & Htg' & Hpr').
  split; [congruence|]. split; [congruence|]. split.
  { intros k n. rewrite (same_store_edge r0 r k n Hsame). apply Hp. }
  split; [by apply (same_store_keys_ok r0 r)|]. split; [done|].
  split; [|split].
  - unfold flag_ok. rewrite Hflag. by apply (same_store_acyclic r0 r).
  - by apply (same_store_closed r0 r).
  - by apply (same_store_acyclic r0 r).
Qed.

(** [reverse_graph] on any graph: it returns the inverse graph when the
    graph has no cycle, and fails when it has one; either way it caches the
    answer in the validity flag of the graph it is called on. *)
Lemma reverse_graph_outcome g :
  keys_ok g →
  (acyclic g ∧
   ∃ r, reverse_graph g = (inr r, set_has_cycle (Some false) g) ∧
        valid r ∧ tags r = tags g ∧ ∀ k n, edge r k n ↔ edge g n k)
  ∨ (cyclic g ∧
     ∃ m, reverse_graph g = (inl (DAGError m), set_has_cycle (Some true) g)).
Proof.
  intros Hkeys.
  destruct (reverse_fill_spec g Hkeys) as (r0 & Hfill & [Hk Hd Hp Hda Hf Ht Hc Hfl]).
  assert (closed r0) as Hcl0.
  { intros k n He. apply Hp in He. apply Hd. left. by eapply edge_in_keys. }
  destruct (check_decides r0 Hk (or_introl Hc) Hfl)
    as [(_ & Hac0 & r & Hcheck & Hsame & Hflag & Hcache)
       |([Hbad|[v Hv]] & m & r & Hcheck & _)]; [left|done|right].
  - split.
    { intros v Hv. apply (Hac0 v). eapply tc_reverse; [|exact Hv].
      intros a b He. by apply Hp. }
    exists r. split; [unfold reverse_graph; by rewrite Hfill, Hcheck|].
    pose proof Hsame as (_ & Htg' & _).
    split; [|split; [congruence|]].
    + split; [by apply (same_store_keys_ok r0 r)|done| |
              by apply (same_store_closed r0 r)|by apply (same_store_acyclic r0 r)].
      unfold flag_ok. rewrite Hflag. by apply (same_store_acyclic r0 r).
    + intros k n. rewrite (same_store_edge r0 r k n Hsame). apply Hp.
  - split.
    { exists v. eapply tc_reverse; [|exact Hv]. intros a b He. by apply Hp in He. }
    exists m. unfold reverse_graph. by rewrite Hfill, Hcheck.
Qed.

End reverse.

(** ** Merge *)

Section merge.
Context {K : Type} `{Countable K} {D T : Type} `{!IterOrder K}.
Implicit Types (g r self other src : DAG K D T) (X : gset K) (data : option D).

Lemma edgeless_acyclic g : (∀ v p, ¬ edge g v p) → acyclic g.
Proof. intros Hno v Htc. inversion Htc; subst; by eapply Hno. Qed.

Lemma fresh_edgeless_valid g :
  keys_ok g → vertex_successors g = ∅ → has_cycle g = None →
  (∀ v p, ¬ edge g v p) → valid g.
Proof.
  intros Hkeys Hsucc Hflag Hno. split; [done|by left| | |by apply edgeless_acyclic].
  - unfold flag_ok. by rewrite Hflag.
  - intros v p He. by destruct (Hno v p).
Qed.

Lemma edgeless_init : ∀ v p, ¬ edge (DAG_init : DAG K D T) v p.
Proof. intros v p. unfold edge, preds_of. simpl. rewrite lookup_empty. set_solver. Qed.

Lemma edgeless_insert g x (vd : gmap K (option D)) (tg : gmap K (option T)) sc hc :
  (∀ v p, ¬ edge g v p) →
  ∀ v p, ¬ edge {| vertex_data := vd; tags := tg;
                   vertex_predecessors := <[x := ∅]> (vertex_predecessors g);
                   vertex_successors := sc; has_cycle := hc |} v p.
Proof.
  intros Hno v p. unfold edge. rewrite preds_of_insert.
  case_decide; [set_solver|apply Hno].
Qed.

Lemma edge_with_preds g v ps u p :
  edge (with_preds g v ps) u p ↔ (u = v ∧ p ∈ ps) ∨ (u ≠ v ∧ edge g u p).
Proof.
  unfold edge, with_preds. rewrite preds_of_insert.
  case_decide; naive_solver.
Qed.

Lemma edge_preds_eq g g' :
  vertex_predecessors g' = vertex_predecessors g → ∀ v p, edge g' v p ↔ edge g v p.
Proof. intros Hpr v p. unfold edge, preds_of. by rewrite Hpr. Qed.

Lemma acyclic_preds_eq g g' :
  vertex_predecessors g' = vertex_predecessors g → acyclic g → acyclic g'.
Proof.
  intros Hpr Hac v Htc. apply (Hac v). eapply tc_subrel; [|done].
  intros a b. by apply edge_preds_eq.
Qed.

(** A checked update of an existing vertex of a valid graph with existing
    predecessors: it adds the edges, unless they close a cycle. *)
Lemma merge_edge_step r nid data (P : gset K) :
  valid r → nid ∈ dom (vertex_data r) → P ⊆ dom (vertex_data r) →
  (∃ r', update_vertex nid data (Some (set_order P)) true r = (inr tt, r') ∧
     valid r' ∧ dom (vertex_data r') = dom (vertex_data r) ∧
     ∀ v p, edge r' v p ↔ edge r v p ∨ (v = nid ∧ p ∈ P))
  ∨ (cyclic (with_preds r nid (preds_of r nid ∪ P)) ∧
     ∃ r', update_vertex nid data (Some (set_order P)) true r
             = (inl (DAGError msg_cannot_update_vertex), r')).
Proof.
  intros [Hkeys Hcache Hflag Hcl Hac] Hnid HP.
  assert (pred_arg (Some (set_order P)) = P) as HPeq by apply list_to_set_set_order.
  pose proof (update_vertex_checked_existing r nid data (Some (set_order P)) Hkeys Hnid)
    as Hstep.
  rewrite HPeq in Hstep. specialize (Hstep HP). cbv zeta in Hstep.
  assert (closed (with_preds r nid (preds_of r nid ∪ P))) as Hcl2.
  { intros v p [[-> Hp]|[_ He]]%edge_with_preds; simpl.
    - apply elem_of_union in Hp as [Hp|Hp]; [by apply (Hcl nid)|by apply HP].
    - by apply (Hcl v). }
  destruct Hstep as [(_ & Hac2 & r' & Hrun & Hpr & Hvd & Htg & Hfl & Hcache')
                    |([Hncl|Hcyc] & Hrun)]; [left|done|right].
  - exists r'. split; [done|].
    assert (∀ v p, edge r' v p ↔ edge r v p ∨ (v = nid ∧ p ∈ P)) as Hedges.
    { intros v p. rewrite (edge_preds_eq _ _ Hpr), edge_with_preds.
      rewrite elem_of_union. fold (edge r nid p).
      destruct (decide (v = nid)); naive_solver. }
    assert (dom (vertex_data r') = dom (vertex_data r)) as Hdom.
    { rewrite Hvd. unfold with_data. destruct data; [|done].
      rewrite dom_insert_L. set_solver. }
    split; [|done]. split.
    + unfold keys_ok. rewrite Hpr, Hdom. by apply with_preds_keys_ok.
    + done.
    + unfold flag_ok. rewrite Hfl. by eapply acyclic_preds_eq.
    + intros v p He. rewrite Hdom. apply (Hcl2 v p). by apply (edge_preds_eq _ _ Hpr).
    + by eapply acyclic_preds_eq.
  - split; [done|]. by eexists.
Qed.

(** The state after the insertion of a new vertex without predecessor. *)
Lemma add_fresh_vertex_valid r x :
  valid r → (∀ v p, ¬ edge r v p) → x ∉ dom (vertex_data r) →
  ∃ r', update_vertex x None None true r = (inr tt, r') ∧ valid r' ∧
        dom (vertex_data r') = dom (vertex_data r) ∪ {[x]} ∧ ∀ v p, ¬ edge r' v p.
Proof.
  intros [Hkeys _ _ _ _] Hno Hx.
  rewrite (update_vertex_new r x None None true Hx) by (simpl; set_solver).
  eexists. split; [done|]. simpl.
  pose proof (edgeless_insert r x (<[x:=None]> (vertex_data r)) (tags r) ∅ None Hno) as Hno'.
  split; [|split; [|done]].
  - apply fresh_edgeless_valid; try done.
    unfold keys_ok. simpl. rewrite !dom_insert_L. by rewrite Hkeys.
  - rewrite dom_insert_L. set_solver.
Qed.

(** First loop of [__or__]: the vertices of [self] are added, without
    predecessors. *)
Lemma merge_add_vertices (l : list K) :
  NoDup l →
  ∃ r : DAG K D T, for_each l (λ nid, add_vertex nid None None) DAG_init = (inr tt, r) ∧
    valid r ∧ dom (vertex_data r) = list_to_set l ∧ ∀ v p, ¬ edge r v p.
Proof.
  intros Hnd.
  apply (for_each_invariant
    (λ done (r : DAG K D T), valid r ∧ dom (vertex_data r) = list_to_set done ∧
                 ∀ v p, ¬ edge r v p)).
  - split; [|split; [|apply edgeless_init]].
    + apply fresh_edgeless_valid; done || apply edgeless_init.
    + simpl. by rewrite dom_empty_L.
  - intros done x todo r Hsplit (Hvalid & Hdom & Hno).
    assert (x ∉ dom (vertex_data r)) as Hx.
    { rewrite Hdom, elem_of_list_to_set. rewrite Hsplit in Hnd.
      apply NoDup_app in Hnd as (_ & Hdisj & _). intros Hin.
      apply (Hdisj x Hin). left. }
    unfold add_vertex, bind, get_state. simpl. rewrite decide_False by done.
    destruct (add_fresh_vertex_valid r x Hvalid Hno Hx) as (r' & -> & Hvalid' & Hdom' & Hno').
    exists r'. split; [done|]. split; [done|]. split; [|done].
    rewrite Hdom', Hdom, list_to_set_app_L. simpl. set_solver.
Qed.

(** Second loop: the vertices of [other] are added or, when they exist,
    updated with no new predecessor. *)
Lemma merge_update_vertices (l : list K) r0 :
  valid r0 → (∀ v p, ¬ edge r0 v p) →
  ∃ r, for_each l (λ nid, update_vertex nid None None true) r0 = (inr tt, r) ∧
    valid r ∧ dom (vertex_data r) = dom (vertex_data r0) ∪ list_to_set l ∧
    ∀ v p, ¬ edge r v p.
Proof.
  intros Hvalid0 Hno0.
  apply (for_each_invariant
    (λ done r, valid r ∧ dom (vertex_data r) = dom (vertex_data r0) ∪ list_to_set done ∧
                 ∀ v p, ¬ edge r v p)).
  - split; [done|]. split; [simpl; set_solver|done].
  - intros done x todo r Hsplit (Hvalid & Hdom & Hno).
    destruct (decide (x ∈ dom (vertex_data r))) as [Hx|Hx].
    + destruct (merge_edge_step r x None ∅ Hvalid Hx) as
        [(r' & Hrun & Hvalid' & Hdom' & Hedges)|(Hcyc & _)]; [set_solver| |].
      * exists r'. split.
        { rewrite <-Hrun. apply (f_equal (λ f, f r)), update_vertex_pred_arg.
          simpl. by rewrite set_order_empty. }
        split; [done|]. split.
        { rewrite Hdom', Hdom, list_to_set_app_L. simpl. rewrite Hdom in Hx. set_solver. }
        intros v p [He|[_ Hp]]%Hedges; [by eapply Hno|set_solver].
      * exfalso. destruct Hcyc as [v Hv]. revert Hv. apply edgeless_acyclic.
        intros u p [[-> Hp]|[_ He]]%edge_with_preds; [|by eapply Hno].
        apply elem_of_union in Hp as [Hp|Hp]; [by eapply Hno|set_solver].
    + destruct (add_fresh_vertex_valid r x Hvalid Hno Hx) as (r' & -> & Hvalid' & Hdom' & Hno').
      exists r'. split; [done|]. split; [done|]. split; [|done].
      rewrite Hdom', Hdom, list_to_set_app_L. simpl. set_solver.
Qed.


End merge.

(** ** Tag context along predecessors *)

Section context.
Context {K : Type} `{Countable K} {D T : Type} `{!IterOrder K}.
Implicit Types (g : DAG K D T) (X : gset K).

(** Along predecessors the search reads the tags and the predecessor sets
    and writes nothing. *)
Lemma get_tag_eq g n : get_tag n g = (inr (mjoin (tags g !! n)), g).
Proof. done. Qed.

Lemma get_predecessors_eq g n : get_predecessors n g = (inr (preds_of g n), g).
Proof. done. Qed.

Lemma ret_eq {S A} (a : A) (s : S) : ret a s = (inr a, s).
Proof. done. Qed.

(** The equations of the two loops. *)
Lemma context_pass_nil (gn : K → M (DAG K D T) (gset K)) me d vis
    (tgs : list (Z * K * T)) clo :
  context_pass gn me d [] vis tgs clo = ret (inr (vis, tgs, clo)).
Proof. done. Qed.

Lemma context_pass_cons (gn : K → M (DAG K D T) (gset K)) me d n l vis
    (tgs : list (Z * K * T)) clo :
  context_pass gn me d (n :: l) vis tgs clo =
  (let! n_tag := get_tag n in
   match n_tag with
   | Some t =>
       if decide (me = Some (Z.of_nat (length (tgs ++ [(d, n, t)]))))
       then ret (inl (tgs ++ [(d, n, t)]))
       else context_pass gn me d l (vis ∪ {[n]}) (tgs ++ [(d, n, t)]) clo
   | None =>
       let! next := gn n in
       context_pass gn me d l (vis ∪ {[n]}) tgs (clo ∪ next)
   end).
Proof. done. Qed.

Lemma context_loop_S fuel (gn : K → M (DAG K D T) (gset K)) md me d vis
    (tgs : list (Z * K * T)) clo len :
  context_loop (S fuel) gn md me d vis tgs clo len =
  if match md with Some md0 => bool_decide (md0 < d + 1)%Z | None => false end
  then ret tgs
  else
    let! r := context_pass gn me (d + 1) (set_order (clo ∖ vis)) vis tgs clo in
    match r with
    | inl tags' => ret tags'
    | inr (visited', tags', closure') =>
        if decide (size closure' = len) then ret tags'
        else context_loop fuel gn md me (d + 1) visited' tags' closure' (size closure')
    end.
Proof. done. Qed.

Lemma context_pass_store g g' me d (l : list K) vis (tgs : list (Z * K * T)) clo :
  same_store g g' →
  context_pass get_predecessors me d l vis tgs clo g'
  = ((context_pass get_predecessors me d l vis tgs clo g).1, g').
Proof.
  intros Hsame. pose proof Hsame as (_ & Htg & _). revert vis tgs clo.
  induction l as [|n l IH]; intros vis tgs clo; simpl; [done|].
  unfold bind. rewrite !get_tag_eq, Htg.
  destruct (mjoin (tags g !! n)) as [t|].
  - case_decide; [done|apply IH].
  - rewrite !get_predecessors_eq, (same_store_preds_of g g' n Hsame). apply IH.
Qed.

Lemma context_loop_store g g' fuel md me d vis (tgs : list (Z * K * T)) clo len :
  same_store g g' →
  context_loop fuel get_predecessors md me d vis tgs clo len g'
  = ((context_loop fuel get_predecessors md me d vis tgs clo len g).1, g').
Proof.
  intros Hsame. revert d vis tgs clo len.
  induction fuel as [|fuel IH]; intros d vis tgs clo len; simpl; [done|].
  destruct (match md with Some md0 => bool_decide (md0 < d + 1)%Z | None => false end);
    [done|].
  unfold bind. rewrite (context_pass_store g g') by done.
  rewrite (context_pass_store g g) at 2 by apply same_store_refl.
  destruct (context_pass _ _ _ _ _ _ _ g).1 as [e|[res|[[vis' tgs'] clo']]]; simpl; try done.
  case_decide; [done|apply IH].
Qed.

(** [get_context] along predecessors, on a valid graph: the result is that
    of the search run on the graph as it is. *)
Lemma get_context_forward g v md me :
  keys_ok g → cache_ok g → flag_ok g → closed g → acyclic g →
  (get_context v md me false g).1 =
  match mjoin (tags g !! v) with
  | Some t => inr [(0%Z, v, t)]
  | None =>
      (context_loop (S (size (all_ids g))) get_predecessors md me 0 ∅ []
         (preds_of g v) (size (preds_of g v)) g).1
  end.
Proof.
  intros Hkeys Hcache Hflag Hcl Hac.
  destruct (check_valid g Hkeys Hcache Hflag Hcl Hac) as (g' & Hcheck & Hsame & _).
  unfold get_context, bind. rewrite Hcheck, get_tag_eq.
  pose proof Hsame as (_ & -> & Hpr).
  destruct (mjoin (tags g !! v)); [done|].
  rewrite get_predecessors_eq. unfold get_state.
  rewrite (all_ids_same_store g g' Hsame), (same_store_preds_of g g' v Hsame).
  exact (f_equal fst (context_loop_store g g' _ md me _ _ _ _ _ Hsame)).
Qed.

(** Along predecessors the search ends within the bound the model gives
    it, on every graph: a pass that does not end the search makes [closure]
    larger, inside the identifiers of the predecessor dictionary. *)
Lemma context_pass_forward g me d (l : list K) vis (tgs : list (Z * K * T)) clo :
  clo ⊆ all_ids g →
  ∃ r, context_pass get_predecessors me d l vis tgs clo g = (inr r, g) ∧
       match r with
       | inl _ => True
       | inr (_, clo') => clo ⊆ clo' ∧ clo' ⊆ all_ids g
       end.
Proof.
  revert vis tgs clo. induction l as [|n l IH]; intros vis tgs clo Hclo.
  - rewrite context_pass_nil. by eexists.
  - rewrite context_pass_cons. unfold bind. rewrite get_tag_eq.
    destruct (mjoin (tags g !! n)) as [t|].
    + case_decide; [by eexists|]. by apply IH.
    + rewrite get_predecessors_eq.
      pose proof (preds_of_all_ids g n) as Hn.
      destruct (IH (vis ∪ {[n]}) tgs (clo ∪ preds_of g n)) as (r & Hr & Hspec);
        [set_solver|].
      exists r. split; [done|].
      destruct r as [|[[vis' tgs'] clo']]; [done|]. set_solver.
Qed.

Lemma context_loop_forward fuel g md me d vis (tgs : list (Z * K * T)) clo :
  clo ⊆ all_ids g → size (all_ids g ∖ clo) < fuel →
  ∃ res, context_loop fuel get_predecessors md me d vis tgs clo (size clo) g
         = (inr res, g).
Proof.
  revert d vis tgs clo.
  induction fuel as [|fuel IH]; intros d vis tgs clo Hclo Hfuel; [lia|].
  rewrite context_loop_S.
  destruct (match md with Some md0 => bool_decide (md0 < d + 1)%Z | None => false end);
    [by eexists|].
  unfold bind.
  destruct (context_pass_forward g me (d + 1) (set_order (clo ∖ vis)) vis tgs clo Hclo)
    as (r & -> & Hr).
  destruct r as [res|[[vis' tgs'] clo']]; [by eexists|].
  case_decide as Hsize; [by eexists|].
  destruct Hr as [Hsub Hall]. apply IH; [done|].
  rewrite size_difference in Hfuel |- * by done.
  pose proof (subseteq_size _ _ Hsub). pose proof (subseteq_size _ _ Hall). lia.
Qed.

Lemma get_context_in_bound g v md me :
  (get_context v md me false g).1 ≠ inl OutOfFuel.
Proof.
  unfold get_context, bind at 1. pose proof (check_in_bound g) as Hcheck.
  destruct (check g) as [[e|[]] g'].
  - simpl in *. intros [= ->]. by apply Hcheck.
  - unfold bind at 1. rewrite get_tag_eq.
    destruct (mjoin (tags g' !! v)); [done|].
    unfold bind, get_state. rewrite get_predecessors_eq.
    destruct (context_loop_forward (S (size (all_ids g'))) g' md me 0 ∅ []
                (preds_of g' v)) as (res & Hres); [apply preds_of_all_ids| |].
    { assert (size (all_ids g' ∖ preds_of g' v) ≤ size (all_ids g')); [|lia].
      apply subseteq_size. set_solver. }
    intros Hbad. pose proof (eq_trans (eq_sym (f_equal fst Hres)) Hbad) as Heq.
    by simpl in Heq.
Qed.

End context.

(** ** The invariant of the graph store

    The hypotheses [keys_ok], [flag_ok] and [cache_ok] of the theorems
    below are not restrictions on the graphs one can build: the empty graph
    satisfies [dag_inv], and the methods that write to a graph keep it,
    whatever their arguments and whether they return or raise.  (The
    successor cache is sound whenever no predecessor is dangling: the only
    way to a partly filled cache is a [KeyError] of [get_successors], on a
    graph with a dangling predecessor.) *)

Section invariant.
Context {K : Type} `{Countable K} {D T : Type} `{!IterOrder K}.
Implicit Types (g r self other : DAG K D T) (X : gset K) (data : option D).

Definition dag_inv g : Prop :=
  keys_ok g ∧ flag_ok g ∧ (keys_closed g → cache_ok g).

Lemma dag_inv_init : dag_inv (DAG_init : DAG K D T).
Proof. split; [done|]. split; [done|]. intros _. by left. Qed.

Lemma dag_inv_closed g :
  dag_inv g → closed g → keys_ok g ∧ cache_ok g ∧ flag_ok g.
Proof.
  intros (Hkeys & Hflag & Hcache) Hcl. split; [done|]. split; [|done].
  by apply Hcache, closed_keys_closed.
Qed.

Lemma valid_dag_inv g : valid g → dag_inv g.
Proof. intros [? ? ? ? ?]. by repeat split. Qed.

(** A graph just written to: both caches are cleared. *)
Lemma fresh_dag_inv g :
  keys_ok g → vertex_successors g = ∅ → has_cycle g = None → dag_inv g.
Proof.
  intros Hkeys Hsucc Hflag. split; [done|]. split.
  - unfold flag_ok. by rewrite Hflag.
  - intros _. by left.
Qed.

Lemma update_vertex_inv g v data po checks :
  dag_inv g → dag_inv (update_vertex v data po checks g).2.
Proof.
  intros Hinv. pose proof Hinv as (Hkeys & Hflag & Hcache).
  destruct checks.
  - destruct (decide (pred_arg po ⊆ dom (vertex_data g))) as [HP|HP];
      [|by rewrite update_vertex_non_existing].
    destruct (decide (v ∈ dom (vertex_data g))) as [Hv|Hv].
    + destruct (update_vertex_checked_existing g v data po Hkeys Hv HP)
        as [(_ & Hac & g3 & -> & Hpr & Hvd & _ & Hfl & Hcache3)|(_ & ->)]; simpl.
      * split; [|split; [|done]].
        -- unfold keys_ok. rewrite Hpr, Hvd. simpl. rewrite dom_insert_L, Hkeys.
           unfold with_data. destruct data; [rewrite dom_insert_L|]; set_solver.
        -- unfold flag_ok. rewrite Hfl. by eapply acyclic_preds_eq.
      * apply fresh_dag_inv; [|done|done]. by apply with_preds_keys_ok.
    + rewrite update_vertex_new by done. simpl.
      apply fresh_dag_inv; [|done|done].
      unfold keys_ok. simpl. rewrite !dom_insert_L. by rewrite Hkeys.
  - rewrite update_vertex_unchecked by done. simpl.
    apply fresh_dag_inv; [|done|done].
    unfold keys_ok. simpl. rewrite !dom_insert_L. by rewrite Hkeys.
Qed.

Lemma add_vertex_inv g v data po :
  dag_inv g → dag_inv (add_vertex v data po g).2.
Proof.
  intros Hinv. unfold add_vertex, bind, get_state. simpl.
  case_decide; [done|]. by apply update_vertex_inv.
Qed.

Lemma add_tag_inv g v (t : option T) : dag_inv g → dag_inv (add_tag v t g).2.
Proof. done. Qed.

Lemma get_successors_inv g v : dag_inv g → dag_inv (get_successors v g).2.
Proof.
  intros (Hkeys & Hflag & Hcache).
  destruct (decide (vertex_successors g = ∅)) as [Hempty|Hne].
  - destruct (get_successors_fill g v Hempty)
      as [(Hcl & succ & -> & Hinv)|(Hncl & succ & ->)]; simpl.
    + split; [done|]. split; [done|]. intros _. by right.
    + by split.
  - unfold get_successors. by rewrite decide_False.
Qed.

Lemma check_inv g : dag_inv g → dag_inv (check g).2.
Proof.
  intros Hinv. pose proof Hinv as (Hkeys & Hflag & Hcache).
  destruct (has_cycle g) as [[]|] eqn:Hc.
  - unfold check. by rewrite Hc.
  - unfold check. by rewrite Hc.
  - destruct (decide (closed g)) as [Hcl|Hncl].
    + pose proof (Hcache (closed_keys_closed g Hkeys Hcl)) as Hcache'.
      destruct (check_decides g Hkeys Hcache' Hc)
        as [(_ & Hac & g' & -> & Hsame & Hfl & Hcache'')
           |(Hbad & m & g' & -> & Hsame & Hfl & Hcache'')]; simpl.
      * split; [by apply (same_store_keys_ok g g')|]. split; [|done].
        unfold flag_ok. rewrite Hfl. by apply (same_store_acyclic g g').
      * split; [by apply (same_store_keys_ok g g')|]. split; [|done].
        unfold flag_ok. rewrite Hfl. intros _.
        destruct Hbad as [?|Hcyc]; [done|]. by apply (same_store_cyclic g g').
    + rewrite check_dangling by done. simpl. split; [done|]. split; [|done].
      intros ?. done.
Qed.

Lemma closure_loop_state g fuel vis clo len :
  (closure_loop fuel vis clo len g).2 = g.
Proof.
  revert vis clo len. induction fuel as [|fuel IH]; intros vis clo len; simpl; [done|].
  unfold bind. destruct (closure_pass_spec (set_order (clo ∖ vis)) vis clo g)
    as (clo' & -> & _). simpl. case_decide; [done|apply IH].
Qed.

Lemma get_closure_inv g v : dag_inv g → dag_inv (get_closure v g).2.
Proof.
  intros Hinv. rewrite get_closure_unfold.
  pose proof (check_inv g Hinv) as Hinv'.
  destruct (check g) as [[e|[]] g']; [done|]. by rewrite closure_loop_state.
Qed.

Lemma reverse_graph_inv g :
  dag_inv g →
  dag_inv (reverse_graph g).2 ∧ ∀ r, (reverse_graph g).1 = inr r → dag_inv r.
Proof.
  intros (Hkeys & Hflag & Hcache).
  destruct (reverse_graph_outcome g Hkeys)
    as [(Hac & r & -> & Hvalid & _)|(Hcyc & m & ->)]; simpl.
  - split; [by split|]. intros r' [= <-]. by apply valid_dag_inv.
  - split; [|by intros r' [=]]. split; [done|]. split; [|done]. by intros _.
Qed.

End invariant.

(** * The stated properties *)

Section claims.
Context {K : Type} `{Countable K} {D T : Type} `{!IterOrder K}.
Implicit Types (g : DAG K D T) (it : DAGIterator K) (X : gset K) (data : option D).

(** C1.  On a graph all of whose referenced predecessors are vertices and
    whose predecessor relation has no cycle, the loop over the iterator in
    strict mode ends without an exception; the items it went through are
    those of a list [l] of vertices in which every vertex of the graph
    occurs exactly once, and every predecessor of a vertex occurs strictly
    before it. *)
Theorem strict_iteration_topological g fuel :
  keys_ok g → cache_ok g → closed g → acyclic g →
  size (dom (vertex_data g)) < fuel →
  ∃ l w, iterate fuel (DAGIterator_init g false, g) = (inr (item g <$> l), w) ∧
    NoDup l ∧ (∀ v, v ∈ l ↔ v ∈ dom (vertex_data g)) ∧
    ∀ l1 v l2, l = l1 ++ v :: l2 → ∀ p, edge g v p → p ∈ l1.
Proof.
  intros Hkeys Hcache Hcl Hac Hfuel.
  destruct (iterate_strict fuel g (DAGIterator_init g false) Hkeys Hcl Hcache
              (strict_inv_init g Hcl) Hfuel)
    as [(l & it' & g' & Hrun & Hnd & Hl & Htopo & _)|(_ & _ & _ & Hcyc & _)];
    [|destruct (acyclic_not_cyclic g Hac Hcyc)].
  exists l, (it', g'). split; [done|]. split; [done|]. split.
  - intros v. by rewrite <-(elem_of_list_to_set (C := gset K)), Hl.
  - intros l1 v l2 Hsplit p Hp. simpl in Htopo.
    rewrite difference_diag_L in Htopo.
    pose proof (topo_from_split g ∅ l l1 v l2 Htopo Hsplit p Hp) as Hin.
    rewrite (left_id_L ∅ (∪)) in Hin. by apply elem_of_list_to_set in Hin.
Qed.

(** C2.  [check] is a no-op on a graph cached as valid, and fails at once
    with ['this DAG contains at least one cycle'], leaving the graph as it
    is, on a graph cached as invalid.  On a graph all of whose referenced
    predecessors are vertices, [check] fails with a cycle error if and only
    if the predecessor relation has a cycle. *)
Theorem check_cycle_detected g :
  (has_cycle g = Some false → check g = (inr tt, g)) ∧
  (has_cycle g = Some true →
     check g = (inl (DAGError msg_contains_cycle), g) ∧
     CycleDetected (DAGError msg_contains_cycle)) ∧
  (keys_ok g → cache_ok g → flag_ok g → closed g →
     (cyclic g ↔ ∃ e g', check g = (inl e, g') ∧ CycleDetected e)).
Proof.
  split; [|split].
  - intros Hc. unfold check. by rewrite Hc.
  - intros Hc. unfold check. rewrite Hc. split; [done|]. right. by right.
  - intros Hkeys Hcache Hflag Hcl. unfold flag_ok in Hflag.
    destruct (has_cycle g) as [[]|] eqn:Hc.
    + split; [|by intros _; apply Hflag].
      intros _. exists (DAGError msg_contains_cycle), g.
      unfold check. rewrite Hc. split; [done|]. right. by right.
    + split.
      * intros Hcyc. destruct (acyclic_not_cyclic g Hflag Hcyc).
      * intros (e & g' & Hrun & _). unfold check in Hrun. by rewrite Hc in Hrun.
    + destruct (check_uncached g Hkeys Hcl Hcache Hc)
        as [(Hac & g' & Hrun & _)|(Hcyc & g' & Hrun & _)].
      * split.
        -- intros Hcyc. destruct (acyclic_not_cyclic g Hac Hcyc).
        -- intros (e & g'' & Hrun' & _). congruence.
      * split; [|done]. intros _. eexists _, _. split; [done|]. by left.
Qed.


(** C4.  On a graph all of whose referenced predecessors are vertices and
    whose predecessor relation has no cycle, [get_closure v] returns the
    set of the vertices that can be reached from [v] by following one or
    more predecessor edges, and [v] is not one of them. *)
Theorem get_closure_reachable g v :
  keys_ok g → cache_ok g → flag_ok g → closed g → acyclic g →
  v ∈ dom (vertex_data g) →
  ∃ C g', get_closure v g = (inr C, g') ∧ (∀ u, u ∈ C ↔ tc (edge g) v u) ∧ v ∉ C.
Proof.
  intros Hkeys Hcache Hflag Hcl Hac _.
  destruct (get_closure_valid g v Hkeys Hcache Hflag Hcl Hac) as (C & g' & Hrun & HC & _).
  exists C, g'. split; [done|]. split; [done|].
  rewrite HC. apply Hac.
Qed.

(** C8.  [leave id] returns only if [id] is BUSY.  On an [id] whose state
    is not BUSY it fails on its assertion and changes nothing (on an [id]
    the iterator has no state for, the lookup of the state fails).  On a
    BUSY [id], the iterator walking a graph whose successor cache is sound
    and whose referenced predecessors are keys, it marks [id] VISITED and
    takes one off the counter of each successor of [id], and of no other
    vertex. *)
Theorem leave_protocol it g id :
  (∀ w', leave id (it, g) = (inr tt, w') → states it !! id = Some BUSY) ∧
  (∀ st, states it !! id = Some st → st ≠ BUSY →
     leave id (it, g) = (inl AssertionError, (it, g)) ∧ ProtocolFault AssertionError) ∧
  (states it !! id = None → leave id (it, g) = (inl KeyError, (it, g))) ∧
  (states it !! id = Some BUSY → keys_closed g → cache_ok g →
   dom (pred_number it) = dom (vertex_predecessors g) →
     ∃ it' g', leave id (it, g) = (inr tt, (it', g')) ∧
       states it' = <[id := VISITED]> (states it) ∧
       non_visited it' = non_visited it ∧
       same_graph g g' ∧
       ∀ k n, pred_number it !! k = Some n →
         pred_number it' !! k = Some (if decide (edge g k id) then n - 1 else n)%Z).
Proof.
  split; [|split; [|split]].
  - intros w'. unfold leave, bind, get_state. simpl.
    destruct (states it !! id) as [st|]; [|done].
    destruct (decide (st = BUSY)) as [->|]; done.
  - intros st Hst Hne. unfold leave, bind, get_state. simpl. rewrite Hst.
    by rewrite decide_False.
  - intros Hst. unfold leave, bind, get_state. simpl. by rewrite Hst.
  - intros Hst Hcl Hcache Hdom. unfold leave, bind, get_state. simpl. rewrite Hst.
    rewrite decide_True by done.
    unfold on_iter, update_pred_numbers, on_dag, bind. simpl.
    destruct (get_successors_ok g id Hcl Hcache) as (S & g' & Hsucc & HS & Hsame & Hinv).
    rewrite Hsucc.
    destruct (decr_loop (set_order S) (set_states (λ st, <[id := VISITED]> st) it) g')
      as (pn & Hloop & Hdpn & Hpn).
    { apply NoDup_set_order. }
    { intros k Hk%elem_of_set_order. simpl. rewrite Hdom.
      apply HS in Hk. by eapply edge_in_keys. }
    rewrite Hloop. eexists _, g'. split; [done|]. simpl.
    split; [done|]. split; [done|]. split; [done|].
    intros k n Hk. rewrite (Hpn k n Hk). f_equal.
    destruct (decide (k ∈ set_order S)) as [Hin|Hin];
      rewrite elem_of_set_order, HS in Hin;
      [by rewrite decide_True|by rewrite decide_False].
Qed.


(** C10.  For an [id] that is not a vertex, [get_predecessors] returns the
    empty set and leaves the graph as it is, on every graph.  On the graphs
    all of whose referenced predecessors are vertices, [get_successors]
    returns the empty set and changes nothing but the successor cache: a
    cleared cache is filled with the inverse of the predecessor sets, and
    a filled cache is left as it is. *)
Theorem unknown_vertex_lookup g id :
  keys_ok g → id ∉ dom (vertex_data g) →
  get_predecessors id g = (inr ∅, g) ∧
  (cache_ok g → closed g →
   ∃ g', get_successors id g = (inr ∅, g') ∧ same_graph g g' ∧
     inverse_of (vertex_predecessors g) (vertex_successors g') ∧
     (vertex_successors g ≠ ∅ → g' = g)).
Proof.
  intros Hkeys Hid. split.
  - unfold get_predecessors. rewrite <-Hkeys in Hid.
    apply not_elem_of_dom in Hid. by rewrite Hid.
  - intros Hcache Hcl.
    destruct (get_successors_ok g id (closed_keys_closed g Hkeys Hcl) Hcache)
      as (S & g' & Hrun & HS & Hsame & Hinv).
    assert (S = ∅) as ->.
    { apply set_eq. intros k. rewrite HS. split; [|set_solver].
      intros He. destruct Hid. by apply (Hcl k). }
    exists g'. split; [done|]. split; [done|]. split; [done|].
    intros Hne. revert Hrun. unfold get_successors. rewrite decide_False by done.
    by intros [= _ <-].
Qed.

(** C6.  On a graph all of whose referenced predecessors are vertices
    and whose predecessor relation has no cycle, [reverse_graph] returns a
    graph on which [reverse_graph] returns a graph with the vertex set, the
    predecessor dictionary and the tags of the first one (and with its
    payloads). *)
Theorem reverse_reverse g :
  keys_ok g → closed g → acyclic g →
  ∃ r g1 rr r1, reverse_graph g = (inr r, g1) ∧ reverse_graph r = (inr rr, r1) ∧
    dom (vertex_data rr) = dom (vertex_data g) ∧
    vertex_predecessors rr = vertex_predecessors g ∧
    tags rr = tags g ∧ vertex_data rr = vertex_data g.
Proof.
  intros Hkeys Hcl Hac.
  destruct (reverse_graph_valid g Hkeys Hcl Hac)
    as (r & Hrun & Hvd & Htg & He & Hkeys' & _ & _ & Hcl' & Hac').
  destruct (reverse_graph_valid r Hkeys' Hcl' Hac')
    as (rr & Hrun' & Hvd' & Htg' & He' & Hkeys'' & _).
  exists r, (set_has_cycle (Some false) g), rr, (set_has_cycle (Some false) r).
  split; [done|]. split; [done|]. split; [congruence|].
  split; [|split; congruence].
  apply map_eq. intros k.
  assert (∀ n, n ∈ preds_of rr k ↔ n ∈ preds_of g k) as Hpreds.
  { intros n. fold (edge rr k n). fold (edge g k n). by rewrite He', He. }
  assert (dom (vertex_predecessors rr) = dom (vertex_predecessors g)) as Hdom.
  { rewrite Hkeys'', Hkeys. congruence. }
  unfold preds_of in Hpreds.
  destruct (vertex_predecessors rr !! k) as [X|] eqn:HX,
           (vertex_predecessors g !! k) as [Y|] eqn:HY; simpl in Hpreds.
  - f_equal. by apply set_eq.
  - apply elem_of_dom_2 in HX. apply not_elem_of_dom in HY. by rewrite Hdom in HX.
  - apply elem_of_dom_2 in HY. apply not_elem_of_dom in HX. by rewrite Hdom in HX.
  - done.
Qed.


End claims.

(** * Further properties of the module *)

(** ** Insertion and update *)

Section upsert_properties.
Context {K : Type} `{Countable K} {D T : Type} `{!IterOrder K}.
Implicit Types (g : DAG K D T) (X P : gset K) (data : option D).

(** A vertex that is new to a valid graph, with predecessors among the
    vertices of the graph, cannot close a cycle: nothing refers to it. *)
Lemma fresh_vertex_valid g v data P :
  valid g → v ∉ dom (vertex_data g) → P ⊆ dom (vertex_data g) →
  valid {| vertex_data := <[v := data]> (vertex_data g); tags := tags g;
           vertex_predecessors := <[v := P]> (vertex_predecessors g);
           vertex_successors := ∅; has_cycle := None |}.
Proof.
  intros Hvalid Hv HP.
  pose proof (valid_closed g Hvalid) as Hcl.
  set (g' := {| vertex_data := <[v := data]> (vertex_data g); tags := tags g;
                vertex_predecessors := <[v := P]> (vertex_predecessors g);
                vertex_successors := ∅; has_cycle := None |}).
  assert (∀ u p, edge g' u p → (u = v ∧ p ∈ P) ∨ (u ≠ v ∧ edge g u p)) as Hedge.
  { intros u p He. unfold edge, g' in He. rewrite preds_of_insert in He.
    destruct (decide (v = u)) as [<-|Hne]; [by left|right]. by split; [intros ->|]. }
  assert (∀ u p, edge g' u p → p ≠ v) as Hnot.
  { intros u p [[_ Hp]|[_ He]]%Hedge ->; apply Hv; [by apply HP|by apply (Hcl u)]. }
  split.
  - unfold keys_ok. simpl. rewrite !dom_insert_L. by rewrite (valid_keys g Hvalid).
  - by left.
  - done.
  - intros u p [[_ Hp]|[_ He]]%Hedge; simpl; rewrite dom_insert_L;
      apply elem_of_union_r; [by apply HP|by apply (Hcl u)].
  - assert (∀ x y, tc (edge g') x y → x ≠ v → tc (edge g) x y) as Htc.
    { intros x y Hxy. induction Hxy as [x y He|x y z He _ IH]; intros Hx.
      - apply tc_once. by destruct (Hedge x y He) as [[? _]|[_ ?]].
      - apply (tc_l _ x y z).
        + by destruct (Hedge x y He) as [[? _]|[_ ?]].
        + apply IH. by apply (Hnot x). }
    assert (∀ x y, tc (edge g') x y → y ≠ v) as Hend.
    { intros x y Hxy. induction Hxy as [x y He|x y z He _ IH]; [by apply (Hnot x)|done]. }
    intros x Hxx. apply (valid_acyclic g Hvalid x), Htc; [done|by apply (Hend x)].
Qed.

(** X1.  [add_vertex] refuses an identifier that is already a vertex and,
    for a new one, a predecessor that is not a vertex (the new vertex itself
    included), leaving the graph as it is.  Otherwise it stores the payload
    and the predecessors, and a valid graph stays valid: no cycle check is
    needed, and none is run, for a vertex nothing refers to. *)
Theorem add_vertex_outcome g v data po :
  (v ∈ dom (vertex_data g) →
     add_vertex v data po g = (inl (DAGError msg_vertex_already_exist), g)) ∧
  (v ∉ dom (vertex_data g) → ¬ pred_arg po ⊆ dom (vertex_data g) →
     add_vertex v data po g = (inl (DAGError msg_non_existing_vertices), g)) ∧
  (v ∉ dom (vertex_data g) → pred_arg po ⊆ dom (vertex_data g) →
     ∃ g', add_vertex v data po g = (inr tt, g') ∧
       vertex_data g' = <[v := data]> (vertex_data g) ∧
       vertex_predecessors g' = <[v := pred_arg po]> (vertex_predecessors g) ∧
       tags g' = tags g ∧ (valid g → valid g')).
Proof.
  split; [|split].
  - apply add_vertex_duplicate.
  - intros Hv HP. unfold add_vertex, bind, get_state.
    rewrite decide_False by done. by apply update_vertex_non_existing.
  - intros Hv HP. eexists. split; [by apply add_vertex_new|]. simpl.
    split; [done|]. split; [done|]. split; [done|].
    intros Hvalid. by apply fresh_vertex_valid.
Qed.

(** X2.  A checked [update_vertex] that fails, fails on a predecessor that
    is not a vertex or on a cycle, and the payloads, the predecessor sets
    and the tags are then what they were before the call. *)
Theorem checked_upsert_atomic g v data po e g' :
  keys_ok g → update_vertex v data po true g = (inl e, g') →
  (e = DAGError msg_non_existing_vertices ∨ e = DAGError msg_cannot_update_vertex) ∧
  vertex_data g' = vertex_data g ∧ vertex_predecessors g' = vertex_predecessors g ∧
  tags g' = tags g.
Proof.
  intros Hkeys Hrun.
  destruct (decide (pred_arg po ⊆ dom (vertex_data g))) as [HP|HP].
  - destruct (decide (v ∈ dom (vertex_data g))) as [Hv|Hv].
    + destruct (update_vertex_checked_existing g v data po Hkeys Hv HP)
        as [(_ & _ & g3 & Hrun' & _)|(_ & Hrun')]; [congruence|].
      rewrite Hrun' in Hrun. injection Hrun as <- <-. split; [by right|].
      destruct (with_preds_restore g (with_preds g v ∅) v ∅) as [_ Hpr];
        [apply same_store_refl|by rewrite Hkeys|].
      by rewrite Hpr.
    + rewrite (update_vertex_new g v data po true Hv) in Hrun by done. done.
  - rewrite (update_vertex_non_existing g v data po HP) in Hrun.
    injection Hrun as <- <-. split; [by left|done].
Qed.

(** X3.  On a valid graph, a checked [update_vertex] on an existing vertex
    with predecessors among the vertices returns exactly when the enlarged
    predecessor relation has no cycle.  The graph it leaves is valid and
    cached as such; the new predecessors are added to the stored ones, and
    the payload is replaced only by a payload that is not [None]. *)
Theorem checked_update_merges g v data po :
  valid g → v ∈ dom (vertex_data g) → pred_arg po ⊆ dom (vertex_data g) →
  (acyclic (with_preds g v (preds_of g v ∪ pred_arg po)) ↔
   ∃ g', update_vertex v data po true g = (inr tt, g')) ∧
  ∀ g', update_vertex v data po true g = (inr tt, g') →
    valid g' ∧ has_cycle g' = Some false ∧
    vertex_predecessors g'
    = <[v := preds_of g v ∪ pred_arg po]> (vertex_predecessors g) ∧
    vertex_data g' = with_data (vertex_data g) v data ∧ tags g' = tags g.
Proof.
  intros Hvalid Hv HP. pose proof (valid_keys g Hvalid) as Hkeys.
  destruct (update_vertex_checked_existing g v data po Hkeys Hv HP)
    as [(Hcl & Hac & g3 & Hrun & Hpr & Hvd & Htg & Hflag & Hcache)|(Hbad & Hrun)].
  - split; [split; [by exists g3|done]|].
    intros g' Hrun'. assert (g' = g3) as -> by congruence.
    split; [|done]. split.
    + unfold keys_ok. rewrite Hpr, Hvd. simpl. rewrite dom_insert_L.
      unfold with_data. destruct data; [rewrite dom_insert_L|]; rewrite Hkeys;
        set_solver.
    + done.
    + unfold flag_ok. rewrite Hflag. by eapply acyclic_preds_eq.
    + intros u p He. apply (edge_preds_eq _ g3 Hpr) in He. apply Hcl in He.
      simpl in He. rewrite Hvd. unfold with_data.
      destruct data; [rewrite dom_insert_L|]; set_solver.
    + by eapply acyclic_preds_eq.
  - split; [|intros g' Hrun'; congruence].
    split; [|intros [g' Hrun']; congruence].
    intros Hac. destruct Hbad as [Hncl|Hcyc]; [|destruct (acyclic_not_cyclic _ Hac Hcyc)].
    destruct Hncl. intros u p [[-> Hp]|[_ He]]%edge_with_preds; simpl.
    + apply elem_of_union in Hp as [Hp|Hp]; [|by apply HP].
      by apply (valid_closed g Hvalid v).
    + by apply (valid_closed g Hvalid u).
Qed.

(** X4.  An unchecked [update_vertex] never fails and checks nothing: it
    adds the predecessors, whatever they are, and clears both caches, so
    that the next [check] decides afresh whether the graph is valid. *)
Theorem unchecked_update_deferred g v data po :
  keys_ok g →
  ∃ g1, update_vertex v data po false g = (inr tt, g1) ∧
    preds_of g1 v = preds_of g v ∪ pred_arg po ∧
    (∀ u, u ≠ v → preds_of g1 u = preds_of g u) ∧
    vertex_data g1 = <[v := merged_data (vertex_data g !! v) data]> (vertex_data g) ∧
    tags g1 = tags g ∧ vertex_successors g1 = ∅ ∧ has_cycle g1 = None ∧
    ((closed g1 ∧ acyclic g1 ∧ ∃ g2, check g1 = (inr tt, g2) ∧ same_store g1 g2)
     ∨ ((¬ closed g1 ∨ cyclic g1) ∧
        ∃ m g2, check g1 = (inl (DAGError m), g2) ∧ same_store g1 g2 ∧
                has_cycle g2 = Some true)).
Proof.
  intros Hkeys. eexists. split; [by apply update_vertex_unchecked|].
  set (g1 := {| vertex_data := _ |}).
  split; [|split; [|split; [done|split; [done|split; [done|split; [done|]]]]]].
  - unfold g1. rewrite preds_of_insert. by rewrite decide_True.
  - intros u Hu. unfold g1. rewrite preds_of_insert. by rewrite decide_False.
  - assert (keys_ok g1) as Hkeys1.
    { unfold keys_ok, g1. simpl. by rewrite !dom_insert_L, Hkeys. }
    destruct (check_decides g1 Hkeys1 (or_introl eq_refl) eq_refl)
      as [(Hcl & Hac & g2 & Hrun & Hsame & _)|(Hbad & m & g2 & Hrun & Hsame & Hflag & _)].
    + left. eauto.
    + right. split; [done|]. eauto.
Qed.

End upsert_properties.

(** ** Validation, iteration and closure *)

Section check_properties.
Context {K : Type} `{Countable K} {D T : Type} `{!IterOrder K}.
Implicit Types (g : DAG K D T) (X P : gset K) (data : option D).

Lemma not_keys_closed_edge g :
  ¬ keys_closed g → ∃ v p, edge g v p ∧ p ∉ dom (vertex_predecessors g).
Proof.
  intros Hncl.
  destruct (decide (map_Forall (λ _ ps, ps ⊆ dom (vertex_predecessors g))
                      (vertex_predecessors g))) as [Hall|Hnall].
  - destruct Hncl. intros u p (ps & Hps & Hp)%edge_lookup. by apply (Hall u ps Hps).
  - apply map_not_Forall in Hnall as (u & ps & Hps & Hnsub); [|apply _].
    destruct (decide (ps ∖ dom (vertex_predecessors g) = ∅)) as [Hd|Hd].
    + destruct Hnsub. set_solver.
    + apply set_choose_L in Hd as [p Hp]. exists u, p.
      split; [apply edge_lookup; exists ps|]; set_solver.
Qed.

(** X5.  The three outcomes of [check] on a graph whose validity is not
    cached, and what the next [check] does: a referenced predecessor that
    is not a vertex gives ['invalid nodes'], a cycle gives ['cycle
    detected'], and both are cached as one flag, so that the next [check]
    reports ['this DAG contains at least one cycle'] in either case. *)
Theorem check_verdict_cached g :
  keys_ok g → cache_ok g → has_cycle g = None →
  (closed g ∧ acyclic g ∧
   ∃ g1, check g = (inr tt, g1) ∧ same_store g g1 ∧ check g1 = (inr tt, g1))
  ∨ (¬ closed g ∧
     ∃ g1, check g = (inl (DAGError msg_invalid_nodes), g1) ∧ same_store g g1 ∧
           check g1 = (inl (DAGError msg_contains_cycle), g1))
  ∨ (closed g ∧ cyclic g ∧
     ∃ g1, check g = (inl (DAGError msg_cycle_detected), g1) ∧ same_store g g1 ∧
           check g1 = (inl (DAGError msg_contains_cycle), g1)).
Proof.
  intros Hkeys Hcache Hflag.
  destruct (decide (closed g)) as [Hcl|Hncl].
  - destruct (check_uncached g Hkeys Hcl Hcache Hflag)
      as [(Hac & g' & -> & Hsame & _)|(Hcyc & g' & -> & Hsame & _)].
    + left. split; [done|]. split; [done|]. eexists. split; [done|].
      split; [|done]. by apply same_store_set_has_cycle, same_graph_store.
    + right. right. split; [done|]. split; [done|]. eexists. split; [done|].
      split; [|done]. by apply same_store_set_has_cycle, same_graph_store.
  - right. left. split; [done|]. rewrite (check_dangling g Hflag Hncl).
    eexists. split; [done|]. split; [|done].
    apply same_store_set_has_cycle, same_store_refl.
Qed.

(** X6.  Strict iteration over a graph all of whose referenced
    predecessors are vertices stops on ['cycle detected'] when the graph has
    a cycle, and runs to its end only when it has none. *)
Theorem strict_iteration_cycle g fuel :
  keys_ok g → cache_ok g → closed g → size (dom (vertex_data g)) < fuel →
  (cyclic g → ∃ w, iterate fuel (__iter__ g, g) = (inl (DAGError msg_cycle_detected), w)) ∧
  (∀ xs w, iterate fuel (__iter__ g, g) = (inr xs, w) → acyclic g).
Proof.
  intros Hkeys Hcache Hcl Hfuel. unfold __iter__.
  destruct (iterate_strict fuel g (DAGIterator_init g false) Hkeys Hcl Hcache
              (strict_inv_init g Hcl) Hfuel)
    as [(l & it' & g' & Hrun & _ & Hl & Htopo & _)|(it' & g' & Hrun & Hcyc & _)].
  - assert (acyclic g) as Hac.
    { apply (topo_order_acyclic g l).
      - simpl in Htopo. by rewrite difference_diag_L in Htopo.
      - rewrite Hl, Hkeys. done. }
    split; [|done]. intros Hcyc. destruct (acyclic_not_cyclic g Hac Hcyc).
  - split; [by eexists|]. intros xs w Hrun'. congruence.
Qed.

(** X7.  Strict iteration over a graph that was not checked and has a
    referenced predecessor that is not a vertex fails at the first step,
    with [KeyError] (from the successor dictionary) when a vertex without
    predecessor was found, and with ['cycle detected'] when none was. *)
Theorem strict_iteration_dangling g fuel :
  keys_ok g → vertex_successors g = ∅ → ¬ closed g →
  ∃ e w, iterate (S fuel) (__iter__ g, g) = (inl e, w) ∧
    ((e = KeyError ∧ ∃ k, k ∈ dom (vertex_data g) ∧ preds_of g k = ∅)
     ∨ (e = DAGError msg_cycle_detected ∧
        ∀ k, k ∈ dom (vertex_data g) → preds_of g k ≠ ∅)).
Proof.
  intros Hkeys Hempty Hncl.
  assert (¬ keys_closed g) as Hnk.
  { intros Hk. apply Hncl. intros v p He. rewrite <-Hkeys. by apply (Hk v). }
  destruct (not_keys_closed_edge g Hnk) as (u & p & He & _).
  apply edge_in_keys in He. rewrite Hkeys in He.
  cut (∃ e w, next (__iter__ g, g) = (inl e, w) ∧
              ((e = KeyError ∧ ∃ k, k ∈ dom (vertex_data g) ∧ preds_of g k = ∅)
               ∨ (e = DAGError msg_cycle_detected ∧
                  ∀ k, k ∈ dom (vertex_data g) → preds_of g k ≠ ∅))).
  { intros (e & w & Hn & He'). exists e, w. split; [|done].
    simpl. rewrite Hn. by destruct He' as [[-> _]|[-> _]]. }
  unfold next, bind at 1. unfold next_element, bind at 1, get_state, __iter__. simpl.
  rewrite decide_False by set_solver.
  destruct (find_ready _ _) as [e|[r|]] eqn:Hfind; simpl.
  - exfalso. revert Hfind. apply find_ready_no_error.
    intros k Hk%elem_of_set_order. by rewrite dom_fmap_L, Hkeys.
  - unfold bind at 1. unfold bind at 1. unfold on_iter at 1. simpl.
    unfold update_pred_numbers, bind at 1. unfold on_dag. simpl.
    destruct (get_successors_fill g r Hempty) as [[Hk _]|(_ & succ & ->)]; [done|].
    eexists _, _. split; [done|]. left. split; [done|].
    apply find_ready_Some in Hfind as [Hr%elem_of_set_order Hzero].
    exists r. split; [done|]. rewrite lookup_fmap in Hzero. unfold preds_of.
    destruct (vertex_predecessors g !! r) as [ps|]; [|done]. simpl in *.
    apply gset_size_zero. injection Hzero. lia.
  - eexists _, _. split; [done|]. right. split; [done|].
    intros k Hk Hnone. pose proof Hk as Hk'%elem_of_set_order.
    destruct (find_ready_None _ _ k Hfind Hk') as (n & Hn & Hne).
    rewrite lookup_fmap in Hn. unfold preds_of in Hnone.
    destruct (vertex_predecessors g !! k) as [ps|]; [|done]. simpl in *.
    subst ps. by injection Hn as <-.
Qed.

(** X8.  [get_closure] validates first.  On a graph whose validity is not
    cached it returns, for every identifier, the set of the vertices
    reachable along predecessor edges (empty for an identifier that is not
    a vertex) when the graph is valid, and fails for every identifier, the
    failure being cached, when it is not. *)
Theorem get_closure_outcome g v :
  keys_ok g → cache_ok g → has_cycle g = None →
  (closed g ∧ acyclic g ∧
   ∃ C g', get_closure v g = (inr C, g') ∧ same_store g g' ∧
     (∀ u, u ∈ C ↔ tc (edge g) v u) ∧ (v ∉ dom (vertex_data g) → C = ∅))
  ∨ ((¬ closed g ∨ cyclic g) ∧
     ∃ m g', get_closure v g = (inl (DAGError m), g') ∧ same_store g g' ∧
       has_cycle g' = Some true).
Proof.
  intros Hkeys Hcache Hflag. rewrite get_closure_unfold.
  destruct (check_decides g Hkeys Hcache Hflag)
    as [(Hcl & Hac & g' & -> & Hsame & _)|(Hbad & m & g' & -> & Hsame & Hflag' & _)].
  - left. split; [done|]. split; [done|].
    destruct (closure_from_preds g' v) as (C & -> & HC).
    exists C, g'. split; [done|]. split; [done|].
    assert (∀ u, u ∈ C ↔ tc (edge g) v u) as HC'.
    { intros u. by rewrite HC, (same_store_tc g g'). }
    split; [done|]. intros Hv. apply set_eq. intros u. rewrite HC'.
    split; [|set_solver]. intros Htc. destruct Hv. rewrite <-Hkeys.
    inversion Htc; subst; by eapply edge_in_keys.
  - right. split; [done|]. by exists m, g'.
Qed.

(** X9.  The loops of the module end: the iteration run by [check] and the
    [while True] loops of [get_closure] and of [get_context] along
    predecessors never exhaust the number of passes the model gives them,
    the number of identifiers of the graph plus one, on any graph. *)
Theorem loops_terminate g v md me :
  (check g).1 ≠ inl OutOfFuel ∧ (get_closure v g).1 ≠ inl OutOfFuel ∧
  (get_context v md me false g).1 ≠ inl OutOfFuel.
Proof.
  split; [apply check_in_bound|]. split; [apply get_closure_in_bound|].
  apply get_context_in_bound.
Qed.

End check_properties.

(** ** The successor cache after a failure *)

Section partial_cache.
Context {K : Type} `{Countable K} {D T : Type} `{!IterOrder K}.
Implicit Types (g : DAG K D T) (succ : gmap K (gset K)).

(** Whether it ends or stops on a [KeyError], the loop that fills the
    successor dictionary keeps its keys and puts [k] in the entry of [el]
    only when [el] is a predecessor of [k]. *)
Lemma fill_inner_partial (Q : K → K → Prop) k (l : list K) succ0 :
  (∀ el, el ∈ l → Q k el) →
  (∀ el s, succ0 !! el = Some s → ∀ k', k' ∈ s → Q k' el) →
  dom (for_each l (add_successor k) succ0).2 = dom succ0 ∧
  ∀ el s, (for_each l (add_successor k) succ0).2 !! el = Some s → ∀ k', k' ∈ s → Q k' el.
Proof.
  revert succ0. induction l as [|x l IH]; intros succ0 Hl H0; [done|].
  simpl. unfold bind, add_successor at 1 3.
  destruct (succ0 !! x) as [s0|] eqn:Hx; [|done].
  destruct (IH (<[x := s0 ∪ {[k]}]> succ0)) as [Hd Hinv].
  - intros el Hel. apply Hl. by right.
  - intros el s. destruct (decide (el = x)) as [->|Hne].
    + rewrite lookup_insert_eq. intros [= <-] k' [Hk'| ->%elem_of_singleton]%elem_of_union.
      * by apply (H0 x s0).
      * apply Hl. by left.
    + rewrite lookup_insert_ne by done. apply H0.
  - split; [|done]. rewrite Hd, dom_insert_L.
    apply elem_of_dom_2 in Hx. set_solver.
Qed.

Lemma fill_successors_partial (Q : K → K → Prop) (items : list (K * gset K)) succ0 :
  (∀ k ps el, (k, ps) ∈ items → el ∈ ps → Q k el) →
  (∀ el s, succ0 !! el = Some s → ∀ k', k' ∈ s → Q k' el) →
  dom (fill_successors items succ0).2 = dom succ0 ∧
  ∀ el s, (fill_successors items succ0).2 !! el = Some s → ∀ k', k' ∈ s → Q k' el.
Proof.
  unfold fill_successors.
  revert succ0. induction items as [|[k ps] items IH]; intros succ0 Hitems H0; [done|].
  simpl. unfold bind.
  destruct (fill_inner_partial Q k (set_order ps) succ0) as [Hd Hinv]; [|done|].
  { intros el Hel%elem_of_set_order. apply (Hitems k ps); [by left|done]. }
  destruct (for_each (set_order ps) (add_successor k) succ0) as [[e|[]] succ1];
    simpl in *; [done|].
  destruct (IH succ1) as [Hd' Hinv']; [|done|].
  { intros k' ps' el Hin. apply (Hitems k' ps'). by right. }
  split; [by rewrite Hd'|done].
Qed.

(** X10.  On a graph with a predecessor that is not a key of the
    predecessor dictionary, the first [get_successors] after a write raises
    [KeyError], and only the first: the partly filled dictionary stays in
    the graph, and from then on every [get_successors] answers from it
    without failing, with a set that holds successors only, but not
    necessarily all of them. *)
Theorem get_successors_after_key_error g v :
  vertex_successors g = ∅ → ¬ keys_closed g →
  ∃ g1, get_successors v g = (inl KeyError, g1) ∧ same_graph g g1 ∧
    ∀ u, ∃ S, get_successors u g1 = (inr S, g1) ∧ ∀ k, k ∈ S → edge g k u.
Proof.
  intros Hempty Hncl.
  destruct (get_successors_fill g v Hempty) as [[Hk _]|(_ & succ & Hrun)]; [done|].
  exists (set_vertex_successors succ g). split; [done|]. split; [done|].
  assert (succ = (fill_successors (dict_order (vertex_predecessors g))
                    ((λ _, ∅) <$> vertex_predecessors g)).2) as Hsucc.
  { revert Hrun. unfold get_successors. rewrite decide_True by done.
    destruct (fill_successors _ _) as [[e|[]] succ']; [|done].
    by intros [= _ ->]. }
  destruct (fill_successors_partial (λ k el, edge g k el)
              (dict_order (vertex_predecessors g))
              ((λ _, ∅) <$> vertex_predecessors g)) as [Hd Hinv].
  { intros k ps el Hin%elem_of_dict_order Hel. apply edge_lookup. eauto. }
  { intros el s. rewrite lookup_fmap.
    destruct (vertex_predecessors g !! el); [|done]. intros [= <-]. set_solver. }
  rewrite <-Hsucc in Hd, Hinv. rewrite dom_fmap_L in Hd.
  assert (succ ≠ ∅) as Hne.
  { destruct (not_keys_closed_edge g Hncl) as (a & p & He%edge_in_keys & _).
    intros ->. rewrite dom_empty_L in Hd. set_solver. }
  intros u. exists (default ∅ (succ !! u)). split.
  - unfold get_successors. simpl. by rewrite decide_False.
  - intros k Hk. destruct (succ !! u) as [s|] eqn:Hs; [|set_solver].
    by apply (Hinv u s).
Qed.

End partial_cache.

(** ** The iterator in busy mode

    With [enable_busy_state], [next_element] hands a vertex out in state
    BUSY and the caller reports its completion with [leave]; calls of the
    two may be interleaved in any order. *)

Section busy_mode.
Context {K : Type} `{Countable K} {D T : Type} `{!IterOrder K}.
Implicit Types (g : DAG K D T) (it : DAGIterator K) (w : DAGIterator K * DAG K D T).

(** The states an iterator in busy mode on [g0] can be brought to by calls
    of [next_element] and [leave], whether they return or raise. *)
Inductive busy_run (g0 : DAG K D T) : DAGIterator K * DAG K D T → Prop :=
  | busy_run_init : busy_run g0 (DAGIterator_init g0 true, g0)
  | busy_run_next w : busy_run g0 w → busy_run g0 (next_element w).2
  | busy_run_leave w id : busy_run g0 w → busy_run g0 (leave id w).2.

(** The vertices that are not VISITED yet. *)
Definition pending it : gset K :=
  dom (filter (λ kv : K * vertex_state, kv.2 ≠ VISITED) (states it)).

Lemma elem_of_pending it k :
  k ∈ pending it ↔ ∃ st, states it !! k = Some st ∧ st ≠ VISITED.
Proof.
  unfold pending. rewrite elem_of_dom. unfold is_Some.
  setoid_rewrite map_lookup_filter_Some. naive_solver.
Qed.

(** What the attributes of the iterator mean: [non_visited] holds the
    vertices in state NOT_VISITED, and [pred_number] counts, for each
    vertex, its predecessors that are not VISITED yet. *)
Record busy_inv (g0 : DAG K D T) it : Prop := {
  bi_busy : enable_busy_state it = true;
  bi_states : dom (states it) = dom (vertex_data g0);
  bi_non_visited : ∀ k, k ∈ non_visited it ↔ states it !! k = Some NOT_VISITED;
  bi_dom : dom (pred_number it) = dom (vertex_predecessors g0);
  bi_count : ∀ k, k ∈ dom (vertex_predecessors g0) →
    pred_number it !! k = Some (Z.of_nat (size (preds_of g0 k ∩ pending it)))
}.

Definition busy_world_inv (g0 : DAG K D T) w : Prop :=
  busy_inv g0 w.1 ∧ same_graph g0 w.2 ∧ cache_ok w.2.

Lemma busy_inv_init g0 : closed g0 → busy_inv g0 (DAGIterator_init g0 true).
Proof.
  intros Hcl. split; simpl.
  - done.
  - by rewrite dom_fmap_L.
  - intros k. rewrite lookup_fmap, elem_of_dom. unfold is_Some.
    destruct (vertex_data g0 !! k); naive_solver.
  - by rewrite dom_fmap_L.
  - intros k [ps Hps]%elem_of_dom. rewrite lookup_fmap, Hps. simpl.
    do 3 f_equal. unfold preds_of. rewrite Hps. simpl.
    apply set_eq. intros p. rewrite elem_of_intersection, elem_of_pending. simpl.
    split; [|naive_solver]. intros Hp. split; [done|].
    assert (p ∈ dom (vertex_data g0)) as [d Hd]%elem_of_dom.
    { apply (Hcl k), edge_lookup. eauto. }
    exists NOT_VISITED. by rewrite lookup_fmap, Hd.
Qed.

(** [next_element] in busy mode, step by step. *)
Lemma next_element_busy it g :
  enable_busy_state it = true →
  next_element (it, g) =
  if decide (non_visited it = ∅) then (inl StopIteration, (it, g))
  else match find_ready (set_order (non_visited it)) (pred_number it) with
       | inl e => (inl e, (it, g))
       | inr None => (inr None, (it, g))
       | inr (Some r) =>
           let it' := set_non_visited (λ nv, nv ∖ {[r]})
                        (set_states (λ st, <[r := BUSY]> st) it) in
           match vertex_data g !! r with
           | None => (inl KeyError, (it', g))
           | Some data => (inr (Some (r, data, preds_of g r)), (it', g))
           end
       end.
Proof.
  intros Hbusy. unfold next_element, bind, get_state. simpl.
  destruct (decide (non_visited it = ∅)); [done|].
  destruct (find_ready (set_order (non_visited it)) (pred_number it)) as [e|[r|]];
    rewrite ?Hbusy; [done| |done].
  unfold on_iter, on_dag. simpl. by destruct (vertex_data g !! r).
Qed.

(** The three ways a call of [next_element] goes in busy mode. *)
Lemma busy_next_element g0 it g :
  keys_ok g0 → busy_inv g0 it → same_graph g0 g →
  (non_visited it = ∅ ∧ next_element (it, g) = (inl StopIteration, (it, g)))
  ∨ (non_visited it ≠ ∅ ∧ next_element (it, g) = (inr None, (it, g)) ∧
     ∀ k, k ∈ non_visited it → ∃ p, edge g0 k p ∧ p ∈ pending it)
  ∨ (∃ r data,
       next_element (it, g)
       = (inr (Some (r, data, preds_of g0 r)),
          (set_non_visited (λ nv, nv ∖ {[r]}) (set_states (λ st, <[r := BUSY]> st) it), g)) ∧
       r ∈ non_visited it ∧ vertex_data g0 !! r = Some data ∧
       preds_of g0 r ∩ pending it = ∅).
Proof.
  intros Hkeys Hinv Hsame. pose proof Hsame as (Hvd & _ & Hpr & _).
  assert (∀ k, k ∈ non_visited it → k ∈ dom (vertex_predecessors g0)) as Hnv.
  { intros k Hk%(bi_non_visited g0 it Hinv). rewrite Hkeys, <-(bi_states g0 it Hinv).
    by apply elem_of_dom_2 in Hk. }
  rewrite (next_element_busy it g (bi_busy g0 it Hinv)).
  destruct (decide (non_visited it = ∅)) as [Hnone|Hsome]; [by left|right].
  destruct (find_ready (set_order (non_visited it)) (pred_number it))
    as [e|[r|]] eqn:Hfind.
  - exfalso. revert Hfind. apply find_ready_no_error.
    intros k Hk%elem_of_set_order. rewrite (bi_dom g0 it Hinv). by apply Hnv.
  - right. apply find_ready_Some in Hfind as [Hr%elem_of_set_order Hzero].
    pose proof (Hnv r Hr) as Hrk.
    rewrite (bi_count g0 it Hinv r Hrk) in Hzero.
    assert (r ∈ dom (vertex_data g0)) as [data Hdata]%elem_of_dom by by rewrite <-Hkeys.
    exists r, data. simpl.
    rewrite Hvd, Hdata, (same_graph_preds_of g0 g r Hsame).
    split; [done|]. split; [done|]. split; [done|].
    apply gset_size_zero. injection Hzero. lia.
  - left. split; [done|]. split; [done|].
    intros k Hk. pose proof Hk as Hk'%elem_of_set_order.
    destruct (find_ready_None _ _ k Hfind Hk') as (n & Hn & Hne).
    rewrite (bi_count g0 it Hinv k (Hnv k Hk)) in Hn.
    destruct (decide (preds_of g0 k ∩ pending it = ∅)) as [Hem|Hnem].
    + apply gset_size_zero in Hem. destruct Hne. injection Hn. lia.
    + apply set_choose_L in Hnem as [p Hp]. exists p. set_solver.
Qed.

(** Handing a vertex out keeps the meaning of the attributes. *)
Lemma busy_inv_hand_out g0 it r :
  busy_inv g0 it → r ∈ non_visited it →
  busy_inv g0 (set_non_visited (λ nv, nv ∖ {[r]})
                 (set_states (λ st, <[r := BUSY]> st) it)).
Proof.
  intros Hinv Hr. pose proof Hr as Hst%(bi_non_visited g0 it Hinv).
  assert (∀ k, k ∈ pending (set_non_visited (λ nv, nv ∖ {[r]})
                             (set_states (λ st, <[r := BUSY]> st) it))
               ↔ k ∈ pending it) as Hpend.
  { intros k. rewrite !elem_of_pending. simpl.
    destruct (decide (k = r)) as [->|Hne].
    - rewrite lookup_insert_eq, Hst. naive_solver.
    - by rewrite lookup_insert_ne. }
  split; simpl.
  - apply (bi_busy g0 it Hinv).
  - rewrite dom_insert_L, (bi_states g0 it Hinv).
    apply elem_of_dom_2 in Hst. rewrite (bi_states g0 it Hinv) in Hst. set_solver.
  - intros k. rewrite elem_of_difference, elem_of_singleton, (bi_non_visited g0 it Hinv).
    destruct (decide (k = r)) as [->|Hne].
    + rewrite lookup_insert_eq. naive_solver.
    + rewrite lookup_insert_ne by done. naive_solver.
  - apply (bi_dom g0 it Hinv).
  - intros k Hk. rewrite (bi_count g0 it Hinv k Hk). do 3 f_equal.
    apply set_eq. intros p. rewrite !elem_of_intersection. by rewrite Hpend.
Qed.

(** A call of [leave] that returns. *)
Lemma busy_leave g0 it g id :
  keys_ok g0 → closed g0 → busy_inv g0 it → same_graph g0 g → cache_ok g →
  states it !! id = Some BUSY →
  ∃ it' g', leave id (it, g) = (inr tt, (it', g')) ∧
    busy_inv g0 it' ∧ same_graph g0 g' ∧ cache_ok g'.
Proof.
  intros Hkeys Hcl Hinv Hsame Hcache Hst.
  assert (keys_closed g) as Hkc.
  { apply closed_keys_closed; [by eapply same_graph_keys_ok|by eapply same_graph_closed]. }
  unfold leave, bind at 1, get_state. simpl. rewrite Hst, decide_True by done.
  unfold on_iter, update_pred_numbers, on_dag, bind. simpl.
  destruct (get_successors_ok g id Hkc Hcache) as (S & g' & -> & HS & Hsame' & Hinv').
  pose proof Hsame as (_ & _ & Hpr & _).
  destruct (decr_loop (set_order S) (set_states (λ st, <[id := VISITED]> st) it) g')
    as (pn & -> & Hdpn & Hpn).
  { apply NoDup_set_order. }
  { intros k Hk%elem_of_set_order. simpl. rewrite (bi_dom g0 it Hinv), <-Hpr.
    apply HS in Hk. by eapply edge_in_keys. }
  eexists _, g'. split; [done|].
  split; [|split; [by eapply same_graph_trans|]].
  2: { right. by destruct Hsame' as (_ & _ & -> & _). }
  assert (id ∈ pending it) as Hid by (apply elem_of_pending; naive_solver).
  assert (pending (set_pred_number (λ _, pn) (set_states (λ st, <[id := VISITED]> st) it))
          = pending it ∖ {[id]}) as Hpend.
  { apply set_eq. intros k.
    rewrite elem_of_difference, elem_of_singleton, !elem_of_pending. simpl.
    destruct (decide (k = id)) as [->|Hne].
    - rewrite lookup_insert_eq. naive_solver.
    - rewrite lookup_insert_ne by done. naive_solver. }
  split; simpl.
  - apply (bi_busy g0 it Hinv).
  - rewrite dom_insert_L, (bi_states g0 it Hinv).
    apply elem_of_dom_2 in Hst. rewrite (bi_states g0 it Hinv) in Hst. set_solver.
  - intros k. rewrite (bi_non_visited g0 it Hinv).
    destruct (decide (k = id)) as [->|Hne].
    + rewrite lookup_insert_eq, Hst. naive_solver.
    + by rewrite lookup_insert_ne.
  - simpl in Hdpn. rewrite Hdpn. apply (bi_dom g0 it Hinv).
  - intros k Hk. simpl in Hpn.
    rewrite (Hpn k _ (bi_count g0 it Hinv k Hk)), Hpend.
    rewrite (size_remove_visited (preds_of g0 k) (pending it) id Hid). f_equal.
    destruct (decide (k ∈ set_order S)) as [Hin|Hin];
      rewrite elem_of_set_order, HS, (same_graph_edge g0 g k id Hsame) in Hin;
      unfold edge in Hin; [by rewrite decide_True|by rewrite decide_False].
Qed.

(** The meaning of the attributes is kept along every run. *)
Lemma busy_run_inv g0 w :
  keys_ok g0 → closed g0 → cache_ok g0 → busy_run g0 w → busy_world_inv g0 w.
Proof.
  intros Hkeys Hcl Hcache Hrun.
  induction Hrun as [|[it g] _ (Hinv & Hsame & Hc)|[it g] id _ (Hinv & Hsame & Hc)];
    simpl in *.
  - split; [by apply busy_inv_init|]. split; [apply same_graph_refl|done].
  - destruct (busy_next_element g0 it g Hkeys Hinv Hsame)
      as [[_ ->]|[(_ & -> & _)|(r & data & -> & Hr & _)]]; simpl; try done.
    split; [by apply busy_inv_hand_out|done].
  - unfold busy_world_inv.
    destruct (states it !! id) as [st|] eqn:Hst.
    + destruct (decide (st = BUSY)) as [->|Hne].
      * destruct (busy_leave g0 it g id Hkeys Hcl Hinv Hsame Hc Hst)
          as (it' & g' & -> & ?). done.
      * unfold leave, bind, get_state. simpl. rewrite Hst, decide_False by done. done.
    + unfold leave, bind, get_state. simpl. rewrite Hst. done.
Qed.

(** X11.  In busy mode, whatever calls of [next_element] and [leave] were
    made before, a vertex that [next_element] hands out was NOT_VISITED
    and becomes BUSY, it comes with its payload and its predecessors, and
    every one of its predecessors is VISITED: it has been handed out and
    left. *)
Theorem busy_next_after_predecessors g0 w r data ps w' :
  keys_ok g0 → closed g0 → cache_ok g0 → busy_run g0 w →
  next_element w = (inr (Some (r, data, ps)), w') →
  states w.1 !! r = Some NOT_VISITED ∧ states w'.1 !! r = Some BUSY ∧
  vertex_data g0 !! r = Some data ∧ ps = preds_of g0 r ∧
  ∀ p, p ∈ ps → states w.1 !! p = Some VISITED.
Proof.
  intros Hkeys Hcl Hcache Hrun Hnext. destruct w as [it g].
  destruct (busy_run_inv g0 _ Hkeys Hcl Hcache Hrun) as (Hinv & Hsame & _).
  simpl in *.
  destruct (busy_next_element g0 it g Hkeys Hinv Hsame)
    as [[_ Heq]|[(_ & Heq & _)|(r' & data' & Heq & Hr & Hdata & Hnone)]];
    rewrite Heq in Hnext; [done..|].
  injection Hnext as <- <- <- <-. simpl.
  split; [by apply (bi_non_visited g0 it Hinv)|].
  split; [by rewrite lookup_insert_eq|]. split; [done|]. split; [done|].
  intros p Hp.
  assert (p ∈ dom (states it)) as [st Hst]%elem_of_dom.
  { rewrite (bi_states g0 it Hinv). by apply (Hcl r'). }
  rewrite Hst. f_equal. destruct (decide (st = VISITED)) as [|Hne]; [done|].
  assert (p ∈ pending it) by (apply elem_of_pending; eauto). set_solver.
Qed.

(** X12.  In busy mode on a graph without cycle, [next_element] raises
    nothing but [StopIteration], and only once every vertex has been handed
    out; it answers [(None, None, None)] only while some vertex is BUSY.
    Neither changes the iterator. *)
Theorem busy_no_deadlock g0 w :
  keys_ok g0 → closed g0 → cache_ok g0 → acyclic g0 → busy_run g0 w →
  (∀ e w', next_element w = (inl e, w') →
     e = StopIteration ∧ w' = w ∧ ∀ k st, states w.1 !! k = Some st → st ≠ NOT_VISITED) ∧
  (∀ w', next_element w = (inr None, w') →
     w' = w ∧ ∃ k, states w.1 !! k = Some BUSY).
Proof.
  intros Hkeys Hcl Hcache Hac Hrun. destruct w as [it g].
  destruct (busy_run_inv g0 _ Hkeys Hcl Hcache Hrun) as (Hinv & Hsame & _).
  simpl in *.
  destruct (busy_next_element g0 it g Hkeys Hinv Hsame)
    as [[Hnone Heq]|[(Hsome & Heq & Hstuck)|(r' & data' & Heq & _)]];
    rewrite Heq; (split; [intros e w' Hnext|intros w' Hnext]); try done.
  - injection Hnext as <- <-. split; [done|]. split; [done|].
    intros k st Hst ->. apply (bi_non_visited g0 it Hinv) in Hst. set_solver.
  - injection Hnext as <-. split; [done|].
    destruct (decide (map_Exists (λ _ st, st = BUSY) (states it)))
      as [(k & st & Hk & ->)|Hnobusy]; [by exists k|].
    destruct (acyclic_not_cyclic g0 Hac). apply (stuck_cyclic g0 (non_visited it) Hsome).
    intros k Hk. destruct (Hstuck k Hk) as (p & He & (st & Hst & Hne)%elem_of_pending).
    exists p. split; [done|]. apply (bi_non_visited g0 it Hinv). rewrite Hst. f_equal.
    destruct st; [done| |done].
    destruct Hnobusy. by exists p, BUSY.
Qed.

(** *** Busy mode used sequentially *)

(** [it] with the mode [busy]. *)
Definition in_mode (busy : bool) it : DAGIterator K :=
  {| non_visited := non_visited it; states := states it;
     enable_busy_state := busy; pred_number := pred_number it |}.

(** [next_element] in strict mode, step by step. *)
Lemma next_element_strict_eq it g :
  enable_busy_state it = false →
  next_element (it, g) =
  if decide (non_visited it = ∅) then (inl StopIteration, (it, g))
  else match find_ready (set_order (non_visited it)) (pred_number it) with
       | inl e => (inl e, (it, g))
       | inr None => (inl (DAGError msg_cycle_detected), (it, g))
       | inr (Some r) =>
           match update_pred_numbers r (set_states (λ st, <[r := VISITED]> st) it, g) with
           | (inl e, w) => (inl e, w)
           | (inr _, w) =>
               let it' := set_non_visited (λ nv, nv ∖ {[r]}) w.1 in
               match vertex_data w.2 !! r with
               | None => (inl KeyError, (it', w.2))
               | Some data => (inr (Some (r, data, preds_of w.2 r)), (it', w.2))
               end
           end
       end.
Proof.
  intros Hstrict. unfold next_element, bind at 1, get_state. simpl.
  destruct (decide (non_visited it = ∅)); [done|].
  destruct (find_ready (set_order (non_visited it)) (pred_number it)) as [e|[r|]];
    rewrite ?Hstrict; [done| |done].
  unfold bind at 1. unfold bind at 1. unfold on_iter at 1. simpl.
  destruct (update_pred_numbers r _) as [[e|[]] [it1 g1]]; [done|].
  unfold bind, on_iter, on_dag, get_state. simpl. by destruct (vertex_data g1 !! r).
Qed.

(** The loop over the successors reads and writes nothing of the iterator
    but [pred_number]. *)
Lemma decr_loop_alt (l : list K) it it2 g r w :
  pred_number it2 = pred_number it →
  for_each l decr_pred_number (it, g) = (r, w) →
  for_each l decr_pred_number (it2, g)
  = (r, (set_pred_number (λ _, pred_number w.1) it2, w.2)).
Proof.
  revert it it2. induction l as [|k l IH]; intros it it2 Heq; simpl.
  - intros [= <- <-]. simpl. destruct it2; simpl in *. by subst.
  - unfold bind, decr_pred_number at 1 3. simpl. rewrite Heq.
    destruct (pred_number it !! k) as [n|].
    + intros Hrun.
      assert (pred_number (set_pred_number (λ pn, <[k := (n - 1)%Z]> pn) it2)
              = pred_number (set_pred_number (λ pn, <[k := (n - 1)%Z]> pn) it)) as Heq'.
      { simpl. by rewrite Heq. }
      exact (IH _ _ Heq' Hrun).
    + intros [= <- <-]. simpl. destruct it2; simpl in *. by subst.
Qed.

Lemma update_pred_numbers_alt it it2 g v r w :
  pred_number it2 = pred_number it →
  update_pred_numbers v (it, g) = (r, w) →
  update_pred_numbers v (it2, g)
  = (r, (set_pred_number (λ _, pred_number w.1) it2, w.2)).
Proof.
  intros Heq. unfold update_pred_numbers, bind, on_dag. simpl.
  destruct (get_successors v g) as [[e|S] g'].
  - intros [= <- <-]. simpl. destruct it2; simpl in *. by subst.
  - by apply decr_loop_alt.
Qed.

(** X13.  Busy mode used sequentially is strict mode: when [next_element]
    hands [r] out and [leave r] follows at once, the result and the state
    of the iterator are those of one [next_element] in strict mode. *)
Theorem busy_step_is_strict_step it g r data ps w1 w2 :
  enable_busy_state it = true →
  next_element (it, g) = (inr (Some (r, data, ps)), w1) →
  leave r w1 = (inr tt, w2) →
  next_element (in_mode false it, g)
  = (inr (Some (r, data, ps)), (in_mode false w2.1, w2.2)).
Proof.
  intros Hbusy Hnext Hleave.
  rewrite (next_element_busy it g Hbusy) in Hnext.
  rewrite (next_element_strict_eq (in_mode false it) g eq_refl). simpl.
  destruct (decide (non_visited it = ∅)); [done|].
  destruct (find_ready (set_order (non_visited it)) (pred_number it)) as [e|[r'|]];
    [done| |done].
  simpl in Hnext. destruct (vertex_data g !! r') as [data'|] eqn:Hdata; [|done].
  injection Hnext as <- <- <- <-.
  unfold leave, bind at 1, get_state in Hleave. simpl in Hleave.
  rewrite lookup_insert_eq, decide_True in Hleave by done.
  unfold bind at 1, on_iter at 1 in Hleave. simpl in Hleave.
  set (it1 := set_states (λ st, <[r' := VISITED]> st)
                (set_non_visited (λ nv, nv ∖ {[r']})
                   (set_states (λ st, <[r' := BUSY]> st) it))) in *.
  pose proof (update_pred_numbers_alt it1 it1 g r' (inr tt) w2 eq_refl Hleave) as Hself.
  rewrite Hleave in Hself. injection Hself as Hw2.
  rewrite (update_pred_numbers_alt it1
             (set_states (λ st, <[r' := VISITED]> st) (in_mode false it))
             g r' (inr tt) w2 eq_refl Hleave). simpl.
  assert (same_graph g w2.2) as Hsame.
  { replace w2.2 with (get_successors r' g).2; [apply get_successors_same_graph|].
    revert Hleave. unfold update_pred_numbers, bind, on_dag. simpl.
    destruct (get_successors r' g) as [[e|S] g']; [done|]. simpl.
    destruct (decr_loop_frame (set_order S) it1 g') as (pn & Hpn & _).
    intros Hrun. rewrite Hrun in Hpn. simpl in Hpn. by rewrite Hpn. }
  pose proof Hsame as (-> & _).
  rewrite Hdata, (same_graph_preds_of g w2.2 r' Hsame).
  do 2 f_equal. apply (f_equal fst) in Hw2. simpl in Hw2.
  etrans; [|exact (f_equal (in_mode false) (eq_sym Hw2))].
  unfold it1, in_mode, set_non_visited, set_pred_number, set_states. simpl.
  f_equal. by rewrite insert_insert_eq.
Qed.

End busy_mode.

(** ** Reversal and merge *)

Section algebra.
Context {K : Type} `{Countable K} {D T : Type} `{!IterOrder K}.
Implicit Types (g self other : DAG K D T) (X P : gset K) (data : option D).

(** X14.  [reverse_graph] on a graph without cycle returns a valid graph
    with the edges inverted and the tags of the original; its vertices are
    those of the original, with their payloads, and the predecessors the
    original refers to without having them as vertices, with payload
    [None].  On a graph with a cycle it raises ['cycle detected'].  Either
    way the verdict is cached in the graph it is called on, which is thus
    cached as valid whenever it has no cycle. *)
Theorem reverse_graph_spec g :
  keys_ok g →
  (acyclic g ∧
   ∃ r, reverse_graph g = (inr r, set_has_cycle (Some false) g) ∧
     valid r ∧ tags r = tags g ∧ (∀ k n, edge r k n ↔ edge g n k) ∧
     (∀ k, k ∈ dom (vertex_data r) ↔ k ∈ dom (vertex_data g) ∨ ∃ n, edge g n k) ∧
     (∀ k, k ∈ dom (vertex_data g) → vertex_data r !! k = vertex_data g !! k) ∧
     (∀ k, k ∉ dom (vertex_data g) → k ∈ dom (vertex_data r) →
        vertex_data r !! k = Some None))
  ∨ (cyclic g ∧
     reverse_graph g = (inl (DAGError msg_cycle_detected), set_has_cycle (Some true) g)).
Proof.
  intros Hkeys.
  destruct (reverse_fill_spec g Hkeys) as (r0 & Hfill & [Hk Hd Hp Hda Hf Ht Hc Hfl]).
  assert (closed r0) as Hcl0.
  { intros k n He. apply Hp in He. apply Hd. left. by eapply edge_in_keys. }
  destruct (check_uncached r0 Hk Hcl0 (or_introl Hc) Hfl)
    as [(Hac0 & r & Hcheck & Hsame & Hcache)|([v Hv] & r & Hcheck & _)]; [left|right].
  - split.
    { intros v Hv. apply (Hac0 v). eapply tc_reverse; [|exact Hv].
      intros a b He. by apply Hp. }
    exists (set_has_cycle (Some false) r).
    split; [unfold reverse_graph; by rewrite Hfill, Hcheck|].
    pose proof (same_store_set_has_cycle r0 r (Some false) (same_graph_store r0 r Hsame))
      as Hstore.
    pose proof Hstore as (Hvd' & Htg' & Hpr').
    split; [|split; [congruence|split; [|split; [|split]]]].
    + split; [by apply (same_store_keys_ok r0 _ Hstore)|done|
              by apply (same_store_acyclic r0 _ Hstore)|
              by apply (same_store_closed r0 _ Hstore)|
              by apply (same_store_acyclic r0 _ Hstore)].
    + intros k n. rewrite (same_store_edge r0 _ k n Hstore). apply Hp.
    + intros k. rewrite Hvd', Hd, Hkeys. done.
    + intros k Hin. rewrite Hvd'. apply Hda. by rewrite Hkeys.
    + intros k Hnin Hin. rewrite Hvd' in Hin |- *. apply Hf; [by rewrite Hkeys|done].
  - split.
    { exists v. eapply tc_reverse; [|exact Hv]. intros a b He. by apply Hp in He. }
    unfold reverse_graph. by rewrite Hfill, Hcheck.
Qed.

(** *** Payloads along a run of checked updates *)

(** The payloads after [update_vertex] was called with each pair of
    [l]. *)
Definition fold_data (vd : gmap K (option D)) (l : list (K * option D))
    : gmap K (option D) :=
  foldl (λ vd kd, <[kd.1 := merged_data (vd !! kd.1) kd.2]> vd) vd l.

Lemma fold_data_lookup vd (l : list (K * option D)) k :
  NoDup l.*1 →
  fold_data vd l !! k = match list_to_map (M := gmap K (option D)) l !! k with
                        | Some d => Some (merged_data (vd !! k) d)
                        | None => vd !! k
                        end.
Proof.
  revert vd. induction l as [|[k0 d0] l IH]; intros vd Hnd; [done|].
  apply NoDup_cons in Hnd as [Hk0 Hnd]. simpl. unfold fold_data in IH. rewrite IH by done.
  destruct (decide (k = k0)) as [->|Hne].
  - rewrite lookup_insert_eq.
    rewrite (not_elem_of_list_to_map_1 (M := gmap K) l k0 Hk0).
    by rewrite lookup_insert_eq.
  - by rewrite !lookup_insert_ne.
Qed.

Lemma fold_data_none vd (l : list (K * option D)) :
  (∀ k d, vd !! k = Some d → d = None) → (∀ kd, kd ∈ l → kd.2 = None) →
  ∀ k d, fold_data vd l !! k = Some d → d = None.
Proof.
  revert vd. induction l as [|[k0 d0] l IH]; intros vd Hvd Hl; [done|].
  simpl. apply IH; [|intros kd Hkd; apply Hl; by right].
  pose proof (Hl (k0, d0) ltac:(by left)) as Hd0. simpl in Hd0. subst d0.
  intros k d. destruct (decide (k = k0)) as [->|Hne].
  - rewrite lookup_insert_eq. intros [= <-]. unfold merged_data.
    destruct (vd !! k0) as [o|] eqn:Ho; [|done]. by apply (Hvd k0).
  - rewrite lookup_insert_ne by done. apply Hvd.
Qed.

Lemma list_to_map_dict_order {V} (m : gmap K V) : list_to_map (dict_order m) = m.
Proof.
  rewrite <-(list_to_map_to_list m) at 2.
  apply list_to_map_proper; [apply NoDup_dict_order_keys|apply dict_order_perm].
Qed.

(** A checked [update_vertex] that returns. *)
Lemma checked_update_data g v data po g' :
  keys_ok g → update_vertex v data po true g = (inr tt, g') →
  tags g' = tags g ∧ keys_ok g' ∧
  vertex_data g' = <[v := merged_data (vertex_data g !! v) data]> (vertex_data g).
Proof.
  intros Hkeys Hrun.
  destruct (decide (pred_arg po ⊆ dom (vertex_data g))) as [HP|HP];
    [|by rewrite update_vertex_non_existing in Hrun].
  destruct (decide (v ∈ dom (vertex_data g))) as [Hv|Hv].
  - destruct (update_vertex_checked_existing g v data po Hkeys Hv HP)
      as [(_ & _ & g3 & Hrun' & Hpr & Hvd & Htg & _)|(_ & Hrun')]; [|congruence].
    assert (g' = g3) as -> by congruence. split; [done|].
    apply elem_of_dom in Hv as [o Ho]. rewrite Ho. simpl.
    assert (vertex_data g3
            = <[v := match data with Some _ => data | None => o end]> (vertex_data g))
      as Hvd'.
    { rewrite Hvd. unfold with_data. destruct data; [done|]. by rewrite insert_id. }
    split; [|done]. unfold keys_ok. rewrite Hpr, Hvd'. simpl.
    by rewrite !dom_insert_L, Hkeys.
  - rewrite (update_vertex_new g v data po true Hv) in Hrun by done.
    injection Hrun as <-. simpl. apply not_elem_of_dom in Hv. rewrite Hv. simpl.
    split; [done|]. split; [|done]. unfold keys_ok. simpl.
    by rewrite !dom_insert_L, Hkeys.
Qed.

Lemma checked_updates_data {A} (f : A → K * option D)
    (body : A → M (DAG K D T) unit) (l : list A) g0 g :
  (∀ x g g', keys_ok g → body x g = (inr tt, g') →
     tags g' = tags g ∧ keys_ok g' ∧
     vertex_data g' = <[(f x).1 := merged_data (vertex_data g !! (f x).1) (f x).2]>
                        (vertex_data g)) →
  keys_ok g0 → for_each l body g0 = (inr tt, g) →
  tags g = tags g0 ∧ keys_ok g ∧ vertex_data g = fold_data (vertex_data g0) (f <$> l).
Proof.
  intros Hbody. revert g0. induction l as [|x l IH]; intros g0 Hkeys; simpl.
  - by intros [= <-].
  - unfold bind. destruct (body x g0) as [[e|[]] g1] eqn:Hx; [done|].
    destruct (Hbody x g0 g1 Hkeys Hx) as (Htg & Hkeys1 & Hvd).
    intros Hrun. destruct (IH g1 Hkeys1 Hrun) as (Htg' & Hkeys' & Hvd').
    split; [congruence|]. split; [done|]. by rewrite Hvd', Hvd.
Qed.

(** The loops that add the predecessors of [src] run to their end when
    the edges they add close no cycle. *)
Lemma merge_add_edges_ok (src r0 : DAG K D T) (E0 : K → K → Prop) :
  valid r0 → keys_ok src → closed src →
  dom (vertex_data src) ⊆ dom (vertex_data r0) →
  (∀ v p, edge r0 v p ↔ E0 v p) →
  (∀ v, ¬ tc (λ v p, E0 v p ∨ edge src v p) v v) →
  ∃ r, for_each (dict_order (vertex_data src))
         (λ nd, update_vertex nd.1 nd.2 (Some (set_order (preds_of src nd.1))) true) r0
       = (inr tt, r) ∧
    valid r ∧ dom (vertex_data r) = dom (vertex_data r0) ∧
    ∀ v p, edge r v p ↔ E0 v p ∨ edge src v p.
Proof.
  intros Hvalid0 Hkeys Hcl Hsub Hedges0 Hac.
  destruct (for_each_invariant
    (λ done r, valid r ∧ dom (vertex_data r) = dom (vertex_data r0) ∧
               ∀ v p, edge r v p ↔ E0 v p ∨ (v ∈ done.*1 ∧ edge src v p))
    (dict_order (vertex_data src))
    (λ nd, update_vertex nd.1 nd.2 (Some (set_order (preds_of src nd.1))) true) r0)
    as (r & Hrun & Hvalid & Hdom & Hedges).
  - split; [done|]. split; [done|]. intros v p. rewrite Hedges0. simpl.
    rewrite elem_of_nil. naive_solver.
  - intros done [nid d] todo r Hsplit (Hvalid & Hdom & Hedges). simpl.
    assert (nid ∈ dom (vertex_data src)) as Hnid.
    { apply elem_of_dict_order_keys. rewrite Hsplit, fmap_app. simpl.
      apply elem_of_app. right. left. }
    destruct (merge_edge_step r nid d (preds_of src nid) Hvalid)
      as [(r' & Hrun & Hvalid' & Hdom' & Hedges')|([v Hv] & _)].
    + rewrite Hdom. by apply Hsub.
    + rewrite Hdom. intros p Hp. apply Hsub. by apply (Hcl nid).
    + exists r'. split; [done|]. split; [done|]. split; [congruence|].
      intros v p. rewrite Hedges', Hedges, fmap_app, elem_of_app. simpl.
      rewrite list_elem_of_singleton. unfold edge. naive_solver.
    + destruct (Hac v). eapply tc_subrel; [|exact Hv].
      intros a b [[-> Hb]|[_ He]]%edge_with_preds.
      * apply elem_of_union in Hb as [Hb|Hb]; [|by right].
        apply (Hedges nid b) in Hb. naive_solver.
      * apply Hedges in He. naive_solver.
  - exists r. split; [done|]. split; [done|]. split; [done|].
    intros v p. rewrite Hedges, elem_of_dict_order_keys.
    split; [naive_solver|]. intros [?|He]; [by left|]. right. split; [|done].
    rewrite <-Hkeys. by eapply edge_in_keys.
Qed.

(** The merge of two graphs whose union has no cycle. *)
Lemma merge_outcome self other :
  keys_ok self → closed self → keys_ok other → closed other →
  (∀ v, ¬ tc (λ v p, edge self v p ∨ edge other v p) v v) →
  ∃ r, __or__ self other = inr r ∧ valid r ∧ has_cycle r = Some false ∧
    dom (vertex_data r) = dom (vertex_data self) ∪ dom (vertex_data other) ∧
    (∀ v p, edge r v p ↔ edge self v p ∨ edge other v p) ∧
    tags r = ∅ ∧
    ∀ k, vertex_data r !! k =
         match vertex_data other !! k with
         | Some (Some d) => Some (Some d)
         | Some None => Some (default None (vertex_data self !! k))
         | None => vertex_data self !! k
         end.
Proof.
  intros Hkeys Hcl Hkeys' Hcl' Hac.
  unfold __or__, merge_fill, bind.
  destruct (merge_add_vertices (D := D) (T := T) (dict_order (vertex_data self)).*1
              (NoDup_dict_order_keys _))
    as (r1 & Hrun1 & Hvalid1 & Hdom1 & Hno1).
  destruct (merge_update_vertices (dict_order (vertex_data other)).*1 r1 Hvalid1 Hno1)
    as (r2 & Hrun2 & Hvalid2 & Hdom2 & Hno2).
  assert (dom (vertex_data r2) = dom (vertex_data self) ∪ dom (vertex_data other)) as Hdom.
  { rewrite Hdom2, Hdom1. apply set_eq. intros k.
    by rewrite !elem_of_union, !elem_of_list_to_set, !elem_of_dict_order_keys. }
  destruct (merge_add_edges_ok self r2 (λ _ _, False) Hvalid2 Hkeys Hcl)
    as (r3 & Hrun3 & Hvalid3 & Hdom3 & Hedges3); [set_solver|naive_solver| |].
  { intros v Hv. apply (Hac v). eapply tc_subrel; [|exact Hv]. naive_solver. }
  destruct (merge_add_edges_ok other r3 (λ v p, False ∨ edge self v p) Hvalid3 Hkeys' Hcl')
    as (r4 & Hrun4 & Hvalid4 & Hdom4 & Hedges4); [set_solver|done| |].
  { intros v Hv. apply (Hac v). eapply tc_subrel; [|exact Hv]. naive_solver. }
  rewrite Hrun1, Hrun2, Hrun3, Hrun4.
  destruct (check_valid r4 (valid_keys _ Hvalid4) (valid_cache _ Hvalid4)
              (valid_flag _ Hvalid4) (valid_closed _ Hvalid4) (valid_acyclic _ Hvalid4))
    as (r & -> & Hsame & Hflag & Hcache).
  pose proof Hsame as (Hvd & Htg & Hpr).
  (* payloads and tags along the four loops *)
  destruct (checked_updates_data (λ nid, (nid, None)) (λ nid, add_vertex nid None None)
              (dict_order (vertex_data self)).*1 DAG_init r1) as (Htg1 & Hk1 & Hvd1);
    [|done|done|].
  { intros x g g' Hg. unfold add_vertex, bind, get_state.
    destruct (decide (x ∈ dom (vertex_data g))); [done|]. by apply checked_update_data. }
  destruct (checked_updates_data (λ nid, (nid, None))
              (λ nid, update_vertex nid None None true)
              (dict_order (vertex_data other)).*1 r1 r2) as (Htg2 & Hk2 & Hvd2);
    [|done|done|].
  { intros x g g' Hg. by apply checked_update_data. }
  destruct (checked_updates_data (λ nd, nd)
              (λ nd : K * option D,
                 update_vertex nd.1 nd.2 (Some (set_order (preds_of self nd.1))) true)
              (dict_order (vertex_data self)) r2 r3) as (Htg3 & Hk3 & Hvd3);
    [|done|done|].
  { intros x g g' Hg. by apply checked_update_data. }
  destruct (checked_updates_data (λ nd, nd)
              (λ nd : K * option D,
                 update_vertex nd.1 nd.2 (Some (set_order (preds_of other nd.1))) true)
              (dict_order (vertex_data other)) r3 r4) as (Htg4 & Hk4 & Hvd4);
    [|done|done|].
  { intros x g g' Hg. by apply checked_update_data. }
  rewrite list_fmap_id in Hvd3, Hvd4.
  exists r. split; [done|]. split; [|split; [done|split; [|split; [|split]]]].
  - split.
    + apply (same_store_keys_ok r4 r Hsame), Hvalid4.
    + done.
    + unfold flag_ok. rewrite Hflag. apply (same_store_acyclic r4 r Hsame), Hvalid4.
    + apply (same_store_closed r4 r Hsame), Hvalid4.
    + apply (same_store_acyclic r4 r Hsame), Hvalid4.
  - by rewrite Hvd, Hdom4, Hdom3.
  - intros v p. rewrite (same_store_edge r4 r v p Hsame), Hedges4. naive_solver.
  - by rewrite Htg, Htg4, Htg3, Htg2, Htg1.
  - intros k. rewrite Hvd, Hvd4, fold_data_lookup by apply NoDup_dict_order_keys.
    rewrite list_to_map_dict_order.
    rewrite Hvd3, fold_data_lookup by apply NoDup_dict_order_keys.
    rewrite list_to_map_dict_order.
    assert (∀ d, vertex_data r2 !! k = Some d → d = None) as Hnone.
    { intros d. rewrite Hvd2. apply fold_data_none.
      - rewrite Hvd1. apply fold_data_none; [done|].
        by intros kd (x & -> & _)%list_elem_of_fmap.
      - by intros kd (x & -> & _)%list_elem_of_fmap. }
    assert (k ∈ dom (vertex_data self) ∪ dom (vertex_data other)
            → vertex_data r2 !! k = Some None) as Hin.
    { rewrite <-Hdom. intros [d Hd]%elem_of_dom. by rewrite Hd, (Hnone d Hd). }
    assert (k ∉ dom (vertex_data self) ∪ dom (vertex_data other)
            → vertex_data r2 !! k = None) as Hout.
    { rewrite <-Hdom. by intros ?%not_elem_of_dom. }
    destruct (vertex_data other !! k) as [d'|] eqn:Ho,
             (vertex_data self !! k) as [d|] eqn:Hs.
    + rewrite Hin by (apply elem_of_union_l; by apply elem_of_dom_2 in Hs).
      simpl. by destruct d', d.
    + rewrite Hin by (apply elem_of_union_r; by apply elem_of_dom_2 in Ho).
      simpl. by destruct d'.
    + rewrite Hin by (apply elem_of_union_l; by apply elem_of_dom_2 in Hs).
      simpl. by destruct d.
    + apply Hout. apply not_elem_of_dom in Ho, Hs. set_solver.
Qed.

(** X15.  The merge of two graphs, the referenced predecessors of each
    being vertices of it, whose union has no cycle: [self | other] returns
    a valid graph with the vertices of both and the predecessors of both.
    The payload of a vertex is the one it has in [other] unless that is
    missing or [None], and then the one it has in [self]; the tags of
    neither graph are carried over. *)
Theorem merge_spec self other :
  keys_ok self → closed self → keys_ok other → closed other →
  (∀ v, ¬ tc (λ v p, edge self v p ∨ edge other v p) v v) →
  ∃ r, __or__ self other = inr r ∧ valid r ∧ has_cycle r = Some false ∧
    dom (vertex_data r) = dom (vertex_data self) ∪ dom (vertex_data other) ∧
    (∀ v p, edge r v p ↔ edge self v p ∨ edge other v p) ∧
    tags r = ∅ ∧
    ∀ k, vertex_data r !! k =
         match vertex_data other !! k with
         | Some (Some d) => Some (Some d)
         | Some None => Some (default None (vertex_data self !! k))
         | None => vertex_data self !! k
         end.
Proof. apply merge_outcome. Qed.

(** Two graphs with consistent keys and the same edges store the same
    predecessor dictionary. *)
Lemma same_edges_same_preds g g' :
  keys_ok g → keys_ok g' → dom (vertex_data g) = dom (vertex_data g') →
  (∀ v p, edge g v p ↔ edge g' v p) →
  vertex_predecessors g = vertex_predecessors g'.
Proof.
  intros Hkeys Hkeys' Hdom Hedges. apply map_eq. intros k.
  assert (dom (vertex_predecessors g) = dom (vertex_predecessors g')) as Hd
    by (by rewrite Hkeys, Hkeys').
  pose proof (Hedges k) as Hk. unfold edge, preds_of in Hk.
  destruct (vertex_predecessors g !! k) as [X|] eqn:HX,
           (vertex_predecessors g' !! k) as [Y|] eqn:HY; simpl in Hk.
  - f_equal. by apply set_eq.
  - apply elem_of_dom_2 in HX. apply not_elem_of_dom in HY. by rewrite Hd in HX.
  - apply elem_of_dom_2 in HY. apply not_elem_of_dom in HX. by rewrite Hd in HX.
  - done.
Qed.

(** X16.  Merging is commutative up to the payloads: under the conditions
    of the merge, [self | other] and [other | self] both return, with the
    same vertices and the same predecessor sets; the payload of a vertex
    is the same in both unless both graphs give it a payload that is not
    [None], in which case each merge has that of its right operand. *)
Theorem merge_commutes self other :
  keys_ok self → closed self → keys_ok other → closed other →
  (∀ v, ¬ tc (λ v p, edge self v p ∨ edge other v p) v v) →
  ∃ r r', __or__ self other = inr r ∧ __or__ other self = inr r' ∧
    dom (vertex_data r) = dom (vertex_data r') ∧
    vertex_predecessors r = vertex_predecessors r' ∧
    ∀ k, vertex_data r !! k = vertex_data r' !! k
         ∨ ∃ d d', vertex_data self !! k = Some (Some d) ∧
                   vertex_data other !! k = Some (Some d') ∧
                   vertex_data r !! k = Some (Some d') ∧
                   vertex_data r' !! k = Some (Some d).
Proof.
  intros Hkeys Hcl Hkeys' Hcl' Hac.
  destruct (merge_outcome self other Hkeys Hcl Hkeys' Hcl' Hac)
    as (r & Hrun & Hvalid & _ & Hdom & Hedges & _ & Hdata).
  destruct (merge_outcome other self Hkeys' Hcl' Hkeys Hcl)
    as (r' & Hrun' & Hvalid' & _ & Hdom' & Hedges' & _ & Hdata').
  { intros v Hv. apply (Hac v). eapply tc_subrel; [|exact Hv]. naive_solver. }
  exists r, r'. split; [done|]. split; [done|].
  assert (dom (vertex_data r) = dom (vertex_data r')) as Heq
    by (rewrite Hdom, Hdom'; set_solver).
  split; [done|]. split.
  - apply same_edges_same_preds; [apply Hvalid|apply Hvalid'|done|].
    intros v p. rewrite Hedges, Hedges'. naive_solver.
  - intros k. rewrite Hdata, Hdata'.
    destruct (vertex_data self !! k) as [[d|]|], (vertex_data other !! k) as [[d'|]|];
      simpl; eauto 10.
Qed.

(** X17.  Closure and predecessors in the reversed graph: on a valid
    graph, the predecessors of [v] in [reverse_graph] are the vertices that
    have [v] among their predecessors, and [get_closure v] on the reversed
    graph is the set of the vertices from which [v] can be reached along
    predecessor edges. *)
Theorem reverse_graph_closure g v :
  valid g →
  ∃ r g1 C r1, reverse_graph g = (inr r, g1) ∧
    get_predecessors v r = (inr (preds_of r v), r) ∧
    (∀ u, u ∈ preds_of r v ↔ v ∈ preds_of g u) ∧
    get_closure v r = (inr C, r1) ∧ ∀ u, u ∈ C ↔ tc (edge g) u v.
Proof.
  intros [Hkeys Hcache Hflag Hcl Hac].
  destruct (reverse_graph_valid g Hkeys Hcl Hac)
    as (r & Hrun & _ & _ & Hedges & Hkeys' & Hcache' & Hflag' & Hcl' & Hac').
  destruct (get_closure_valid r v Hkeys' Hcache' Hflag' Hcl' Hac')
    as (C & r1 & Hclo & HC & _).
  exists r, (set_has_cycle (Some false) g), C, r1.
  split; [done|]. split; [done|]. split; [intros u; apply Hedges|]. split; [done|].
  intros u. rewrite HC. split; apply tc_reverse; intros a b; apply Hedges.
Qed.

End algebra.

(** ** Tag context *)

Section context_properties.
Context {K : Type} `{Countable K} {D T : Type} `{!IterOrder K}.
Implicit Types (g s : DAG K D T) (it : DAGIterator K) (vis clo : gset K)
  (tgs res : list (Z * K * T)) (tg : gmap K (option T)).

(** *** The methods that only read the graph, or fill its caches, keep its
    tags *)

Lemma update_pred_numbers_graph it g v :
  same_graph g (update_pred_numbers v (it, g)).2.2.
Proof.
  unfold update_pred_numbers, bind, on_dag. simpl.
  pose proof (get_successors_same_graph g v) as Hsame.
  destruct (get_successors v g) as [[e|S] g']; simpl in *; [done|].
  destruct (decr_loop_frame (set_order S) it g') as (pn & -> & _). done.
Qed.

Lemma next_element_graph it g : same_graph g (next_element (it, g)).2.2.
Proof.
  destruct (enable_busy_state it) eqn:Hmode.
  - rewrite (next_element_busy it g Hmode).
    destruct (decide _); [apply same_graph_refl|].
    destruct (find_ready _ _) as [e|[r|]]; try apply same_graph_refl.
    simpl. destruct (vertex_data g !! r); apply same_graph_refl.
  - rewrite (next_element_strict_eq it g Hmode).
    destruct (decide _); [apply same_graph_refl|].
    destruct (find_ready _ _) as [e|[r|]]; try apply same_graph_refl.
    pose proof (update_pred_numbers_graph
                  (set_states (λ st, <[r := VISITED]> st) it) g r) as Hsame.
    destruct (update_pred_numbers r _) as [[e|[]] [it1 g1]]; simpl in *; [done|].
    by destruct (vertex_data g1 !! r).
Qed.

Lemma iterate_graph fuel it g : same_graph g (iterate fuel (it, g)).2.2.
Proof.
  revert it g. induction fuel as [|fuel IH]; intros it g; simpl; [apply same_graph_refl|].
  pose proof (next_element_graph it g) as Hsame.
  unfold next, bind. destruct (next_element (it, g)) as [[e|x] [it' g']]; simpl in *.
  - by destruct e.
  - pose proof (IH it' g') as Hsame'.
    destruct (iterate fuel (it', g')) as [[e|xs] w]; simpl in *;
      by eapply same_graph_trans.
Qed.

Lemma check_same_store g : same_store g (check g).2.
Proof.
  unfold check. destruct (has_cycle g) as [[]|]; try apply same_store_refl.
  destruct (existsb _ _); [apply same_store_set_has_cycle, same_store_refl|].
  pose proof (iterate_graph (S (size (non_visited (DAGIterator_init g false))))
                (DAGIterator_init g false) g) as Hsame.
  apply same_graph_store in Hsame.
  destruct (iterate _ _) as [[e|xs] w]; simpl in *.
  - destruct e; simpl; done || by apply same_store_set_has_cycle.
  - by apply same_store_set_has_cycle.
Qed.

(** *** What [get_context] returns *)

Definition node_of (x : Z * K * T) : K := x.1.2.

(** The entries found so far: no vertex twice, every vertex visited and
    listed with its own tag at a distance that satisfies [okd], and fewer
    entries than a positive [max_element]. *)
Record context_inv tg (okd : Z → Prop) (me : option Z) vis tgs : Prop := {
  cx_nodup : NoDup (node_of <$> tgs);
  cx_entries : ∀ d n t, (d, n, t) ∈ tgs → n ∈ vis ∧ mjoin (tg !! n) = Some t ∧ okd d;
  cx_length : ∀ m, me = Some m → (0 < m)%Z → (Z.of_nat (length tgs) < m)%Z
}.

Definition context_ok tg (okd : Z → Prop) (me : option Z) res : Prop :=
  NoDup (node_of <$> res) ∧
  (∀ d n t, (d, n, t) ∈ res → mjoin (tg !! n) = Some t ∧ okd d) ∧
  (∀ m, me = Some m → (0 < m)%Z → (Z.of_nat (length res) ≤ m)%Z).

Lemma context_inv_ok tg okd me vis tgs :
  context_inv tg okd me vis tgs → context_ok tg okd me tgs.
Proof.
  intros [Hnd Hent Hlen]. split; [done|]. split.
  - intros d n t Hin. by destruct (Hent d n t Hin) as (_ & ? & ?).
  - intros m Hm Hpos. specialize (Hlen m Hm Hpos). lia.
Qed.

Lemma context_pass_sound (gn : K → M (DAG K D T) (gset K)) (okd : Z → Prop) me d
    (l : list K) vis tgs clo s r s' :
  (∀ n s, tags (gn n s).2 = tags s) → okd d →
  NoDup l → (∀ n, n ∈ l → n ∉ vis) → context_inv (tags s) okd me vis tgs →
  context_pass gn me d l vis tgs clo s = (inr r, s') →
  tags s' = tags s ∧
  match r with
  | inl res => context_ok (tags s) okd me res
  | inr (vis', tgs', _) => context_inv (tags s) okd me vis' tgs'
  end.
Proof.
  intros Hgn Hd. revert vis tgs clo s.
  induction l as [|n l IH]; intros vis tgs clo s Hnd Hl Hinv.
  - rewrite context_pass_nil. by intros [= <- <-].
  - apply NoDup_cons in Hnd as [Hn Hnd].
    assert (∀ n', n' ∈ l → n' ∉ vis ∪ {[n]}) as Hl'.
    { intros n' Hn' [Hin| ->%elem_of_singleton]%elem_of_union; [|done].
      apply (Hl n'); [by right|done]. }
    rewrite context_pass_cons. unfold bind. rewrite get_tag_eq.
    destruct (mjoin (tags s !! n)) as [t|] eqn:Ht.
    + destruct Hinv as [Hnd0 Hent Hlen].
      assert (NoDup (node_of <$> tgs ++ [(d, n, t)])) as Hnd1.
      { rewrite fmap_app. apply NoDup_app. split; [done|]. split; [|apply NoDup_singleton].
        intros x ([[d' n'] t'] & -> & Hin)%list_elem_of_fmap Hx%list_elem_of_singleton.
        unfold node_of in Hx. simpl in Hx. subst n'.
        destruct (Hent d' n t' Hin) as (Hvis & _). apply (Hl n); [by left|done]. }
      assert (∀ d' n' t', (d', n', t') ∈ tgs ++ [(d, n, t)] →
                n' ∈ vis ∪ {[n]} ∧ mjoin (tags s !! n') = Some t' ∧ okd d') as Hent1.
      { intros d' n' t' [Hin|[= -> -> ->]%list_elem_of_singleton]%elem_of_app.
        - destruct (Hent d' n' t' Hin) as (? & ? & ?). set_solver.
        - split; [set_solver|done]. }
      case_decide as Hme.
      * intros [= <- <-]. split; [done|]. split; [done|]. split.
        -- intros d' n' t' Hin. by destruct (Hent1 d' n' t' Hin) as (_ & ? & ?).
        -- intros m Hm _. rewrite Hme in Hm. injection Hm as <-. lia.
      * apply IH; [done|done|]. split; [done|done|].
        intros m Hm Hpos. specialize (Hlen m Hm Hpos).
        rewrite length_app in Hme |- *. simpl in *.
        assert (m ≠ Z.of_nat (length tgs + 1)) by congruence. lia.
    + pose proof (Hgn n s) as Htags.
      destruct (gn n s) as [[e|next] s1]; [done|]. simpl in Htags.
      intros Hrun. rewrite <-Htags in Hinv |- *.
      apply (IH (vis ∪ {[n]}) tgs (clo ∪ next) s1); [done|done| |done].
      destruct Hinv as [Hnd0 Hent Hlen]. split; [done| |done].
      intros d' n' t' Hin. destruct (Hent d' n' t' Hin) as (? & ? & ?). set_solver.
Qed.

(** The distances of the entries found in the loop. *)
Definition in_range (md : option Z) (d : Z) : Prop :=
  (1 ≤ d)%Z ∧ ∀ m, md = Some m → (d ≤ m)%Z.

Lemma context_loop_sound fuel (gn : K → M (DAG K D T) (gset K)) md me d
    vis tgs clo len s res s' :
  (∀ n s, tags (gn n s).2 = tags s) → (0 ≤ d)%Z →
  context_inv (tags s) (in_range md) me vis tgs →
  context_loop fuel gn md me d vis tgs clo len s = (inr res, s') →
  context_ok (tags s) (in_range md) me res.
Proof.
  intros Hgn. revert d vis tgs clo len s.
  induction fuel as [|fuel IH]; intros d vis tgs clo len s Hd Hinv; [done|].
  rewrite context_loop_S.
  destruct (match md with Some md0 => bool_decide (md0 < d + 1)%Z | None => false end)
    eqn:Hmd.
  - intros [= <- <-]. by eapply context_inv_ok.
  - assert (in_range md (d + 1)) as Hrange.
    { split; [lia|]. intros m ->. apply bool_decide_eq_false in Hmd. lia. }
    unfold bind.
    destruct (context_pass gn me (d + 1) (set_order (clo ∖ vis)) vis tgs clo s)
      as [[e|r] s1] eqn:Hpass; [done|].
    apply (context_pass_sound gn (in_range md)) in Hpass as [Htags Hr];
      [|done|done|apply NoDup_set_order| |done].
    2: { intros n Hn%elem_of_set_order. set_solver. }
    destruct r as [res'|[[vis' tgs'] clo']].
    + by intros [= <- <-].
    + case_decide.
      * intros [= <- <-]. by eapply context_inv_ok.
      * intros Hrun. rewrite <-Htags in Hr |- *.
        apply (IH (d + 1)%Z vis' tgs' clo' (size clo') s1); [lia|done|done].
Qed.

(** X18.  Whatever [get_context] returns, along predecessors or along
    successors: no vertex is listed twice; every entry gives a vertex with
    the tag it carries; the distance is 0 for the vertex asked for, and
    otherwise at least 1 and at most [max_distance]; and there are at
    most [max_element] entries when [max_element] is positive. *)
Theorem get_context_sound g v md me rev res g' :
  get_context v md me rev g = (inr res, g') →
  NoDup (node_of <$> res) ∧
  (∀ d n t, (d, n, t) ∈ res →
     mjoin (tags g !! n) = Some t ∧
     ((d = 0 ∧ n = v) ∨ (1 ≤ d ∧ ∀ m, md = Some m → d ≤ m))%Z) ∧
  (∀ m, me = Some m → (0 < m)%Z → (Z.of_nat (length res) ≤ m)%Z).
Proof.
  unfold get_context, bind at 1.
  pose proof (check_same_store g) as (_ & Htg & _).
  destruct (check g) as [[e|[]] g1]; [done|]. simpl in Htg. cbv zeta.
  set (gn := λ vid : K, if rev then get_successors vid else get_predecessors vid).
  assert (∀ n s, tags (gn n s).2 = tags s) as Hgn.
  { intros n s. unfold gn. destruct rev; [|done].
    by destruct (get_successors_same_graph s n) as (_ & ? & _). }
  unfold bind at 1. rewrite get_tag_eq, Htg.
  destruct (mjoin (tags g !! v)) as [t|] eqn:Ht.
  - intros [= <- <-]. split; [apply NoDup_singleton|]. split.
    + intros d n t' [= -> -> ->]%list_elem_of_singleton. split; [done|by left].
    + intros m _ Hpos. simpl. lia.
  - unfold bind at 1. pose proof (Hgn v g1) as Htg1.
    change ((if rev then get_successors v else get_predecessors v) g1) with (gn v g1).
    destruct (gn v g1) as [[e|clo] g2]; [done|]. simpl in Htg1.
    unfold bind, get_state. intros Hrun.
    apply (context_loop_sound _ gn) in Hrun as (Hnd & Hent & Hlen); [|done|lia|].
    + rewrite Htg1, Htg in Hent. split; [done|]. split; [|done].
      intros d n t Hin. destruct (Hent d n t Hin) as [? ?]. split; [done|by right].
    + split; [apply NoDup_nil_2|intros d n t Hin; by apply elem_of_nil in Hin|].
      intros m _ Hpos. simpl. lia.
Qed.

(** *** [max_element] below 1 *)

Lemma context_pass_no_limit (gn : K → M (DAG K D T) (gset K)) m d (l : list K)
    vis tgs clo s :
  (m ≤ 0)%Z →
  context_pass gn (Some m) d l vis tgs clo s = context_pass gn None d l vis tgs clo s.
Proof.
  intros Hm. revert vis tgs clo s. induction l as [|n l IH]; intros vis tgs clo s; [done|].
  rewrite !context_pass_cons. unfold bind. rewrite get_tag_eq.
  destruct (mjoin (tags s !! n)) as [t|].
  - rewrite !decide_False; [apply IH|done|].
    rewrite length_app. simpl. intros [= ->]. lia.
  - destruct (gn n s) as [[e|next] s1]; [done|apply IH].
Qed.

Lemma context_loop_no_limit fuel (gn : K → M (DAG K D T) (gset K)) md m d
    vis tgs clo len s :
  (m ≤ 0)%Z →
  context_loop fuel gn md (Some m) d vis tgs clo len s
  = context_loop fuel gn md None d vis tgs clo len s.
Proof.
  intros Hm. revert d vis tgs clo len s.
  induction fuel as [|fuel IH]; intros d vis tgs clo len s; [done|].
  rewrite !context_loop_S.
  destruct (match md with Some md0 => bool_decide (md0 < d + 1)%Z | None => false end);
    [done|].
  unfold bind. rewrite context_pass_no_limit by done.
  destruct (context_pass gn None (d + 1) (set_order (clo ∖ vis)) vis tgs clo s)
    as [[e|[res|[[vis' tgs'] clo']]] s1]; [done|done|].
  case_decide; [done|apply IH].
Qed.

(** [get_context], step by step. *)
Lemma get_context_unfold g v md me rev :
  get_context v md me rev g =
  match check g with
  | (inl e, g1) => (inl e, g1)
  | (inr _, g1) =>
      match mjoin (tags g1 !! v) with
      | Some t => (inr [(0%Z, v, t)], g1)
      | None =>
          match (if rev then get_successors v else get_predecessors v) g1 with
          | (inl e, g2) => (inl e, g2)
          | (inr clo, g2) =>
              context_loop (S (size (all_ids g2)))
                (λ vid, if rev then get_successors vid else get_predecessors vid)
                md me 0 ∅ [] clo (size clo) g2
          end
      end
  end.
Proof.
  unfold get_context, bind. destruct (check g) as [[e|[]] g1]; [done|].
  rewrite get_tag_eq. destruct (mjoin (tags g1 !! v)); [done|].
  by destruct ((if rev then get_successors v else get_predecessors v) g1)
    as [[e|clo] g2].
Qed.

(** X19.  A [max_element] of 0, or a negative one, limits nothing: the
    number of entries is compared with it only after an entry was added.
    [get_context] then does what it does without [max_element]. *)
Theorem get_context_max_element_below_one g v md m rev :
  (m ≤ 0)%Z → get_context v md (Some m) rev g = get_context v md None rev g.
Proof.
  intros Hm. rewrite !get_context_unfold.
  destruct (check g) as [[e|[]] g1]; [done|].
  destruct (mjoin (tags g1 !! v)); [done|].
  destruct ((if rev then get_successors v else get_predecessors v) g1)
    as [[e|clo] g2]; [done|].
  by apply context_loop_no_limit.
Qed.

(** X20.  A vertex that carries a tag is its own context: after
    [add_tag v t] on a valid graph, [get_context v] returns the one entry
    [(0, v, t)], whatever [max_distance] and [max_element] are (below 1
    included), in both directions, and whether or not [v] is a vertex of
    the graph. *)
Theorem get_context_tagged_vertex g v (t : T) md me rev :
  valid g →
  ∃ g', get_context v md me rev (add_tag v (Some t) g).2 = (inr [(0%Z, v, t)], g').
Proof.
  intros [Hkeys Hcache Hflag Hcl Hac].
  set (g1 := (add_tag v (Some t) g).2).
  destruct (check_valid g1 Hkeys Hcache Hflag Hcl Hac) as (g2 & Hcheck & Hsame & _).
  exists g2. unfold get_context, bind. rewrite Hcheck, get_tag_eq.
  destruct Hsame as (_ & -> & _). unfold g1. simpl. by rewrite lookup_insert_eq.
Qed.

(** *** The search without limits *)

(** [untagged_path g v n]: [n] can be reached from [v] along predecessor
    edges through vertices that carry no tag ([v] and [n] apart). *)
Inductive untagged_path g (v : K) : K → Prop :=
  | untagged_path_edge n : edge g v n → untagged_path g v n
  | untagged_path_step u n :
      untagged_path g v u → mjoin (tags g !! u) = None → edge g u n →
      untagged_path g v n.

Lemma untagged_path_same_store g g' v n :
  same_store g g' → untagged_path g' v n → untagged_path g v n.
Proof.
  intros Hsame Hpath. pose proof Hsame as (_ & Htg & _).
  induction Hpath as [n He|u n _ IH Hu He].
  - apply untagged_path_edge. by apply (same_store_edge g g').
  - apply (untagged_path_step g v u); [done|by rewrite <-Htg|].
    by apply (same_store_edge g g').
Qed.

(** The state of the search along predecessors: [closure] holds vertices
    reached through untagged ones, it holds the predecessors of every
    untagged vertex that was visited, and the tagged vertices that were
    visited are exactly those of the entries. *)
Record search_inv s (v : K) vis tgs clo : Prop := {
  sr_start : preds_of s v ⊆ clo;
  sr_expanded : ∀ u, u ∈ vis → mjoin (tags s !! u) = None → preds_of s u ⊆ clo;
  sr_found : ∀ u t, u ∈ vis → mjoin (tags s !! u) = Some t → ∃ d, (d, u, t) ∈ tgs;
  sr_reached : ∀ x, x ∈ clo → untagged_path s v x;
  sr_entries : ∀ d n t, (d, n, t) ∈ tgs → n ∈ vis ∧ mjoin (tags s !! n) = Some t;
  sr_visited : vis ⊆ clo
}.

Lemma context_pass_search s v d (l : list K) vis tgs clo :
  search_inv s v vis tgs clo → (∀ n, n ∈ l → n ∈ clo) →
  ∃ vis' tgs' clo',
    context_pass get_predecessors None d l vis tgs clo s
    = (inr (inr (vis', tgs', clo')), s) ∧
    search_inv s v vis' tgs' clo' ∧ vis' = vis ∪ list_to_set l ∧ clo ⊆ clo'.
Proof.
  revert vis tgs clo. induction l as [|n l IH]; intros vis tgs clo Hinv Hl.
  - rewrite context_pass_nil. exists vis, tgs, clo.
    split; [done|]. split; [done|]. split; [|done]. simpl. set_solver.
  - rewrite context_pass_cons. unfold bind. rewrite get_tag_eq.
    destruct Hinv as [Hstart Hexp Hfound Hreach Hent Hvis].
    pose proof (Hl n ltac:(by left)) as Hn.
    destruct (mjoin (tags s !! n)) as [t|] eqn:Ht.
    + rewrite decide_False by done.
      destruct (IH (vis ∪ {[n]}) (tgs ++ [(d, n, t)]) clo) as (vis' & tgs' & clo' & HH).
      * split; [done| | | done | |set_solver].
        -- intros u [Hu| ->%elem_of_singleton]%elem_of_union Hnone; [by apply Hexp|].
           congruence.
        -- intros u t' [Hu| ->%elem_of_singleton]%elem_of_union Hsome.
           ++ destruct (Hfound u t' Hu Hsome) as [d' Hd']. exists d'.
              apply elem_of_app. by left.
           ++ exists d. apply elem_of_app. right. apply list_elem_of_singleton. congruence.
        -- intros d' n' t' [Hin|[= -> -> ->]%list_elem_of_singleton]%elem_of_app.
           ++ destruct (Hent d' n' t' Hin). set_solver.
           ++ split; [set_solver|done].
      * intros n' Hn'. apply Hl. by right.
      * destruct HH as (-> & Hinv' & -> & Hsub).
        exists (vis ∪ {[n]} ∪ list_to_set l), tgs', clo'.
        split; [done|]. split; [done|]. split; [|done]. simpl. set_solver.
    + rewrite get_predecessors_eq.
      destruct (IH (vis ∪ {[n]}) tgs (clo ∪ preds_of s n)) as (vis' & tgs' & clo' & HH).
      * split.
        -- set_solver.
        -- intros u [Hu| ->%elem_of_singleton]%elem_of_union Hnone; [|set_solver].
           specialize (Hexp u Hu Hnone). set_solver.
        -- intros u t' [Hu| ->%elem_of_singleton]%elem_of_union Hsome;
             [by apply Hfound|congruence].
        -- intros x [Hx|Hx]%elem_of_union; [by apply Hreach|].
           by apply (untagged_path_step s v n); [apply Hreach| |].
        -- intros d' n' t' Hin. destruct (Hent d' n' t' Hin). set_solver.
        -- set_solver.
      * intros n' Hn'. apply elem_of_union_l, Hl. by right.
      * destruct HH as (-> & Hinv' & -> & Hsub).
        exists (vis ∪ {[n]} ∪ list_to_set l), tgs', clo'.
        split; [done|]. split; [done|]. split; [simpl; set_solver|set_solver].
Qed.

Lemma context_loop_search fuel s v d vis tgs clo res s' :
  search_inv s v vis tgs clo →
  context_loop fuel get_predecessors None None d vis tgs clo (size clo) s
  = (inr res, s') →
  ∀ n t, (∃ d', (d', n, t) ∈ res) ↔ untagged_path s v n ∧ mjoin (tags s !! n) = Some t.
Proof.
  revert d vis tgs clo res s'.
  induction fuel as [|fuel IH]; intros d vis tgs clo res s' Hinv; [done|].
  rewrite context_loop_S. unfold bind.
  destruct (context_pass_search s v (d + 1) (set_order (clo ∖ vis)) vis tgs clo Hinv)
    as (vis' & tgs' & clo' & -> & Hinv' & Hvis' & Hsub).
  { intros n Hn%elem_of_set_order. set_solver. }
  case_decide as Hsize; [|by apply IH].
  intros [= <- <-] n t.
  assert (clo = clo') as <- by (apply set_subseteq_size_eq; [done|lia]).
  destruct Hinv' as [Hstart Hexp Hfound Hreach Hent Hvis].
  assert (clo ⊆ vis') as Hall.
  { rewrite Hvis', list_to_set_set_order. intros x Hx.
    destruct (decide (x ∈ vis)); set_solver. }
  split.
  - intros [d' Hin]. destruct (Hent d' n t Hin) as [Hn Ht]. split; [|done].
    by apply Hreach, Hvis.
  - intros [Hpath Ht]. apply Hfound; [|done]. apply Hall.
    clear Ht. induction Hpath as [n He|u n _ IHu Hu He]; [by apply Hstart|].
    by apply (Hexp u); [apply Hall| |].
Qed.

(** X21.  Without [max_distance] and [max_element], [get_context] along
    predecessors from a vertex that carries no tag lists exactly the tagged
    vertices that can be reached through vertices without tag: the nearest
    tag on every branch, and nothing behind a tagged vertex unless another
    branch leads to it. *)
Theorem get_context_nearest_tags g v res g' :
  mjoin (tags g !! v) = None →
  get_context v None None false g = (inr res, g') →
  ∀ n t, (∃ d, (d, n, t) ∈ res) ↔ untagged_path g v n ∧ mjoin (tags g !! n) = Some t.
Proof.
  intros Hv. rewrite get_context_unfold.
  pose proof (check_same_store g) as Hsame.
  destruct (check g) as [[e|[]] g1]; [done|]. simpl in Hsame.
  pose proof Hsame as (_ & Htg & Hpr). rewrite Htg, Hv, get_predecessors_eq.
  intros Hrun n t.
  assert (search_inv g1 v ∅ [] (preds_of g1 v)) as Hinv.
  { split; [done|set_solver|set_solver| |
            intros d' n' t' Hin; by apply elem_of_nil in Hin|set_solver].
    intros x Hx. by apply untagged_path_edge. }
  rewrite (context_loop_search _ g1 v 0 ∅ [] (preds_of g1 v) res g' Hinv Hrun n t), Htg.
  split; intros [Hpath Ht]; (split; [|done]).
  - by apply (untagged_path_same_store g g1).
  - apply (untagged_path_same_store g1 g); [|done].
    by apply same_store_sym.
Qed.

End context_properties.

(** ** Graphs built through the methods *)

Section call_sequences.
Context {K : Type} `{Countable K} {D T : Type} `{!IterOrder K}.
Implicit Types (g s : DAG K D T) (vis clo : gset K) (tgs : list (Z * K * T)).

(** A call of a method of [DAG] that can write to the graph, its caches
    included.  The caller may catch what the call raises: what counts is
    the state the graph is left in. *)
Inductive call : Type :=
  | call_add_vertex (v : K) (data : option D) (po : option (list K))
  | call_update_vertex (v : K) (data : option D) (po : option (list K)) (checks : bool)
  | call_add_tag (v : K) (t : option T)
  | call_get_successors (v : K)
  | call_check
  | call_get_closure (v : K)
  | call_get_context (v : K) (md me : option Z) (rev : bool)
  | call_reverse_graph.

Definition do_call (c : call) g : DAG K D T :=
  match c with
  | call_add_vertex v data po => (add_vertex v data po g).2
  | call_update_vertex v data po checks => (update_vertex v data po checks g).2
  | call_add_tag v t => (add_tag v t g).2
  | call_get_successors v => (get_successors v g).2
  | call_check => (check g).2
  | call_get_closure v => (get_closure v g).2
  | call_get_context v md me rev => (get_context v md me rev g).2
  | call_reverse_graph => (reverse_graph g).2
  end.

(** The calls that do not switch the checks off. *)
Definition checked (c : call) : Prop :=
  match c with
  | call_update_vertex _ _ _ false => False
  | _ => True
  end.

(** What the search of [get_context] keeps, when the function it follows
    the edges with keeps it. *)
Lemma context_pass_preserves (P : DAG K D T → Prop) (gn : K → M (DAG K D T) (gset K))
    me d (l : list K) vis tgs clo s :
  (∀ n s, P s → P (gn n s).2) → P s → P (context_pass gn me d l vis tgs clo s).2.
Proof.
  intros Hgn. revert vis tgs clo s. induction l as [|n l IH]; intros vis tgs clo s Hs; [done|].
  rewrite context_pass_cons. unfold bind. rewrite get_tag_eq.
  destruct (mjoin (tags s !! n)).
  - case_decide; [done|by apply IH].
  - pose proof (Hgn n s Hs) as Hs1. destruct (gn n s) as [[e|next] s1]; [done|].
    by apply IH.
Qed.

Lemma context_loop_preserves (P : DAG K D T → Prop) fuel
    (gn : K → M (DAG K D T) (gset K)) md me d vis tgs clo len s :
  (∀ n s, P s → P (gn n s).2) → P s →
  P (context_loop fuel gn md me d vis tgs clo len s).2.
Proof.
  intros Hgn. revert d vis tgs clo len s.
  induction fuel as [|fuel IH]; intros d vis tgs clo len s Hs; [done|].
  rewrite context_loop_S.
  destruct (match md with Some md0 => bool_decide (md0 < d + 1)%Z | None => false end);
    [done|].
  unfold bind.
  pose proof (context_pass_preserves P gn me (d + 1) (set_order (clo ∖ vis))
                vis tgs clo s Hgn Hs) as Hs1.
  destruct (context_pass gn me (d + 1) (set_order (clo ∖ vis)) vis tgs clo s)
    as [[e|[res|[[vis' tgs'] clo']]] s1]; [done|done|].
  case_decide; [done|by apply IH].
Qed.

Lemma get_context_preserves (P : DAG K D T → Prop) g v md me rev :
  (∀ s, P s → P (check s).2) → (∀ n s, P s → P (get_successors n s).2) →
  P g → P (get_context v md me rev g).2.
Proof.
  intros Hcheck Hsucc Hg. rewrite get_context_unfold.
  specialize (Hcheck g Hg). destruct (check g) as [[e|[]] g1]; [done|].
  destruct (mjoin (tags g1 !! v)); [done|].
  assert (∀ n s, P s → P ((if rev then get_successors n else get_predecessors n) s).2)
    as Hgn by (intros n s Hs; destruct rev; [by apply Hsucc|done]).
  pose proof (Hgn v g1 Hcheck) as Hg2.
  destruct ((if rev then get_successors v else get_predecessors v) g1)
    as [[e|clo] g2]; [done|].
  by apply (context_loop_preserves P _ (λ n, if rev then get_successors n
                                             else get_predecessors n)).
Qed.

(** X22.  The store invariant.  Whatever methods were called on a graph
    since it was created, unchecked updates included, and whether they
    returned or raised: the payloads and the predecessor sets have the
    same keys; the validity flag, when set, tells the truth; and the
    successor cache is cleared or is the exact inverse of the predecessor
    sets, as long as every referenced predecessor is a vertex. *)
Theorem store_invariant (calls : list call) :
  let g := foldl (λ g c, do_call c g) DAG_init calls in
  keys_ok g ∧ flag_ok g ∧ (closed g → cache_ok g).
Proof.
  cut (dag_inv (foldl (λ g c, do_call c g) DAG_init calls)).
  { intros Hinv. pose proof Hinv as (Hkeys & Hflag & _).
    split; [done|]. split; [done|]. intros Hcl.
    by destruct (dag_inv_closed _ Hinv Hcl) as (_ & ? & _). }
  induction calls as [|c calls IH] using rev_ind; [apply dag_inv_init|].
  rewrite foldl_app. simpl. destruct c; simpl.
  - by apply add_vertex_inv.
  - by apply update_vertex_inv.
  - by apply add_tag_inv.
  - by apply get_successors_inv.
  - by apply check_inv.
  - by apply get_closure_inv.
  - apply get_context_preserves;
      [apply check_inv|intros n s; apply get_successors_inv|done].
  - by apply reverse_graph_inv.
Qed.

(** *** Checked calls keep a graph valid *)

Lemma flag_ok_same_graph g g' : same_graph g g' → flag_ok g → flag_ok g'.
Proof.
  intros Hsame. pose proof Hsame as (_ & _ & _ & Hfl). unfold flag_ok. rewrite Hfl.
  destruct (has_cycle g) as [[]|]; [|by apply same_graph_acyclic|done].
  intros Hg Hcl. apply (same_graph_cyclic g' g); [by apply same_graph_sym|].
  apply Hg. by apply (same_graph_closed g' g); [apply same_graph_sym|].
Qed.

Lemma get_successors_valid g v : valid g → valid (get_successors v g).2.
Proof.
  intros [Hkeys Hcache Hflag Hcl Hac].
  destruct (get_successors_ok g v (closed_keys_closed g Hkeys Hcl) Hcache)
    as (S & g' & -> & _ & Hsame & Hinv). simpl.
  split; [by eapply same_graph_keys_ok| |by eapply flag_ok_same_graph|
          by eapply same_graph_closed|by eapply same_graph_acyclic].
  right. by destruct Hsame as (_ & _ & -> & _).
Qed.

Lemma check_keeps_valid g : valid g → valid (check g).2.
Proof.
  intros [Hkeys Hcache Hflag Hcl Hac].
  destruct (check_valid g Hkeys Hcache Hflag Hcl Hac) as (g' & -> & Hsame & Hfl & Hc).
  simpl. split; [by apply (same_store_keys_ok g g')|done| |
                 by apply (same_store_closed g g')|by apply (same_store_acyclic g g')].
  unfold flag_ok. rewrite Hfl. by apply (same_store_acyclic g g').
Qed.

Lemma get_closure_keeps_valid g v : valid g → valid (get_closure v g).2.
Proof.
  intros [Hkeys Hcache Hflag Hcl Hac].
  destruct (get_closure_valid g v Hkeys Hcache Hflag Hcl Hac)
    as (C & g' & -> & _ & Hsame & Hfl & Hc).
  simpl. split; [by apply (same_store_keys_ok g g')|done| |
                 by apply (same_store_closed g g')|by apply (same_store_acyclic g g')].
  unfold flag_ok. rewrite Hfl. by apply (same_store_acyclic g g').
Qed.

Lemma checked_update_keeps_valid g v data po :
  valid g → valid (update_vertex v data po true g).2.
Proof.
  intros Hvalid. pose proof Hvalid as [Hkeys Hcache Hflag Hcl Hac].
  destruct (decide (pred_arg po ⊆ dom (vertex_data g))) as [HP|HP];
    [|by rewrite update_vertex_non_existing].
  destruct (decide (v ∈ dom (vertex_data g))) as [Hv|Hv].
  - destruct (update_vertex_checked_existing g v data po Hkeys Hv HP)
      as [(Hcl2 & Hac2 & g3 & -> & Hpr & Hvd & _ & Hfl & Hcache3)|(_ & ->)]; simpl.
    + assert (dom (vertex_data g3) = dom (vertex_data g)) as Hdom.
      { rewrite Hvd. unfold with_data. destruct data; [|done].
        rewrite dom_insert_L. set_solver. }
      split.
      * unfold keys_ok. rewrite Hpr, Hdom. by apply with_preds_keys_ok.
      * done.
      * unfold flag_ok. rewrite Hfl. by eapply acyclic_preds_eq.
      * intros u p He. rewrite Hdom. apply (Hcl2 u p). by apply (edge_preds_eq _ _ Hpr).
      * by eapply acyclic_preds_eq.
    + destruct (with_preds_restore g (with_preds g v ∅) v ∅) as [_ Hpr];
        [apply same_store_refl|by rewrite Hkeys|].
      split; [by apply with_preds_keys_ok|by left|done| |by eapply acyclic_preds_eq].
      intros u p He. apply (Hcl u). by apply (edge_preds_eq _ _ Hpr).
  - rewrite update_vertex_new by done. by apply fresh_vertex_valid.
Qed.

Lemma add_vertex_keeps_valid g v data po : valid g → valid (add_vertex v data po g).2.
Proof.
  intros Hvalid. unfold add_vertex, bind, get_state.
  destruct (decide (v ∈ dom (vertex_data g))); [done|].
  by apply checked_update_keeps_valid.
Qed.

(** X23.  A graph on which only checked calls were made, from its creation
    on, is a directed acyclic graph at every moment, whether the calls
    returned or raised: every referenced predecessor is a vertex, there is
    no cycle, and the caches are sound. *)
Theorem checked_calls_valid (calls : list call) :
  Forall checked calls → valid (foldl (λ g c, do_call c g) DAG_init calls).
Proof.
  induction calls as [|c calls IH] using rev_ind; intros Hall.
  - apply fresh_edgeless_valid; done || apply edgeless_init.
  - apply Forall_app in Hall as [Hall Hc%Forall_inv]. specialize (IH Hall).
    rewrite foldl_app. simpl. destruct c as [v data po|v data po []|v t|v| |v|v md me rev|];
      simpl.
    + by apply add_vertex_keeps_valid.
    + by apply checked_update_keeps_valid.
    + destruct Hc.
    + by destruct IH.
    + by apply get_successors_valid.
    + by apply check_keeps_valid.
    + by apply get_closure_keeps_valid.
    + apply get_context_preserves;
        [apply check_keeps_valid|intros n s; apply get_successors_valid|done].
    + destruct IH as [Hkeys Hcache Hflag Hcl Hac].
      destruct (reverse_graph_valid _ Hkeys Hcl Hac) as (r & -> & _). by split.
Qed.

(** ** The container protocol *)

(** X24.  A vertex that was added is found again: [v in g] is false and
    [g[v]] raises [KeyError] before [add_vertex v], and afterwards [v in g]
    is true, [g[v]] is the payload given ([None] when none was), the
    predecessors of [v] are those given, [len(g)] is one more, and the
    other vertices are as before. *)
Theorem add_vertex_lookup g v data po :
  v ∉ dom (vertex_data g) → pred_arg po ⊆ dom (vertex_data g) →
  __contains__ v g = (inr false, g) ∧ __getitem__ v g = (inl KeyError, g) ∧
  ∃ g', add_vertex v data po g = (inr tt, g') ∧
    __contains__ v g' = (inr true, g') ∧ __getitem__ v g' = (inr data, g') ∧
    get_predecessors v g' = (inr (pred_arg po), g') ∧
    __len__ g' = (inr (S (size (vertex_data g))), g') ∧
    ∀ u, u ≠ v →
      (__contains__ u g').1 = (__contains__ u g).1 ∧
      (__getitem__ u g').1 = (__getitem__ u g).1 ∧
      (get_predecessors u g').1 = (get_predecessors u g).1.
Proof.
  intros Hv HP. split; [|split].
  - unfold __contains__. by rewrite bool_decide_eq_false_2.
  - unfold __getitem__. apply not_elem_of_dom in Hv. by rewrite Hv.
  - eexists. split; [by apply add_vertex_new|].
    unfold __contains__, __getitem__, get_predecessors, __len__. simpl.
    rewrite !lookup_insert_eq, dom_insert_L.
    split; [by rewrite bool_decide_eq_true_2 by set_solver|].
    split; [done|]. split; [done|]. split.
    { rewrite map_size_insert_None; [done|]. by apply not_elem_of_dom. }
    intros u Hu. rewrite !lookup_insert_ne by done.
    split; [|split; [by destruct (vertex_data g !! u)|done]].
    f_equal. apply bool_decide_ext. set_solver.
Qed.

End call_sequences.

(** ** Rendering *)

Section rendering_properties.
Context {D T : Type} `{!IterOrder string}.
Implicit Types (g : DAG string D T).

Lemma length_dict_order {V} (m : gmap string V) : length (dict_order m) = size m.
Proof. by rewrite (Permutation_length (dict_order_perm V m)), length_map_to_list. Qed.

Lemma length_list_bind {A B} (f : A → list B) (l : list A) :
  length (l ≫= f) = sum_list_with (λ x, length (f x)) l.
Proof. induction l as [|x l IH]; [done|]. by rewrite bind_cons, length_app, IH. Qed.

(** The number of edges of [g]. *)
Definition edge_count g : nat :=
  sum_list_with (λ np : string * gset string, size np.2)
    (map_to_list (vertex_predecessors g)).

Lemma length_as_dot_lines g :
  length (as_dot_lines g) = 3 + size (vertex_data g) + edge_count g.
Proof.
  unfold as_dot_lines, edge_count.
  rewrite !length_app, !length_fmap, length_dict_order, length_list_bind. simpl.
  rewrite <-(dict_order_perm _ (vertex_predecessors g)).
  assert (∀ l : list (string * gset string),
            sum_list_with (λ np, length
              ((λ predecessor, dquote +:+ np.1 +:+ dquote +:+ " -> "
                               +:+ dquote +:+ predecessor +:+ dquote)
               <$> set_order np.2)) l
            = sum_list_with (λ np, size np.2) l) as ->; [|lia].
  intros l. induction l as [|np l IH]; [done|]. simpl.
  by rewrite length_fmap, length_set_order, IH.
Qed.

(** X25.  [as_dot] and [__str__] validate the graph before they render
    it.  On a graph whose validity is not cached and that has a cycle, or a
    referenced predecessor that is not a vertex, both raise what [check]
    raises, and the failure is cached; on a valid graph both return: the
    dot source has its three fixed lines, one line for each vertex and one
    for each edge, and the string has one line for each vertex. *)
Theorem rendering_validates g :
  keys_ok g → cache_ok g → has_cycle g = None →
  (closed g ∧ acyclic g ∧
   ∃ g1, same_store g g1 ∧
     as_dot g = (inr (join newline (as_dot_lines g)), g1) ∧
     __str__ g = (inr (join newline (__str__lines g)), g1) ∧
     length (as_dot_lines g) = 3 + size (vertex_data g) + edge_count g ∧
     length (__str__lines g) = size (vertex_data g))
  ∨ ((¬ closed g ∨ cyclic g) ∧
     ∃ m g1, as_dot g = (inl (DAGError m), g1) ∧ __str__ g = (inl (DAGError m), g1) ∧
             has_cycle g1 = Some true).
Proof.
  intros Hkeys Hcache Hflag. unfold as_dot, __str__, bind, get_state.
  destruct (check_decides g Hkeys Hcache Hflag)
    as [(Hcl & Hac & g1 & -> & Hsame & _)|(Hbad & m & g1 & -> & _ & Hfl & _)].
  - left. split; [done|]. split; [done|]. exists g1. split; [done|].
    destruct Hsame as (Hvd & _ & Hpr).
    unfold as_dot_lines, __str__lines. rewrite Hvd, Hpr.
    split; [done|]. split; [done|]. split; [apply length_as_dot_lines|].
    rewrite length_fmap, length_dict_order.
    by rewrite <-!size_dom, Hkeys.
  - right. split; [done|]. by exists m, g1.
Qed.

End rendering_properties.

(** * The model at work *)

Module Examples.
Open Scope string_scope.

(** The state a method leaves, and what it returns or raises. *)
Definition run {S A} (m : M S A) (s : S) : S := (m s).2.
Definition result {S A} (m : M S A) (s : S) : exn + A := (m s).1.

(** Closed decidable facts are settled by evaluation. *)
Ltac by_compute := apply (bool_decide_unpack _); vm_compute; exact I.

(** The chain [A -> B -> C]: [B] is the predecessor of [A] and [C] that of
    [B]; only [C] carries a tag. *)
Definition chain : DAG string unit string :=
  {| vertex_data := {[ "A" := None; "B" := None; "C" := None ]};
     tags := {[ "C" := Some "x" ]};
     vertex_predecessors := {[ "A" := {[ "B" ]}; "B" := {[ "C" ]}; "C" := ∅ ]};
     vertex_successors := ∅;
     has_cycle := None |}.

(** A graph with a dangling predecessor: [a] depends on [z], which is not
    a vertex. *)
Definition dangling : DAG string unit string :=
  {| vertex_data := {[ "a" := None ]};
     tags := ∅;
     vertex_predecessors := {[ "a" := {[ "z" ]} ]};
     vertex_successors := ∅;
     has_cycle := None |}.

(** Two graphs on the vertices [a] and [b], each without a cycle, whose
    union has one. *)
Definition a_after_b : DAG string unit string :=
  {| vertex_data := {[ "a" := None; "b" := None ]};
     tags := ∅;
     vertex_predecessors := {[ "a" := {[ "b" ]}; "b" := ∅ ]};
     vertex_successors := ∅;
     has_cycle := None |}.
Definition b_after_a : DAG string unit string :=
  {| vertex_data := {[ "a" := None; "b" := None ]};
     tags := ∅;
     vertex_predecessors := {[ "a" := ∅; "b" := {[ "a" ]} ]};
     vertex_successors := ∅;
     has_cycle := None |}.

(** The graph with the cycle [a -> b -> a]. *)
Definition cycle2 : DAG string unit string :=
  {| vertex_data := {[ "a" := None; "b" := None ]};
     tags := ∅;
     vertex_predecessors := {[ "a" := {[ "b" ]}; "b" := {[ "a" ]} ]};
     vertex_successors := ∅;
     has_cycle := None |}.

(** *** These graphs are what the methods build, whatever the enumeration
    order *)

Section any_order.
Context `{!IterOrder string}.

Lemma chain_built :
  run (add_vertex "C" None None ;;;
       add_vertex "B" None (Some ["C"]) ;;;
       add_vertex "A" None (Some ["B"]) ;;;
       add_tag "C" (Some "x")) DAG_init = chain.
Proof.
  unfold run. rewrite bind_eq, add_vertex_new by by_compute.
  rewrite bind_eq, add_vertex_new by by_compute.
  rewrite bind_eq, add_vertex_new by by_compute.
  vm_compute. reflexivity.
Qed.

Lemma dangling_built :
  run (update_vertex "a" None (Some ["z"]) false) DAG_init = dangling.
Proof.
  unfold run. rewrite update_vertex_new by (done || by_compute).
  vm_compute. reflexivity.
Qed.

Lemma a_after_b_built :
  run (add_vertex "b" None None ;;; add_vertex "a" None (Some ["b"])) DAG_init
  = a_after_b.
Proof.
  unfold run. rewrite bind_eq, add_vertex_new by by_compute.
  rewrite add_vertex_new by by_compute.
  vm_compute. reflexivity.
Qed.

Lemma b_after_a_built :
  run (add_vertex "a" None None ;;; add_vertex "b" None (Some ["a"])) DAG_init
  = b_after_a.
Proof.
  unfold run. rewrite bind_eq, add_vertex_new by by_compute.
  rewrite add_vertex_new by by_compute.
  vm_compute. reflexivity.
Qed.

Lemma cycle2_built :
  run (update_vertex "a" None (Some ["b"]) false ;;;
       update_vertex "b" None (Some ["a"]) false) DAG_init = cycle2.
Proof.
  unfold run. rewrite bind_eq, update_vertex_new by (done || by_compute).
  rewrite update_vertex_new by (done || by_compute).
  vm_compute. reflexivity.
Qed.

End any_order.

(** *** Their properties *)

Lemma chain_keys_ok : keys_ok chain.
Proof. by_compute. Qed.
Lemma chain_closed : closed chain.
Proof. by_compute. Qed.
Lemma chain_cache_ok : cache_ok chain.
Proof. by left. Qed.
Lemma chain_flag_ok : flag_ok chain.
Proof. done. Qed.
Lemma chain_acyclic : acyclic chain.
Proof.
  apply (topo_order_acyclic chain ["C"; "B"; "A"]).
  - simpl. repeat split; by_compute.
  - by_compute.
Qed.

Lemma a_after_b_acyclic : acyclic a_after_b.
Proof.
  apply (topo_order_acyclic a_after_b ["b"; "a"]).
  - simpl. repeat split; by_compute.
  - by_compute.
Qed.

Lemma cycle2_cyclic : cyclic cycle2.
Proof. exists "a". apply (tc_l _ "a" "b" "a"); [|apply tc_once]; by_compute. Qed.

Lemma dangling_acyclic : acyclic dangling.
Proof.
  intros v Htc.
  assert (∀ x y, tc (edge dangling) x y → y = "z") as Hz.
  { intros x y Hxy. induction Hxy as [x y He|x y z' He _ IH]; [|done].
    apply edge_lookup in He as (ps & Hps & Hy).
    destruct (decide (x = "a")) as [->|Hne].
    - unfold dangling in Hps. simpl in Hps. rewrite lookup_singleton_eq in Hps.
      injection Hps as <-. by apply elem_of_singleton in Hy.
    - unfold dangling in Hps. simpl in Hps. by rewrite lookup_singleton_ne in Hps. }
  pose proof (Hz v v Htc) as ->.
  inversion Htc as [? ? He|? ? ? He _]; subst;
    apply edge_in_keys in He; revert He; by_compute.
Qed.

(** *** Evaluating [get_context] step by step *)

Ltac eval_order :=
  match goal with
  | |- context [set_order ?X] =>
      let l := eval vm_compute in (elements X) in
      replace (set_order X) with l
        by (rewrite (set_order_small X) by (vm_compute; lia); vm_compute; reflexivity)
  end.
Ltac eval_tag :=
  match goal with
  | |- context [mjoin (?m !! ?k)] =>
      let v := eval vm_compute in (mjoin (m !! k)) in
      replace (mjoin (m !! k)) with v by (vm_compute; reflexivity)
  end.
Ltac eval_decide :=
  first [ rewrite decide_True by (vm_compute; reflexivity)
        | rewrite decide_False by (vm_compute; congruence) ].
Ltac eval_bool :=
  match goal with
  | |- context [bool_decide ?P] =>
      let b := eval vm_compute in (bool_decide P) in
      replace (bool_decide P) with b by (vm_compute; reflexivity)
  end.
Ltac context_step :=
  first [ rewrite context_loop_S | rewrite context_pass_cons | rewrite context_pass_nil
        | rewrite bind_eq | rewrite get_tag_eq | rewrite get_predecessors_eq
        | rewrite ret_eq | eval_order | eval_tag | eval_bool | eval_decide ];
  cbv beta iota.
Ltac eval_context v md :=
  unfold result;
  rewrite (get_context_forward chain v md None chain_keys_ok chain_cache_ok
             chain_flag_ok chain_closed chain_acyclic);
  replace (size (all_ids chain)) with 3%nat by (vm_compute; reflexivity);
  eval_tag; cbv beta iota;
  repeat context_step;
  vm_compute; reflexivity.

(** C5.  On the chain [A -> B -> C] in which only [C] is tagged,
    [get_context] returns [[(2, C, "x")]] for [A], [[(1, C, "x")]] for [B]
    and [[(0, C, "x")]] for [C]; with [max_distance=1] it returns the empty
    list for [A].  This holds for every enumeration order. *)
Theorem get_context_chain `{!IterOrder string} :
  result (get_context "A" None None false) chain = inr [(2%Z, "C", "x")] ∧
  result (get_context "B" None None false) chain = inr [(1%Z, "C", "x")] ∧
  result (get_context "C" None None false) chain = inr [(0%Z, "C", "x")] ∧
  result (get_context "A" (Some 1%Z) None false) chain = inr [].
Proof.
  split; [|split; [|split]].
  - eval_context "A" (@None Z).
  - eval_context "B" (@None Z).
  - eval_context "C" (@None Z).
  - eval_context "A" (Some 1%Z).
Qed.

(** *** What a dangling predecessor does

    An unchecked update can leave a predecessor that is not a vertex
    ([dangling]).  [check] reports it, the iterator counts it as a
    predecessor that is never visited, and filling the successor cache
    fails on it. *)

Example dangling_check :
  result check dangling = inl (DAGError msg_invalid_nodes).
Proof. vm_compute. reflexivity. Qed.

Example dangling_iteration :
  result (iterate 2) (DAGIterator_init dangling false, dangling)
  = inl (DAGError msg_cycle_detected).
Proof. vm_compute. reflexivity. Qed.

(** C10 does not hold on every graph: on [dangling] the lookup of the
    successors of [q], which is not a vertex, raises [KeyError] (and leaves
    a partly filled cache); and on [chain] the lookup of the successors of
    [Z], which is not a vertex, fills the successor cache. *)
Lemma unknown_vertex_lookup_fails :
  (("q" ∉ dom (vertex_data dangling)) ∧
   get_successors "q" dangling
   = (inl KeyError, set_vertex_successors {[ "a" := ∅ ]} dangling)) ∧
  (("Z" ∉ dom (vertex_data chain)) ∧
   vertex_successors (run (get_successors "Z") chain) ≠ vertex_successors chain).
Proof.
  split; (split; [by_compute|]).
  - vm_compute. reflexivity.
  - by_compute.
Qed.

(** *** Graphs with a predecessor that is not a vertex

    Such graphs are what an unchecked [update_vertex] leaves. *)

(** [a] depends on [b] and on [z], which is not a vertex. *)
Definition a_after_b_and_z : DAG string unit string :=
  {| vertex_data := {[ "a" := None; "b" := None ]};
     tags := ∅;
     vertex_predecessors := {[ "a" := {[ "b"; "z" ]}; "b" := ∅ ]};
     vertex_successors := ∅;
     has_cycle := None |}.

(** [a] depends on [z], which is not a vertex; [b] depends on nothing. *)
Definition a_dangling_b_free : DAG string unit string :=
  {| vertex_data := {[ "a" := None; "b" := None ]};
     tags := ∅;
     vertex_predecessors := {[ "a" := {[ "z" ]}; "b" := ∅ ]};
     vertex_successors := ∅;
     has_cycle := None |}.

(** [a] depends on [z], which is not a vertex, and [b] on [a]. *)
Definition a_dangling_b_after_a : DAG string unit string :=
  {| vertex_data := {[ "a" := None; "b" := None ]};
     tags := ∅;
     vertex_predecessors := {[ "a" := {[ "z" ]}; "b" := {[ "a" ]} ]};
     vertex_successors := ∅;
     has_cycle := None |}.

Lemma a_after_b_and_z_built :
  run (add_vertex "b" None None ;;;
       update_vertex "a" None (Some ["b"; "z"]) false) DAG_init = a_after_b_and_z.
Proof. vm_compute. reflexivity. Qed.

Lemma a_dangling_b_free_built :
  run (add_vertex "b" None None ;;;
       update_vertex "a" None (Some ["z"]) false) DAG_init = a_dangling_b_free.
Proof. vm_compute. reflexivity. Qed.

Lemma a_dangling_b_after_a_built :
  run (update_vertex "a" None (Some ["z"]) false ;;;
       update_vertex "b" None (Some ["a"]) false) DAG_init = a_dangling_b_after_a.
Proof. vm_compute. reflexivity. Qed.




(** C1 does not hold on every graph whose predecessor relation has no
    cycle: on [dangling], which has none, strict iteration stops on ['cycle
    detected'] at the first step and yields no vertex. *)
Lemma strict_iteration_dangling_acyclic :
  acyclic dangling ∧
  ∀ fuel, result (iterate (S fuel)) (DAGIterator_init dangling false, dangling)
          = inl (DAGError msg_cycle_detected).
Proof.
  split; [apply dangling_acyclic|]. intros fuel.
  assert (next (DAGIterator_init dangling false, dangling)
          = (inl (DAGError msg_cycle_detected), (DAGIterator_init dangling false, dangling)))
    as Hnext by (vm_compute; reflexivity).
  unfold result. cbn [iterate]. by rewrite Hnext.
Qed.


(** C4 does not hold on every graph without cycle: on [dangling],
    [get_closure] of the vertex [a] raises ['invalid nodes in
    predecessors']. *)
Lemma get_closure_dangling :
  acyclic dangling ∧ "a" ∈ dom (vertex_data dangling) ∧
  result (get_closure "a") dangling = inl (DAGError msg_invalid_nodes).
Proof.
  split; [apply dangling_acyclic|]. split; [by_compute|]. vm_compute. reflexivity.
Qed.

(** C6 does not hold on every graph without cycle: two reversals of
    [dangling] return a graph in which [z] is a vertex, with another
    predecessor dictionary. *)
Lemma reverse_reverse_dangling :
  acyclic dangling ∧
  ∃ r rr, result reverse_graph dangling = inr r ∧ result reverse_graph r = inr rr ∧
    dom (vertex_data dangling) = {[ "a" ]} ∧ dom (vertex_data rr) = {[ "a"; "z" ]} ∧
    vertex_predecessors rr ≠ vertex_predecessors dangling.
Proof.
  split; [apply dangling_acyclic|].
  eexists _, _. split; [vm_compute; reflexivity|]. split; [vm_compute; reflexivity|].
  split; [by_compute|]. split; by_compute.
Qed.


(** The iterator on [a_dangling_b_free], in busy mode, after one call of
    [next_element]: [b] is BUSY. *)
Definition busy_b_world : DAGIterator string * DAG string unit string :=
  run next_element (DAGIterator_init a_dangling_b_free true, a_dangling_b_free).

(** C8 does not hold in every iterator state: on a graph with a
    predecessor that is not a vertex, [leave] on the BUSY vertex [b] marks
    it VISITED and then raises [KeyError]; and [leave] on an identifier
    the iterator has no state for raises [KeyError], which is not the
    failed assertion. *)
Lemma leave_key_error :
  (states busy_b_world.1 !! "b" = Some BUSY ∧
   result (leave "b") busy_b_world = inl KeyError ∧
   states (run (leave "b") busy_b_world).1 !! "b" = Some VISITED) ∧
  (states (DAGIterator_init chain true) !! "Z" = None ∧
   leave "Z" (DAGIterator_init chain true, chain)
   = (inl KeyError, (DAGIterator_init chain true, chain)) ∧
   ¬ ProtocolFault KeyError).
Proof.
  split; (split; [vm_compute; reflexivity|]); (split; [vm_compute; reflexivity|]).
  - vm_compute. reflexivity.
  - intros H. discriminate H.
Qed.


(** *** The theorems at these graphs *)

Lemma strict_iteration_chain :
  (keys_ok chain ∧ cache_ok chain ∧ closed chain ∧ acyclic chain) ∧
  ∃ l w, iterate 4 (DAGIterator_init chain false, chain) = (inr (item chain <$> l), w) ∧
    NoDup l ∧ (∀ v, v ∈ l ↔ v ∈ dom (vertex_data chain)) ∧
    ∀ l1 v l2, l = (l1 ++ v :: l2)%list → ∀ p, edge chain v p → p ∈ l1.
Proof.
  split.
  - exact (conj chain_keys_ok (conj chain_cache_ok (conj chain_closed chain_acyclic))).
  - apply (strict_iteration_topological chain 4 chain_keys_ok chain_cache_ok
             chain_closed chain_acyclic).
    vm_compute. lia.
Defined.

Lemma check_cycle2 :
  (keys_ok cycle2 ∧ cache_ok cycle2 ∧ flag_ok cycle2 ∧ closed cycle2) ∧
  (cyclic cycle2 ↔ ∃ e g', check cycle2 = (inl e, g') ∧ CycleDetected e).
Proof.
  assert (keys_ok cycle2) as Hk by by_compute.
  assert (cache_ok cycle2) as Hc by (by left).
  assert (flag_ok cycle2) as Hf by done.
  assert (closed cycle2) as Hcl by by_compute.
  split; [exact (conj Hk (conj Hc (conj Hf Hcl)))|].
  exact (proj2 (proj2 (check_cycle_detected cycle2)) Hk Hc Hf Hcl).
Defined.


Lemma get_closure_chain :
  (keys_ok chain ∧ cache_ok chain ∧ flag_ok chain ∧ closed chain ∧ acyclic chain ∧
   "A" ∈ dom (vertex_data chain)) ∧
  ∃ C g', get_closure "A" chain = (inr C, g') ∧
    (∀ u, u ∈ C ↔ tc (edge chain) "A" u) ∧ "A" ∉ C.
Proof.
  assert ("A" ∈ dom (vertex_data chain)) as Hv by by_compute.
  split.
  - exact (conj chain_keys_ok (conj chain_cache_ok (conj chain_flag_ok
             (conj chain_closed (conj chain_acyclic Hv))))).
  - exact (get_closure_reachable chain "A" chain_keys_ok chain_cache_ok chain_flag_ok
             chain_closed chain_acyclic Hv).
Defined.

Lemma reverse_reverse_chain :
  (keys_ok chain ∧ closed chain ∧ acyclic chain) ∧
  ∃ r g1 rr r1, reverse_graph chain = (inr r, g1) ∧ reverse_graph r = (inr rr, r1) ∧
    dom (vertex_data rr) = dom (vertex_data chain) ∧
    vertex_predecessors rr = vertex_predecessors chain ∧
    tags rr = tags chain ∧ vertex_data rr = vertex_data chain.
Proof.
  split.
  - exact (conj chain_keys_ok (conj chain_closed chain_acyclic)).
  - exact (reverse_reverse chain chain_keys_ok chain_closed chain_acyclic).
Defined.


(** The iterator on [chain], in busy mode, after one call of [next_element]:
    [C] is BUSY. *)
Definition busy_world : DAGIterator string * DAG string unit string :=
  run next_element (DAGIterator_init chain true, chain).

Lemma leave_busy_chain :
  (states busy_world.1 !! "C" = Some BUSY ∧ keys_closed busy_world.2 ∧
   cache_ok busy_world.2 ∧
   dom (pred_number busy_world.1) = dom (vertex_predecessors busy_world.2)) ∧
  ∃ it' g', leave "C" (busy_world.1, busy_world.2) = (inr tt, (it', g')) ∧
    states it' = <[ "C" := VISITED ]> (states busy_world.1) ∧
    non_visited it' = non_visited busy_world.1 ∧
    same_graph busy_world.2 g' ∧
    ∀ k n, pred_number busy_world.1 !! k = Some n →
      pred_number it' !! k
      = Some (if decide (edge busy_world.2 k "C") then n - 1 else n)%Z.
Proof.
  assert (states busy_world.1 !! "C" = Some BUSY) as Hst by (vm_compute; reflexivity).
  assert (keys_closed busy_world.2) as Hcl by by_compute.
  assert (cache_ok busy_world.2) as Hc by (left; vm_compute; reflexivity).
  assert (dom (pred_number busy_world.1) = dom (vertex_predecessors busy_world.2))
    as Hdom by by_compute.
  split; [exact (conj Hst (conj Hcl (conj Hc Hdom)))|].
  exact (proj2 (proj2 (proj2 (leave_protocol busy_world.1 busy_world.2 "C")))
           Hst Hcl Hc Hdom).
Defined.


Lemma unknown_vertex_chain :
  (keys_ok chain ∧ ("Z" ∉ dom (vertex_data chain)) ∧ cache_ok chain ∧ closed chain) ∧
  get_predecessors "Z" chain = (inr ∅, chain) ∧
  ∃ g', get_successors "Z" chain = (inr ∅, g') ∧ same_graph chain g' ∧
    inverse_of (vertex_predecessors chain) (vertex_successors g') ∧
    (vertex_successors chain ≠ ∅ → g' = chain).
Proof.
  assert ("Z" ∉ dom (vertex_data chain)) as Hz by by_compute.
  split.
  - exact (conj chain_keys_ok (conj Hz (conj chain_cache_ok chain_closed))).
  - exact (conj (proj1 (unknown_vertex_lookup chain "Z" chain_keys_ok Hz))
             (proj2 (unknown_vertex_lookup chain "Z" chain_keys_ok Hz)
                chain_cache_ok chain_closed)).
Defined.

Lemma get_context_chain_canonical :
  result (get_context "A" None None false) chain = inr [(2%Z, "C", "x")] ∧
  result (get_context "B" None None false) chain = inr [(1%Z, "C", "x")] ∧
  result (get_context "C" None None false) chain = inr [(0%Z, "C", "x")] ∧
  result (get_context "A" (Some 1%Z) None false) chain = inr [].
Proof. exact (get_context_chain (IterOrder0 := canonical_order string)). Defined.

(** *** The further properties at these graphs *)

Lemma chain_valid : valid chain.
Proof.
  split; [apply chain_keys_ok|apply chain_cache_ok|apply chain_flag_ok|
          apply chain_closed|apply chain_acyclic].
Qed.

Lemma add_vertex_chain :
  (("A" ∈ dom (vertex_data chain)) ∧
   add_vertex "A" None None chain = (inl (DAGError msg_vertex_already_exist), chain)) ∧
  ((("D" ∉ dom (vertex_data chain)) ∧ ¬ pred_arg (Some ["Z"]) ⊆ dom (vertex_data chain)) ∧
   add_vertex "D" None (Some ["Z"]) chain
   = (inl (DAGError msg_non_existing_vertices), chain)) ∧
  ((("D" ∉ dom (vertex_data chain)) ∧ pred_arg (Some ["A"]) ⊆ dom (vertex_data chain)) ∧
   ∃ g', add_vertex "D" None (Some ["A"]) chain = (inr tt, g') ∧ valid g').
Proof.
  assert ("A" ∈ dom (vertex_data chain)) as HA by by_compute.
  assert ("D" ∉ dom (vertex_data chain)) as HD by by_compute.
  assert (¬ pred_arg (Some ["Z"]) ⊆ dom (vertex_data chain)) as HZ by by_compute.
  assert (pred_arg (Some ["A"]) ⊆ dom (vertex_data chain)) as HP by by_compute.
  split; [|split].
  - exact (conj HA (proj1 (add_vertex_outcome chain "A" None None) HA)).
  - exact (conj (conj HD HZ)
             (proj1 (proj2 (add_vertex_outcome chain "D" None (Some ["Z"]))) HD HZ)).
  - split; [exact (conj HD HP)|].
    destruct (proj2 (proj2 (add_vertex_outcome chain "D" None (Some ["A"]))) HD HP)
      as (g' & Hrun & _ & _ & _ & Hvalid).
    exists g'. exact (conj Hrun (Hvalid chain_valid)).
Defined.

Lemma upsert_atomic_chain :
  (keys_ok chain ∧
   update_vertex "C" None (Some ["A"]) true chain
   = (inl (DAGError msg_cannot_update_vertex), chain)) ∧
  (DAGError msg_cannot_update_vertex = DAGError msg_non_existing_vertices
   ∨ DAGError msg_cannot_update_vertex = DAGError msg_cannot_update_vertex) ∧
  vertex_data chain = vertex_data chain ∧
  vertex_predecessors chain = vertex_predecessors chain ∧ tags chain = tags chain.
Proof.
  assert (update_vertex "C" None (Some ["A"]) true chain
          = (inl (DAGError msg_cannot_update_vertex), chain)) as Hrun
    by (vm_compute; reflexivity).
  split; [exact (conj chain_keys_ok Hrun)|].
  exact (checked_upsert_atomic chain "C" None (Some ["A"]) _ chain chain_keys_ok Hrun).
Defined.

Lemma update_merges_chain :
  (valid chain ∧ "A" ∈ dom (vertex_data chain) ∧
   pred_arg (Some ["C"]) ⊆ dom (vertex_data chain)) ∧
  (acyclic (with_preds chain "A" (preds_of chain "A" ∪ pred_arg (Some ["C"]))) ↔
   ∃ g', update_vertex "A" None (Some ["C"]) true chain = (inr tt, g')) ∧
  ∀ g', update_vertex "A" None (Some ["C"]) true chain = (inr tt, g') →
    valid g' ∧ has_cycle g' = Some false ∧
    vertex_predecessors g'
    = <[ "A" := preds_of chain "A" ∪ pred_arg (Some ["C"]) ]> (vertex_predecessors chain) ∧
    vertex_data g' = with_data (vertex_data chain) "A" None ∧ tags g' = tags chain.
Proof.
  assert ("A" ∈ dom (vertex_data chain)) as HA by by_compute.
  assert (pred_arg (Some ["C"]) ⊆ dom (vertex_data chain)) as HP by by_compute.
  split; [exact (conj chain_valid (conj HA HP))|].
  exact (checked_update_merges chain "A" None (Some ["C"]) chain_valid HA HP).
Defined.

Lemma unchecked_update_chain :
  keys_ok chain ∧
  ∃ g1, update_vertex "C" None (Some ["A"]) false chain = (inr tt, g1) ∧
    preds_of g1 "C" = preds_of chain "C" ∪ pred_arg (Some ["A"]) ∧
    (∀ u, u ≠ "C" → preds_of g1 u = preds_of chain u) ∧
    vertex_data g1
    = <[ "C" := merged_data (vertex_data chain !! "C") None ]> (vertex_data chain) ∧
    tags g1 = tags chain ∧ vertex_successors g1 = ∅ ∧ has_cycle g1 = None ∧
    ((closed g1 ∧ acyclic g1 ∧ ∃ g2, check g1 = (inr tt, g2) ∧ same_store g1 g2)
     ∨ ((¬ closed g1 ∨ cyclic g1) ∧
        ∃ m g2, check g1 = (inl (DAGError m), g2) ∧ same_store g1 g2 ∧
                has_cycle g2 = Some true)).
Proof.
  exact (conj chain_keys_ok
           (unchecked_update_deferred chain "C" None (Some ["A"]) chain_keys_ok)).
Defined.

Lemma check_verdict_chain :
  (keys_ok chain ∧ cache_ok chain ∧ has_cycle chain = None) ∧
  ((closed chain ∧ acyclic chain ∧
    ∃ g1, check chain = (inr tt, g1) ∧ same_store chain g1 ∧ check g1 = (inr tt, g1))
   ∨ (¬ closed chain ∧
      ∃ g1, check chain = (inl (DAGError msg_invalid_nodes), g1) ∧ same_store chain g1 ∧
            check g1 = (inl (DAGError msg_contains_cycle), g1))
   ∨ (closed chain ∧ cyclic chain ∧
      ∃ g1, check chain = (inl (DAGError msg_cycle_detected), g1) ∧ same_store chain g1 ∧
            check g1 = (inl (DAGError msg_contains_cycle), g1))).
Proof.
  split; [exact (conj chain_keys_ok (conj chain_cache_ok eq_refl))|].
  exact (check_verdict_cached chain chain_keys_ok chain_cache_ok eq_refl).
Defined.

Lemma cycle2_keys_ok : keys_ok cycle2.
Proof. by_compute. Qed.
Lemma cycle2_cache_ok : cache_ok cycle2.
Proof. by left. Qed.
Lemma cycle2_closed : closed cycle2.
Proof. by_compute. Qed.

Lemma strict_iteration_cycle2 :
  (keys_ok cycle2 ∧ cache_ok cycle2 ∧ closed cycle2 ∧
   (size (dom (vertex_data cycle2)) < 3)%nat) ∧
  (cyclic cycle2 →
   ∃ w, iterate 3 (__iter__ cycle2, cycle2) = (inl (DAGError msg_cycle_detected), w)) ∧
  (∀ xs w, iterate 3 (__iter__ cycle2, cycle2) = (inr xs, w) → acyclic cycle2).
Proof.
  assert (size (dom (vertex_data cycle2)) < 3)%nat as Hfuel by (vm_compute; lia).
  split; [exact (conj cycle2_keys_ok (conj cycle2_cache_ok (conj cycle2_closed Hfuel)))|].
  exact (strict_iteration_cycle cycle2 3 cycle2_keys_ok cycle2_cache_ok cycle2_closed
           Hfuel).
Defined.

Lemma dangling_keys_ok : keys_ok dangling.
Proof. by_compute. Qed.
Lemma dangling_not_closed : ¬ closed dangling.
Proof. by_compute. Qed.
Lemma dangling_not_keys_closed : ¬ keys_closed dangling.
Proof. by_compute. Qed.

Lemma strict_iteration_dangling_graph :
  (keys_ok dangling ∧ vertex_successors dangling = ∅ ∧ ¬ closed dangling) ∧
  ∃ e w, iterate 2 (__iter__ dangling, dangling) = (inl e, w) ∧
    ((e = KeyError ∧ ∃ k, k ∈ dom (vertex_data dangling) ∧ preds_of dangling k = ∅)
     ∨ (e = DAGError msg_cycle_detected ∧
        ∀ k, k ∈ dom (vertex_data dangling) → preds_of dangling k ≠ ∅)).
Proof.
  split; [exact (conj dangling_keys_ok (conj eq_refl dangling_not_closed))|].
  exact (strict_iteration_dangling dangling 1 dangling_keys_ok eq_refl dangling_not_closed).
Defined.

Lemma get_closure_outcome_chain :
  (keys_ok chain ∧ cache_ok chain ∧ has_cycle chain = None) ∧
  ((closed chain ∧ acyclic chain ∧
    ∃ C g', get_closure "A" chain = (inr C, g') ∧ same_store chain g' ∧
      (∀ u, u ∈ C ↔ tc (edge chain) "A" u) ∧ ("A" ∉ dom (vertex_data chain) → C = ∅))
   ∨ ((¬ closed chain ∨ cyclic chain) ∧
      ∃ m g', get_closure "A" chain = (inl (DAGError m), g') ∧ same_store chain g' ∧
        has_cycle g' = Some true)).
Proof.
  split; [exact (conj chain_keys_ok (conj chain_cache_ok eq_refl))|].
  exact (get_closure_outcome chain "A" chain_keys_ok chain_cache_ok eq_refl).
Defined.

Lemma successors_after_key_error_dangling :
  (vertex_successors dangling = ∅ ∧ ¬ keys_closed dangling) ∧
  ∃ g1, get_successors "a" dangling = (inl KeyError, g1) ∧ same_graph dangling g1 ∧
    ∀ u, ∃ S, get_successors u g1 = (inr S, g1) ∧ ∀ k, k ∈ S → edge dangling k u.
Proof.
  split; [exact (conj eq_refl dangling_not_keys_closed)|].
  exact (get_successors_after_key_error dangling "a" eq_refl dangling_not_keys_closed).
Defined.

Lemma busy_world_next :
  next_element (DAGIterator_init chain true, chain)
  = (inr (Some ("C", None, ∅)), busy_world).
Proof. vm_compute. reflexivity. Qed.

Lemma busy_no_deadlock_chain :
  (keys_ok chain ∧ closed chain ∧ cache_ok chain ∧ acyclic chain ∧
   busy_run chain busy_world) ∧
  (∀ e w', next_element busy_world = (inl e, w') →
     e = StopIteration ∧ w' = busy_world ∧
     ∀ k st, states busy_world.1 !! k = Some st → st ≠ NOT_VISITED) ∧
  (∀ w', next_element busy_world = (inr None, w') →
     w' = busy_world ∧ ∃ k, states busy_world.1 !! k = Some BUSY).
Proof.
  assert (busy_run chain busy_world) as Hrun.
  { exact (busy_run_next chain _ (busy_run_init chain)). }
  split.
  - exact (conj chain_keys_ok (conj chain_closed (conj chain_cache_ok
             (conj chain_acyclic Hrun)))).
  - exact (busy_no_deadlock chain busy_world chain_keys_ok chain_closed chain_cache_ok
             chain_acyclic Hrun).
Defined.

(** The iterator on [chain] after [C] was handed out and left. *)
Definition left_world : DAGIterator string * DAG string unit string :=
  run (leave "C") busy_world.

Lemma left_world_leave : leave "C" busy_world = (inr tt, left_world).
Proof. vm_compute. reflexivity. Qed.

(** The iterator after [C] was handed out and left and [B] handed out. *)
Definition handed_B_world : DAGIterator string * DAG string unit string :=
  run next_element left_world.

Lemma left_world_next :
  next_element left_world = (inr (Some ("B", None, {[ "C" ]})), handed_B_world).
Proof. vm_compute. reflexivity. Qed.

Lemma busy_next_chain :
  (keys_ok chain ∧ closed chain ∧ cache_ok chain ∧ busy_run chain left_world ∧
   next_element left_world = (inr (Some ("B", None, {[ "C" ]})), handed_B_world)) ∧
  states left_world.1 !! "B" = Some NOT_VISITED ∧
  states handed_B_world.1 !! "B" = Some BUSY ∧
  vertex_data chain !! "B" = Some None ∧
  ({[ "C" ]} : gset string) = preds_of chain "B" ∧
  ∀ p, p ∈ ({[ "C" ]} : gset string) → states left_world.1 !! p = Some VISITED.
Proof.
  assert (busy_run chain left_world) as Hrun.
  { exact (busy_run_leave chain _ "C" (busy_run_next chain _ (busy_run_init chain))). }
  split.
  - exact (conj chain_keys_ok (conj chain_closed (conj chain_cache_ok
             (conj Hrun left_world_next)))).
  - exact (busy_next_after_predecessors chain left_world "B" None {[ "C" ]}
             handed_B_world chain_keys_ok chain_closed chain_cache_ok Hrun
             left_world_next).
Defined.

Lemma busy_step_chain :
  (enable_busy_state (DAGIterator_init chain true) = true ∧
   next_element (DAGIterator_init chain true, chain)
   = (inr (Some ("C", None, ∅)), busy_world) ∧
   leave "C" busy_world = (inr tt, left_world)) ∧
  next_element (in_mode false (DAGIterator_init chain true), chain)
  = (inr (Some ("C", None, ∅)), (in_mode false left_world.1, left_world.2)).
Proof.
  split; [exact (conj eq_refl (conj busy_world_next left_world_leave))|].
  exact (busy_step_is_strict_step (DAGIterator_init chain true) chain "C" None ∅
           busy_world left_world eq_refl busy_world_next left_world_leave).
Defined.

Lemma reverse_graph_chain :
  keys_ok chain ∧
  ((acyclic chain ∧
    ∃ r, reverse_graph chain = (inr r, set_has_cycle (Some false) chain) ∧
      valid r ∧ tags r = tags chain ∧ (∀ k n, edge r k n ↔ edge chain n k) ∧
      (∀ k, k ∈ dom (vertex_data r) ↔ k ∈ dom (vertex_data chain) ∨ ∃ n, edge chain n k) ∧
      (∀ k, k ∈ dom (vertex_data chain) → vertex_data r !! k = vertex_data chain !! k) ∧
      (∀ k, k ∉ dom (vertex_data chain) → k ∈ dom (vertex_data r) →
         vertex_data r !! k = Some None))
   ∨ (cyclic chain ∧
      reverse_graph chain
      = (inl (DAGError msg_cycle_detected), set_has_cycle (Some true) chain))).
Proof. exact (conj chain_keys_ok (reverse_graph_spec chain chain_keys_ok)). Defined.

Lemma merge_chain_a_after_b :
  (keys_ok chain ∧ closed chain ∧ keys_ok a_after_b ∧ closed a_after_b ∧
   ∀ v, ¬ tc (λ v p, edge chain v p ∨ edge a_after_b v p) v v) ∧
  ∃ r, __or__ chain a_after_b = inr r ∧ valid r ∧ has_cycle r = Some false ∧
    dom (vertex_data r) = dom (vertex_data chain) ∪ dom (vertex_data a_after_b) ∧
    (∀ v p, edge r v p ↔ edge chain v p ∨ edge a_after_b v p) ∧
    tags r = ∅ ∧
    ∀ k, vertex_data r !! k =
         match vertex_data a_after_b !! k with
         | Some (Some d) => Some (Some d)
         | Some None => Some (default None (vertex_data chain !! k))
         | None => vertex_data chain !! k
         end.
Proof.
  assert (keys_ok a_after_b) as Hk by by_compute.
  assert (closed a_after_b) as Hc by by_compute.
  assert (∀ v, ¬ tc (λ v p, edge chain v p ∨ edge a_after_b v p) v v) as Hac.
  { set (both := {| vertex_data := {[ "A" := None; "B" := None; "C" := None;
                                       "a" := None; "b" := None ]};
                    tags := ∅;
                    vertex_predecessors :=
                      {[ "A" := {[ "B" ]}; "B" := {[ "C" ]}; "C" := ∅;
                         "a" := {[ "b" ]}; "b" := ∅ ]};
                    vertex_successors := ∅; has_cycle := None |}
               : DAG string unit string).
    assert (acyclic both) as Hboth.
    { apply (topo_order_acyclic both ["C"; "B"; "A"; "b"; "a"]).
      - simpl. repeat split; by_compute.
      - by_compute. }
    intros v Hv. apply (Hboth v). eapply tc_subrel; [|exact Hv].
    intros x y Hxy.
    assert (∀ g : DAG string unit string,
              edge g x y → ∃ ps, vertex_predecessors g !! x = Some ps ∧ y ∈ ps) as Hlook
      by (intros g; apply edge_lookup).
    destruct Hxy as [(ps & Hps & Hy)%Hlook|(ps & Hps & Hy)%Hlook];
      apply edge_lookup; simpl in *.
    - destruct (decide (x = "A")) as [->|]; [exists {[ "B" ]}; split; [done|];
        rewrite lookup_insert_eq in Hps; by injection Hps as <-|].
      rewrite lookup_insert_ne in Hps by done.
      destruct (decide (x = "B")) as [->|]; [exists {[ "C" ]}; split; [done|];
        rewrite lookup_insert_eq in Hps; by injection Hps as <-|].
      rewrite lookup_insert_ne in Hps by done.
      destruct (decide (x = "C")) as [->|];
        [rewrite lookup_singleton_eq in Hps; injection Hps as <-; set_solver|].
      by rewrite lookup_singleton_ne in Hps.
    - destruct (decide (x = "a")) as [->|]; [exists {[ "b" ]}; split; [done|];
        rewrite lookup_insert_eq in Hps; by injection Hps as <-|].
      rewrite lookup_insert_ne in Hps by done.
      destruct (decide (x = "b")) as [->|];
        [rewrite lookup_singleton_eq in Hps; injection Hps as <-; set_solver|].
      by rewrite lookup_singleton_ne in Hps. }
  split; [exact (conj chain_keys_ok (conj chain_closed (conj Hk (conj Hc Hac))))|].
  exact (merge_spec chain a_after_b chain_keys_ok chain_closed Hk Hc Hac).
Defined.

(** Two graphs that both give [a] a payload: [a] depends on [b] in the
    first and on [c] in the second. *)
Definition left_ab : DAG string string string :=
  {| vertex_data := {[ "a" := Some "l"; "b" := None ]};
     tags := ∅;
     vertex_predecessors := {[ "a" := {[ "b" ]}; "b" := ∅ ]};
     vertex_successors := ∅;
     has_cycle := None |}.
Definition right_ac : DAG string string string :=
  {| vertex_data := {[ "a" := Some "r"; "c" := Some "c" ]};
     tags := ∅;
     vertex_predecessors := {[ "a" := {[ "c" ]}; "c" := ∅ ]};
     vertex_successors := ∅;
     has_cycle := None |}.

(** Edges that all go down a rank close no cycle. *)
Lemma union_acyclic_by_rank {D T} (g1 g2 : DAG string D T) (rank : string → nat) :
  map_Forall (λ k ps, set_Forall (λ p, (rank p < rank k)%nat) ps)
    (vertex_predecessors g1) →
  map_Forall (λ k ps, set_Forall (λ p, (rank p < rank k)%nat) ps)
    (vertex_predecessors g2) →
  ∀ v, ¬ tc (λ v p, edge g1 v p ∨ edge g2 v p) v v.
Proof.
  intros H1 H2.
  assert (∀ v p, edge g1 v p ∨ edge g2 v p → (rank p < rank v)%nat) as Hstep.
  { intros v p [(ps & Hps & Hp)%edge_lookup|(ps & Hps & Hp)%edge_lookup].
    - exact (H1 v ps Hps p Hp).
    - exact (H2 v ps Hps p Hp). }
  assert (∀ v w, tc (λ v p, edge g1 v p ∨ edge g2 v p) v w → (rank w < rank v)%nat)
    as Htc.
  { intros v w Hvw. induction Hvw as [v w He|v u w He _ IH]; [by apply Hstep|].
    apply Hstep in He. lia. }
  intros v Hv. apply Htc in Hv. lia.
Qed.

Definition rank_abc (s : string) : nat :=
  if decide (s = "a") then 2%nat else 0%nat.

Lemma merge_commutes_payloads :
  (keys_ok left_ab ∧ closed left_ab ∧ keys_ok right_ac ∧ closed right_ac ∧
   ∀ v, ¬ tc (λ v p, edge left_ab v p ∨ edge right_ac v p) v v) ∧
  ∃ r r', __or__ left_ab right_ac = inr r ∧ __or__ right_ac left_ab = inr r' ∧
    dom (vertex_data r) = dom (vertex_data r') ∧
    vertex_predecessors r = vertex_predecessors r' ∧
    ∀ k, vertex_data r !! k = vertex_data r' !! k
         ∨ ∃ d d', vertex_data left_ab !! k = Some (Some d) ∧
                   vertex_data right_ac !! k = Some (Some d') ∧
                   vertex_data r !! k = Some (Some d') ∧
                   vertex_data r' !! k = Some (Some d).
Proof.
  assert (keys_ok left_ab) as Hk1 by by_compute.
  assert (closed left_ab) as Hc1 by by_compute.
  assert (keys_ok right_ac) as Hk2 by by_compute.
  assert (closed right_ac) as Hc2 by by_compute.
  assert (∀ v, ¬ tc (λ v p, edge left_ab v p ∨ edge right_ac v p) v v) as Hac.
  { apply (union_acyclic_by_rank left_ab right_ac rank_abc); by_compute. }
  split; [exact (conj Hk1 (conj Hc1 (conj Hk2 (conj Hc2 Hac))))|].
  exact (merge_commutes left_ab right_ac Hk1 Hc1 Hk2 Hc2 Hac).
Defined.

(** The two merges do give [a] different payloads. *)
Example merge_payload_of_right_operand :
  (∃ r, __or__ left_ab right_ac = inr r ∧ vertex_data r !! "a" = Some (Some "r")) ∧
  (∃ r, __or__ right_ac left_ab = inr r ∧ vertex_data r !! "a" = Some (Some "l")).
Proof. split; eexists; (split; [vm_compute; reflexivity|by_compute]). Qed.

Lemma reverse_closure_chain :
  valid chain ∧
  ∃ r g1 C r1, reverse_graph chain = (inr r, g1) ∧
    get_predecessors "C" r = (inr (preds_of r "C"), r) ∧
    (∀ u, u ∈ preds_of r "C" ↔ "C" ∈ preds_of chain u) ∧
    get_closure "C" r = (inr C, r1) ∧ ∀ u, u ∈ C ↔ tc (edge chain) u "C".
Proof. exact (conj chain_valid (reverse_graph_closure chain "C" chain_valid)). Defined.

(** [chain] after [get_context "A"]. *)
Definition chain_checked : DAG string unit string :=
  run (get_context "A" None None false) chain.

Lemma get_context_A_chain :
  get_context "A" None None false chain = (inr [(2%Z, "C", "x")], chain_checked).
Proof. vm_compute. reflexivity. Qed.

Lemma get_context_sound_chain :
  get_context "A" None None false chain = (inr [(2%Z, "C", "x")], chain_checked) ∧
  NoDup (node_of <$> [(2%Z, "C", "x")]) ∧
  (∀ d n t, (d, n, t) ∈ [(2%Z, "C", "x")] →
     mjoin (tags chain !! n) = Some t ∧
     ((d = 0 ∧ n = "A") ∨ (1 ≤ d ∧ ∀ m, None = Some m → d ≤ m))%Z) ∧
  (∀ m, None = Some m → (0 < m)%Z →
        (Z.of_nat (length [(2%Z, "C", "x")]) ≤ m)%Z).
Proof.
  exact (conj get_context_A_chain
           (get_context_sound chain "A" None None false _ _ get_context_A_chain)).
Defined.

Lemma get_context_no_limit_chain :
  (0 ≤ 0)%Z ∧
  get_context "A" None (Some 0%Z) false chain = get_context "A" None None false chain.
Proof.
  assert (0 ≤ 0)%Z as H0 by lia.
  exact (conj H0 (get_context_max_element_below_one chain "A" None 0 false H0)).
Defined.

Lemma get_context_tagged_chain :
  valid chain ∧
  ∃ g', get_context "B" (Some 0%Z) (Some 0%Z) true (add_tag "B" (Some "y") chain).2
        = (inr [(0%Z, "B", "y")], g').
Proof.
  exact (conj chain_valid
           (get_context_tagged_vertex chain "B" "y" (Some 0%Z) (Some 0%Z) true chain_valid)).
Defined.

Lemma get_context_nearest_chain :
  (mjoin (tags chain !! "A") = None ∧
   get_context "A" None None false chain = (inr [(2%Z, "C", "x")], chain_checked)) ∧
  ∀ n t, (∃ d, (d, n, t) ∈ [(2%Z, "C", "x")]) ↔
         untagged_path chain "A" n ∧ mjoin (tags chain !! n) = Some t.
Proof.
  assert (mjoin (tags chain !! "A") = None) as HA by (vm_compute; reflexivity).
  split; [exact (conj HA get_context_A_chain)|].
  exact (get_context_nearest_tags chain "A" _ _ HA get_context_A_chain).
Defined.

Lemma checked_calls_example :
  Forall checked
    [call_add_vertex "a" (None : option unit) None;
     call_add_vertex "b" None (Some ["a"]);
     call_update_vertex "a" None (Some ["b"]) true;
     call_add_tag "b" (Some "y");
     call_check] ∧
  valid (foldl (λ g c, do_call c g) (DAG_init : DAG string unit string)
           [call_add_vertex "a" None None;
            call_add_vertex "b" None (Some ["a"]);
            call_update_vertex "a" None (Some ["b"]) true;
            call_add_tag "b" (Some "y");
            call_check]).
Proof.
  assert (Forall checked
            [call_add_vertex "a" (None : option unit) None;
             call_add_vertex "b" None (Some ["a"]);
             call_update_vertex "a" None (Some ["b"]) true;
             call_add_tag "b" (Some "y");
             call_check]) as Hall.
  { repeat constructor. }
  exact (conj Hall (checked_calls_valid _ Hall)).
Defined.

Lemma add_vertex_lookup_chain :
  (("D" ∉ dom (vertex_data chain)) ∧ pred_arg (Some ["A"]) ⊆ dom (vertex_data chain)) ∧
  __contains__ "D" chain = (inr false, chain) ∧
  __getitem__ "D" chain = (inl KeyError, chain) ∧
  ∃ g', add_vertex "D" (Some tt) (Some ["A"]) chain = (inr tt, g') ∧
    __contains__ "D" g' = (inr true, g') ∧ __getitem__ "D" g' = (inr (Some tt), g') ∧
    get_predecessors "D" g' = (inr (pred_arg (Some ["A"])), g') ∧
    __len__ g' = (inr (S (size (vertex_data chain))), g') ∧
    ∀ u, u ≠ "D" →
      (__contains__ u g').1 = (__contains__ u chain).1 ∧
      (__getitem__ u g').1 = (__getitem__ u chain).1 ∧
      (get_predecessors u g').1 = (get_predecessors u chain).1.
Proof.
  assert ("D" ∉ dom (vertex_data chain)) as HD by by_compute.
  assert (pred_arg (Some ["A"]) ⊆ dom (vertex_data chain)) as HP by by_compute.
  exact (conj (conj HD HP) (add_vertex_lookup chain "D" (Some tt) (Some ["A"]) HD HP)).
Defined.

Lemma rendering_chain :
  (keys_ok chain ∧ cache_ok chain ∧ has_cycle chain = None) ∧
  ((closed chain ∧ acyclic chain ∧
    ∃ g1, same_store chain g1 ∧
      as_dot chain = (inr (join newline (as_dot_lines chain)), g1) ∧
      __str__ chain = (inr (join newline (__str__lines chain)), g1) ∧
      length (as_dot_lines chain) = (3 + size (vertex_data chain) + edge_count chain)%nat ∧
      length (__str__lines chain) = size (vertex_data chain))
   ∨ ((¬ closed chain ∨ cyclic chain) ∧
      ∃ m g1, as_dot chain = (inl (DAGError m), g1) ∧
              __str__ chain = (inl (DAGError m), g1) ∧ has_cycle g1 = Some true)).
Proof.
  split; [exact (conj chain_keys_ok (conj chain_cache_ok eq_refl))|].
  exact (rendering_validates chain chain_keys_ok chain_cache_ok eq_refl).
Defined.

End Examples.
